(** * FilterU.S.DividendChampionsExcel: column matching, filtering, rounding,
      validation and styling of a dividend spreadsheet

    A shallow embedding of [DividientUtiles/FilterU.S.DividendChampionsExcel.py].

    - Python [float] is IEEE 754 binary64; it is modelled by [spec_float]
      with [prec = 53] and [emax = 1024], every value being produced by the
      correctly rounding operations of [SpecFloat].
    - A cell of a pandas frame is [None], an [int], a [float] (NaN included)
      or a [str].
    - A [DataFrame] is row major: the column labels with their dtype, and the
      rows with their index label, each row a map from the labels to its
      cells.  [Series.apply] is the elementwise map, which stops at the first
      exception; [df[mask]] keeps the rows whose mask entry is [True].  On a
      frame without rows [Series.apply] returns an empty Series of the dtype
      of the column, which is no boolean mask, and [df[...]] then selects no
      column at all.  Column labels are unique ([wf_frame]).
    - [print] is modelled by the list of diagnostics a function emits.
    - [difflib.get_close_matches] is a parameter of [match_columns].
    - Strings are byte strings: [str.lower], [len] and [float] are modelled
      on ASCII text.
    - A worksheet of openpyxl is its dictionary of cells, keyed by row and
      column, with the widths of its columns and its frozen panes; looking a
      cell up creates it.  Reading and writing files is not modelled. *)

From Stdlib Require Import ZArith NArith String Ascii List Bool Lia.
From Stdlib Require Import SpecFloat DecimalString.
From stdpp Require Import base option list strings gmap.

#[local] Set Warnings "-clear-no-such-hyp".
Local Open Scope Z_scope.

(** ** Python floats *)

Definition prec : Z := 53.
Definition emax : Z := 1024.

(** [m / d] rounded to the nearest integer, ties to even ([d > 0]). *)
Definition div_half_even (m d : Z) : Z :=
  let q := m / d in
  let r := m mod d in
  match (2 * r) ?= d with
  | Lt => q
  | Gt => q + 1
  | Eq => if Z.even q then q else q + 1
  end.

(** The binary64 nearest to [n * 10 ^ k] (ties to even), as [strtod] returns
    it; [neg] is the sign, kept on a zero. *)
Definition float_of_decimal (neg : bool) (n : N) (k : Z) : spec_float :=
  match n with
  | N0 => S754_zero neg
  | Npos m =>
      match k with
      | Zneg p =>
          let '(q, e, l) :=
            SFdiv_core_binary prec emax (Zpos m) 0 (Zpos (Pos.pow 10 p)) 0 in
          binary_round_aux prec emax neg q e l
      | _ => binary_round prec emax neg (Z.to_pos (Zpos m * 10 ^ k)) 0
      end
  end.

(** [float(n)] for a Python [int]: [OverflowError] when out of range. *)
Definition float_of_int (n : Z) : option spec_float :=
  match binary_normalize prec emax n 0 false with
  | S754_infinity _ => None
  | f => Some f
  end.

(** *** Parsing: [float(s)] *)

Definition is_digit (c : ascii) : bool :=
  let n := N_of_ascii c in ((48 <=? n) && (n <=? 57))%N.

Definition digit_val (c : ascii) : N := (N_of_ascii c - 48)%N.

(** [Py_UNICODE_ISSPACE] on the ASCII range. *)
Definition is_space (c : ascii) : bool :=
  let n := N_of_ascii c in
  (((9 <=? n) && (n <=? 13)) || ((28 <=? n) && (n <=? 32)))%N.

Definition lower_ascii (c : ascii) : ascii :=
  let n := N_of_ascii c in
  if ((65 <=? n) && (n <=? 90))%N then ascii_of_N (n + 32) else c.

Definition is_char (a : ascii) (c : ascii) : bool :=
  if ascii_dec a c then true else false.

Fixpoint drop_space (s : list ascii) : list ascii :=
  match s with
  | c :: s' => if is_space c then drop_space s' else s
  | [] => []
  end.

Definition strip (s : list ascii) : list ascii :=
  rev (drop_space (rev (drop_space s))).

(** Digit separators: an underscore is allowed only between two digits. *)
Fixpoint remove_underscores (prev : ascii) (s : list ascii)
  : option (list ascii) :=
  match s with
  | [] => if is_char "_" prev then None else Some []
  | c :: s' =>
      if is_char "_" c then
        if is_digit prev then remove_underscores c s' else None
      else if is_char "_" prev && negb (is_digit c) then None
      else cons c <$> remove_underscores c s'
  end.

Fixpoint read_digits (s : list ascii) (acc : N) (cnt : Z)
  : N * Z * list ascii :=
  match s with
  | c :: s' =>
      if is_digit c
      then read_digits s' (acc * 10 + digit_val c)%N (cnt + 1)
      else (acc, cnt, s)
  | [] => (acc, cnt, [])
  end.

Definition read_sign (s : list ascii) : bool * list ascii :=
  match s with
  | c :: s' =>
      if is_char "-" c then (true, s')
      else if is_char "+" c then (false, s')
      else (false, s)
  | [] => (false, [])
  end.

(** The exponent part, which has to end the text. *)
Definition read_exponent (s : list ascii) : option Z :=
  match s with
  | [] => Some 0
  | c :: s' =>
      if is_char "e" (lower_ascii c) then
        let '(neg, s'') := read_sign s' in
        let '(v, cnt, rest) := read_digits s'' 0%N 0 in
        match rest with
        | [] => if 0 <? cnt
                then Some (if neg then - Z.of_N v else Z.of_N v)
                else None
        | _ => None
        end
      else None
  end.

Definition is_word (w : string) (s : list ascii) : bool :=
  String.eqb (string_of_list_ascii (map lower_ascii s)) w.

(** [float(s)] on a [str]: [None] is [ValueError]. *)
Definition float_of_chars (s : list ascii) : option spec_float :=
  s1 ← remove_underscores zero (strip s);
  let '(neg, s2) := read_sign s1 in
  if is_word "inf" s2 || is_word "infinity" s2 then Some (S754_infinity neg)
  else if is_word "nan" s2 then Some S754_nan
  else
    let '(n1, c1, s3) := read_digits s2 0%N 0 in
    let '(n2, c2, s4) :=
      match s3 with
      | c :: t => if is_char "." c then read_digits t n1 0 else (n1, 0, s3)
      | [] => (n1, 0, s3)
      end in
    if 0 <? c1 + c2
    then e ← read_exponent s4; Some (float_of_decimal neg n2 (e - c2))
    else None.

Definition float_of_string (s : string) : option spec_float :=
  float_of_chars (list_ascii_of_string s).

(** *** Printing: [str(x)] of a float, the shortest text that reads back *)

(** The value [m * 2 ^ e] as a fraction. *)
Definition float_frac (m : positive) (e : Z) : Z * Z :=
  match e with
  | Zneg k => (Zpos m, 2 ^ Zpos k)
  | _ => (Zpos m * 2 ^ e, 1)
  end.

Definition digits_of (n : Z) : string :=
  NilZero.string_of_uint (N.to_uint (Z.to_N n)).

(** The least [j >= 1] with [q <= p * 10 ^ j]. *)
Fixpoint small_magnitude (fuel : nat) (p q j : Z) : Z :=
  match fuel with
  | O => j
  | S fuel' =>
      if q <=? p * 10 then j else small_magnitude fuel' (p * 10) q (j + 1)
  end.

(** [E] with [10 ^ (E - 1) <= p / q < 10 ^ E]. *)
Definition decimal_magnitude (p q : Z) : Z :=
  if q <=? p then Z.of_nat (String.length (digits_of (p / q)))
  else 1 - small_magnitude 400 p q 1.

Definition float_same (a b : spec_float) : bool :=
  match a, b with
  | S754_zero s, S754_zero t => Bool.eqb s t
  | S754_infinity s, S754_infinity t => Bool.eqb s t
  | S754_nan, S754_nan => true
  | S754_finite s m e, S754_finite t m' e' =>
      Bool.eqb s t && (m =? m')%positive && (e =? e')
  | _, _ => false
  end.

(** [p / q] rounded to [n] significant digits: [D] and [k] with value
    [D * 10 ^ (- k)]. *)
Definition to_precision (p q : Z) (n : Z) : Z * Z :=
  let k := n - decimal_magnitude p q in
  match k with
  | Zneg j => (div_half_even p (q * 10 ^ Zpos j), k)
  | _ => (div_half_even (p * 10 ^ k) q, k)
  end.

Fixpoint shortest_digits (fuel : nat) (m : positive) (e : Z) (n : Z) : Z * Z :=
  let '(p, q) := float_frac m e in
  let '(D, k) := to_precision p q n in
  match fuel with
  | O => (D, k)
  | S fuel' =>
      if float_same (float_of_decimal false (Z.to_N D) (- k))
                    (S754_finite false m e)
      then (D, k)
      else shortest_digits fuel' m e (n + 1)
  end.

Fixpoint strip_zeros_rev (s : list ascii) : list ascii :=
  match s with
  | c :: s' => if is_char "0" c then strip_zeros_rev s' else s
  | [] => []
  end.

Definition zeros (n : Z) : string :=
  string_of_list_ascii (repeat "0"%char (Z.to_nat n)).

Definition exponent_text (x : Z) : string :=
  let d := digits_of (Z.abs x) in
  let sign := if x <? 0 then "-"%string else "+"%string in
  let pad := if (String.length d <? 2)%nat then "0"%string else ""%string in
  (sign ++ pad ++ d)%string.

(** [repr] of a positive finite float. *)
Definition repr_finite (m : positive) (e : Z) : string :=
  let '(D, k) := shortest_digits 16 m e 1 in
  let all := list_ascii_of_string (digits_of D) in
  let decpt := Z.of_nat (length all) - k in
  let ds := match rev (strip_zeros_rev (rev all)) with
            | [] => ["0"%char]
            | l => l
            end in
  let nd := Z.of_nat (length ds) in
  if ((decpt <=? -4) || (16 <? decpt))%Z then
    (match ds with
     | c :: [] => String c ""
     | c :: t => String c ("." ++ string_of_list_ascii t)
     | [] => ""
     end ++ "e" ++ exponent_text (decpt - 1))%string
  else if (decpt <=? 0)%Z then
    ("0." ++ zeros (- decpt) ++ string_of_list_ascii ds)%string
  else if (nd <=? decpt)%Z then
    (string_of_list_ascii ds ++ zeros (decpt - nd) ++ ".0")%string
  else
    (string_of_list_ascii (take (Z.to_nat decpt) ds) ++ "." ++
     string_of_list_ascii (drop (Z.to_nat decpt) ds))%string.

Definition float_repr (x : spec_float) : string :=
  match x with
  | S754_nan => "nan"
  | S754_infinity s => if s then "-inf" else "inf"
  | S754_zero s => if s then "-0.0" else "0.0"
  | S754_finite s m e => ((if s then "-" else "") ++ repr_finite m e)%string
  end.

(** *** [round(x, 2)] and [math.isclose] *)

Definition round2 (x : spec_float) : spec_float :=
  match x with
  | S754_finite s m e =>
      let '(p, q) := float_frac m e in
      float_of_decimal s (Z.to_N (div_half_even (p * 100) q)) (-2)
  | _ => x
  end.

Definition is_infinity (x : spec_float) : bool :=
  match x with S754_infinity _ => true | _ => false end.

(** The default [rel_tol] of [math.isclose]. *)
Definition rel_tol : spec_float := float_of_decimal false 1 (-9).

Definition isclose (a b abs_tol : spec_float) : bool :=
  if SFeqb a b then true
  else if is_infinity a || is_infinity b then false
  else
    let diff := SFabs (SFsub prec emax b a) in
    SFleb diff (SFabs (SFmul prec emax rel_tol b))
    || SFleb diff (SFabs (SFmul prec emax rel_tol a))
    || SFleb diff abs_tol.

(** *** The comparison functions of module [operator] *)

Inductive comparator := op_gt | op_ge | op_lt | op_le | op_eq | op_ne.

Definition compare_op (op : comparator) (a b : spec_float) : bool :=
  match op with
  | op_gt => SFltb b a
  | op_ge => SFleb b a
  | op_lt => SFltb a b
  | op_le => SFleb a b
  | op_eq => SFeqb a b
  | op_ne => negb (SFeqb a b)
  end.

(** A float literal of the source text, such as [1.34]. *)
Definition float_lit (s : string) : spec_float :=
  default S754_nan (float_of_string s).

(** An [int] literal of the source text used as a threshold: comparing a
    float with a small [int] is comparing it with the float of that [int]. *)
Definition int_lit (n : Z) : spec_float := binary_normalize prec emax n 0 false.

(** ** Python strings *)

(** [s.lower()] *)
Fixpoint lower (s : string) : string :=
  match s with
  | EmptyString => EmptyString
  | String c s' => String (lower_ascii c) (lower s')
  end.

(** [needle in hay] *)
Fixpoint str_contains (needle hay : string) : bool :=
  String.prefix needle hay ||
  match hay with
  | EmptyString => false
  | String _ hay' => str_contains needle hay'
  end.

(** [s.replace(c, '')] for a one character [c] *)
Fixpoint str_remove (c : ascii) (s : string) : string :=
  match s with
  | EmptyString => EmptyString
  | String a s' => if is_char c a then str_remove c s' else String a (str_remove c s')
  end.

(** ** Cells and frames *)

Inductive cell :=
| CNone
| CInt (n : Z)
| CFloat (f : spec_float)
| CStr (s : string).

(** [pd.notnull(x)]: [None] and NaN are null. *)
Definition notnull (x : cell) : bool :=
  match x with
  | CNone => false
  | CFloat S754_nan => false
  | _ => true
  end.

(** [str(x)] *)
Definition py_str (x : cell) : string :=
  match x with
  | CNone => "None"
  | CInt n => NilZero.string_of_int (Z.to_int n)
  | CFloat f => float_repr f
  | CStr s => s
  end.

(** [float(x)]: [None] is an exception ([TypeError], [ValueError] or
    [OverflowError]). *)
Definition py_float (x : cell) : option spec_float :=
  match x with
  | CNone => None
  | CInt n => float_of_int n
  | CFloat f => Some f
  | CStr s => float_of_string s
  end.

(** The expression [float(str(x).replace('%', '').replace(',', ''))] of
    [apply_filters] (line 107). *)
Definition normalize (x : cell) : option spec_float :=
  float_of_string (str_remove "," (str_remove "%" (py_str x))).

(** The statements [raw_val = str(val).replace('%', '').replace(',', '')]
    and [numeric_val = float(raw_val)] of [validate_filtered_rows]
    (lines 207-208). *)
Definition validate_numeric (val : cell) : option spec_float :=
  let raw_val := str_remove "," (str_remove "%" (py_str val)) in
  float_of_string raw_val.

Inductive dtype := Float64 | Int64 | Object.

Record Row := { label : nat; cells : gmap string cell }.

Record DataFrame := {
  columns : list string;
  dtypes : gmap string dtype;
  rows : list Row
}.

(** The cell of a row under a column label; every row of a well-formed frame
    has one for every label of the frame. *)
Definition cell_at (r : Row) (col : string) : cell :=
  default CNone (cells r !! col).

Definition wf_frame (df : DataFrame) : Prop :=
  NoDup (columns df) ∧
  Forall (λ r, Forall (λ c, is_Some (cells r !! c)) (columns df)) (rows df).

(** ** Configuration *)

Record Style := {
  font_color : option string;
  bold : bool;
  fill_color : option string
}.

Record ColumnSettings := {
  column_name : string;
  col_filter : option (comparator * spec_float);
  style : option Style;
  conditional_style : option (comparator * spec_float * Style)
}.

Definition RED_COLOR : string := "EA3323".
Definition BLUE_COLOR : string := "2F6EBA".
Definition GRAY_COLOR : string := "808080".

Definition MARKET_DIVIDEND_YIELD : spec_float := float_lit "1.34".
Definition UPPER_LIMIT_FOR_DIVIDEND_YIELD : spec_float := int_lit 2.

Definition font (c : string) : Style :=
  {| font_color := Some c; bold := false; fill_color := None |}.
Definition bold_style : Style :=
  {| font_color := None; bold := true; fill_color := None |}.

Definition plain (name : string) : ColumnSettings :=
  {| column_name := name; col_filter := None; style := None;
     conditional_style := None |}.

Definition column_definitions : list ColumnSettings := [
  plain "Company Name";
  plain "Ticker Symbol";
  plain "Sector";
  plain "Industry";
  {| column_name := "No. Yrs"; col_filter := Some (op_gt, int_lit 25);
     style := Some bold_style; conditional_style := None |};
  {| column_name := "Price"; col_filter := None;
     style := Some (font BLUE_COLOR); conditional_style := None |};
  {| column_name := "Div. Yield";
     col_filter := Some (op_gt, MARKET_DIVIDEND_YIELD);
     style := None;
     conditional_style :=
       Some (op_gt, UPPER_LIMIT_FOR_DIVIDEND_YIELD, font RED_COLOR) |};
  {| column_name := "MR% Inc."; col_filter := Some (op_gt, int_lit 6);
     style := Some (font GRAY_COLOR); conditional_style := None |};
  {| column_name := "DGR 1-yr"; col_filter := Some (op_gt, int_lit 6);
     style := Some (font GRAY_COLOR); conditional_style := None |};
  {| column_name := "DGR 3-yr"; col_filter := Some (op_gt, int_lit 6);
     style := Some (font GRAY_COLOR); conditional_style := None |};
  {| column_name := "DGR 5-yr"; col_filter := Some (op_gt, int_lit 6);
     style := Some (font GRAY_COLOR); conditional_style := None |};
  {| column_name := "DGR 10-yr"; col_filter := Some (op_gt, int_lit 6);
     style := Some (font GRAY_COLOR); conditional_style := None |};
  {| column_name := "EPS% Payout"; col_filter := Some (op_le, int_lit 60);
     style := None; conditional_style := None |};
  {| column_name := "Past 5yr Growth"; col_filter := Some (op_gt, int_lit 0);
     style := Some (font BLUE_COLOR); conditional_style := None |};
  {| column_name := "Est-5yr Growth"; col_filter := Some (op_gt, int_lit 0);
     style := Some (font BLUE_COLOR); conditional_style := None |};
  {| column_name := "MktCap ($Mil)"; col_filter := None;
     style := Some (font BLUE_COLOR); conditional_style := None |};
  {| column_name := "Debt/ Equity"; col_filter := None;
     style := Some (font BLUE_COLOR); conditional_style := None |}
].

(** ** What the program prints *)

Inductive diag :=
| WarnNotFound (name : string) (suggestion : list string)
| ErrFilter (col : string)
| RowFailed (idx : nat) (name : string) (val : cell)
| SkipValidation (idx : nat) (name : string).

(** ** [match_columns] *)

(** [[c for c in data_df.columns if name.lower() in c.lower()]] *)
Definition matches_of (hs : list string) (name : string) : list string :=
  filter (λ c, str_contains (lower name) (lower c) = true) hs.

Section Matcher.
(** [difflib.get_close_matches(name, columns, n=1)] *)
Variable get_close_matches : string → list string → list string.

Fixpoint match_loop (hs : list string) (defs : list ColumnSettings)
    (matched : gmap string string) : gmap string string * list diag :=
  match defs with
  | [] => (matched, [])
  | col_def :: defs' =>
      match matches_of hs (column_name col_def) with
      | c :: _ =>
          match_loop hs defs' (<[column_name col_def := c]> matched)
      | [] =>
          let suggestion := get_close_matches (column_name col_def) hs in
          let '(m, log) := match_loop hs defs' matched in
          (m, WarnNotFound (column_name col_def) suggestion :: log)
      end
  end.

Definition match_columns_with (defs : list ColumnSettings)
    (data_df : DataFrame) : gmap string string * list diag :=
  match_loop (columns data_df) defs ∅.

Definition match_columns (data_df : DataFrame)
  : gmap string string * list diag :=
  match_columns_with column_definitions data_df.
End Matcher.

(** ** [apply_filters] *)

(** The lambda given to [Series.apply]; [None] is the exception of [float]. *)
Definition filter_lambda (op_func : comparator) (val : spec_float) (x : cell)
  : option bool :=
  if notnull x
  then v ← normalize x; Some (compare_op op_func v val)
  else Some false.

(** [df[mask]] *)
Fixpoint mask_rows (mask : list bool) (rs : list Row) : list Row :=
  match mask, rs with
  | b :: mask', r :: rs' =>
      if b then r :: mask_rows mask' rs' else mask_rows mask' rs'
  | _, _ => []
  end.

(** The body of the [try]: an unknown label ([KeyError]) or a cell that
    [float] rejects leaves the frame as it was and prints the error.  On a
    frame without rows [Series.apply] does not call the lambda and returns an
    empty Series of the dtype of the column; that is no boolean mask, so
    [filtered_df[...]] selects the columns it lists, which are none: the
    frame loses all its columns and nothing is printed. *)
Definition filter_column (filtered_df : DataFrame) (col : string)
    (op_func : comparator) (val : spec_float) : DataFrame * list diag :=
  if decide (col ∈ columns filtered_df) then
    match rows filtered_df with
    | [] => ({| columns := []; dtypes := ∅; rows := [] |}, [])
    | _ :: _ =>
        match mapM (λ r, filter_lambda op_func val (cell_at r col))
                   (rows filtered_df) with
        | Some mask =>
            ({| columns := columns filtered_df; dtypes := dtypes filtered_df;
                rows := mask_rows mask (rows filtered_df) |}, [])
        | None => (filtered_df, [ErrFilter col])
        end
    end
  else (filtered_df, [ErrFilter col]).

Fixpoint filter_loop (defs : list ColumnSettings)
    (matched : gmap string string) (filtered_df : DataFrame)
  : DataFrame * list diag :=
  match defs with
  | [] => (filtered_df, [])
  | col_def :: defs' =>
      match col_filter col_def, matched !! column_name col_def with
      | Some (op_func, val), Some col =>
          let '(df1, log1) := filter_column filtered_df col op_func val in
          let '(df2, log2) := filter_loop defs' matched df1 in
          (df2, log1 ++ log2)
      | _, _ => filter_loop defs' matched filtered_df
      end
  end.

(** [[matched[c.column_name] for c in defs if c.column_name in matched]] *)
Definition final_cols (defs : list ColumnSettings)
    (matched : gmap string string) : list string :=
  omap (λ c, matched !! column_name c) defs.

Definition restrict_row (cols : list string) (r : Row) : Row :=
  {| label := label r; cells := filter (λ kv, kv.1 ∈ cols) (cells r) |}.

(** [df[cols]]: [None] is [KeyError]. *)
Definition select_columns (df : DataFrame) (cols : list string)
  : option DataFrame :=
  if decide (Forall (λ c, c ∈ columns df) cols) then
    Some {| columns := cols;
            dtypes := filter (λ kv, kv.1 ∈ cols) (dtypes df);
            rows := restrict_row cols <$> rows df |}
  else None.

Definition apply_filters_with (defs : list ColumnSettings)
    (data_df : DataFrame) (matched : gmap string string)
  : option DataFrame * list diag :=
  let '(filtered_df, log) := filter_loop defs matched data_df in
  (select_columns filtered_df (final_cols defs matched), log).

Definition apply_filters (data_df : DataFrame) (matched : gmap string string)
  : option DataFrame * list diag :=
  apply_filters_with column_definitions data_df matched.

(** Every setting of [defs] that has a filter and a matched column. *)
Definition filters_of (defs : list ColumnSettings)
    (matched : gmap string string) (col : string) (op : comparator)
    (val : spec_float) : Prop :=
  ∃ col_def, col_def ∈ defs ∧ col_filter col_def = Some (op, val) ∧
             matched !! column_name col_def = Some col.

(** ** [round_numeric_columns] *)

(** [round(x, 2) if isinstance(x, float) else x] *)
Definition round_cell (x : cell) : cell :=
  match x with
  | CFloat f => CFloat (round2 f)
  | _ => x
  end.

Definition is_numeric (t : dtype) : bool :=
  match t with Float64 | Int64 => true | Object => false end.

(** [df.select_dtypes(include=['float', 'int']).columns] *)
Definition numeric_columns (df : DataFrame) : list string :=
  filter (λ c, is_numeric <$> dtypes df !! c = Some true) (columns df).

Definition round_row (cols : list string) (r : Row) : Row :=
  {| label := label r;
     cells := foldr (λ c m, alter round_cell c m) (cells r) cols |}.

Definition round_numeric_columns (df : DataFrame) : DataFrame :=
  {| columns := columns df; dtypes := dtypes df;
     rows := round_row (numeric_columns df) <$> rows df |}.

(** ** [validate_filtered_rows] *)

Record Validation := {
  all_valid : bool;
  changed_values : gmap string (list (nat * spec_float));
  columns_with_rounded_differences : gset string;
  printed : list diag
}.

(** One turn of the inner loop, on the cell [val] of row [idx]. *)
Definition validate_cell (name col_name : string) (op_func : comparator)
    (threshold tolerance : spec_float) (st : Validation) (idx : nat)
    (val : cell) : Validation :=
  match validate_numeric val with
  | None =>
      {| all_valid := all_valid st; changed_values := changed_values st;
         columns_with_rounded_differences :=
           columns_with_rounded_differences st;
         printed := printed st ++ [SkipValidation idx name] |}
  | Some numeric_val =>
      let st1 :=
        if compare_op op_func numeric_val threshold then st
        else
          {| all_valid := false; changed_values := changed_values st;
             columns_with_rounded_differences :=
               columns_with_rounded_differences st;
             printed := printed st ++ [RowFailed idx name val] |} in
      let original_val := numeric_val in
      match py_float val with
      | None =>
          {| all_valid := all_valid st1; changed_values := changed_values st1;
             columns_with_rounded_differences :=
               columns_with_rounded_differences st1;
             printed := printed st1 ++ [SkipValidation idx name] |}
      | Some fv =>
          if isclose fv original_val tolerance then st1
          else
            {| all_valid := all_valid st1;
               changed_values :=
                 <[col_name :=
                     default [] (changed_values st1 !! col_name)
                       ++ [(idx, original_val)]]> (changed_values st1);
               columns_with_rounded_differences :=
                 {[col_name]} ∪ columns_with_rounded_differences st1;
               printed := printed st1 |}
      end
  end.

Definition validate_column (name col_name : string) (op_func : comparator)
    (threshold tolerance : spec_float) (df_filtered : DataFrame)
    (st : Validation) : Validation :=
  fold_left (λ st r, validate_cell name col_name op_func threshold tolerance
                       st (label r) (cell_at r col_name))
            (rows df_filtered) st.

(** [None] is the [KeyError] of [df_filtered[col_name]], outside any [try]. *)
Fixpoint validate_loop (df_filtered : DataFrame)
    (matched_columns : gmap string string) (defs : list ColumnSettings)
    (tolerance : spec_float) (st : Validation) : option Validation :=
  match defs with
  | [] => Some st
  | col_def :: defs' =>
      match col_filter col_def, matched_columns !! column_name col_def with
      | Some (op_func, threshold), Some col_name =>
          if decide (col_name ∈ columns df_filtered) then
            validate_loop df_filtered matched_columns defs' tolerance
              (validate_column (column_name col_def) col_name op_func
                 threshold tolerance df_filtered st)
          else None
      | _, _ => validate_loop df_filtered matched_columns defs' tolerance st
      end
  end.

Definition validate_filtered_rows (df_filtered : DataFrame)
    (matched_columns : gmap string string)
    (column_definitions : list ColumnSettings) (tolerance : spec_float)
  : option Validation :=
  validate_loop df_filtered matched_columns column_definitions tolerance
    {| all_valid := true; changed_values := ∅;
       columns_with_rounded_differences := ∅; printed := [] |}.

(** The default [tolerance=1e-3]. *)
Definition default_tolerance : spec_float := float_lit "1e-3".

(** ** [main]: lines 65-66, filter then round *)

Definition filter_and_round (data_df : DataFrame)
    (matched : gmap string string) : option DataFrame * list diag :=
  let '(filtered_df, log) := apply_filters data_df matched in
  (round_numeric_columns <$> filtered_df, log).

(** ** [apply_styles] *)

(** The columns of the sheet that [apply_styles] visits: the pairs of
    [enumerate(column_definitions, 1)] whose name is matched.  Every cell
    below the header in sheet column [col_idx] gets the styles of
    [col_def]. *)
Fixpoint styled_from (col_idx : nat) (defs : list ColumnSettings)
    (matched : gmap string string) : list (nat * ColumnSettings) :=
  match defs with
  | [] => []
  | col_def :: defs' =>
      match matched !! column_name col_def with
      | None => styled_from (S col_idx) defs' matched
      | Some _ => (col_idx, col_def) :: styled_from (S col_idx) defs' matched
      end
  end.

Definition apply_styles_with (defs : list ColumnSettings)
    (matched : gmap string string) : list (nat * ColumnSettings) :=
  styled_from 1 defs matched.

Definition apply_styles (matched : gmap string string)
  : list (nat * ColumnSettings) :=
  apply_styles_with column_definitions matched.

(** The settings whose data [apply_filters] puts in the frame, in the order
    of [final_cols]: the sheet written from the frame holds the data of the
    [j]-th of them in its column [j] (counted from 1). *)
Definition data_settings (defs : list ColumnSettings)
    (matched : gmap string string) : list ColumnSettings :=
  filter (λ c, is_Some (matched !! column_name c)) defs.

(** The settings whose data sheet column [j] holds, if any. *)
Definition sheet_column (defs : list ColumnSettings)
    (matched : gmap string string) (j : nat) : option ColumnSettings :=
  match j with
  | O => None
  | S i => data_settings defs matched !! i
  end.


(** ** [main]: lines 64-72, without the reading and writing of files *)

Record Run := {
  run_matched : gmap string string;
  run_frame : DataFrame;
  run_styles : list (nat * ColumnSettings);
  run_validation : Validation
}.

(** [None] is an exception that ends the program; the list is what
    [match_columns] and [apply_filters] print. *)
Definition main (get_close_matches : string → list string → list string)
    (data_df : DataFrame) : option Run * list diag :=
  let '(matched, log0) := match_columns get_close_matches data_df in
  let '(filtered_df, log1) := filter_and_round data_df matched in
  (filtered_df ← filtered_df;
   valid_filter ← validate_filtered_rows filtered_df matched
                    column_definitions default_tolerance;
   Some {| run_matched := matched; run_frame := filtered_df;
           run_styles := apply_styles matched;
           run_validation := valid_filter |},
   log0 ++ log1).

(** ** Frames used in the statements below *)

Definition row_of (idx : nat) (l : list (string * cell)) : Row :=
  {| label := idx; cells := list_to_map l |}.

Definition frame_of (cols : list (string * dtype)) (rs : list Row) : DataFrame :=
  {| columns := cols.*1; dtypes := list_to_map cols; rows := rs |}.

(** No suggestion: what [get_close_matches] returns below its cutoff. *)
Definition no_suggestion : string → list string → list string := λ _ _, [].

(** The column map of a sheet whose only header is [No. Yrs]. *)
Definition matched_no_yrs : gmap string string := {["No. Yrs" := "No. Yrs"]}.

(** The scenario column: the rows 30, 25, 10 and the text [N/A]. *)
Definition scenario_df : DataFrame :=
  frame_of [("No. Yrs", Object)]
    [row_of 0 [("No. Yrs", CInt 30)]; row_of 1 [("No. Yrs", CInt 25)];
     row_of 2 [("No. Yrs", CInt 10)]; row_of 3 [("No. Yrs", CStr "N/A")]].

(** The same column when the last cell is empty and read as NaN. *)
Definition scenario_null_df : DataFrame :=
  frame_of [("No. Yrs", Object)]
    [row_of 0 [("No. Yrs", CInt 30)]; row_of 1 [("No. Yrs", CInt 25)];
     row_of 2 [("No. Yrs", CInt 10)]; row_of 3 [("No. Yrs", CFloat S754_nan)]].

(** The same column as [read_excel] delivers it: the text [N/A] of a sheet
    is read as NaN, and a column of numbers with a NaN has dtype float. *)
Definition scenario_read_df : DataFrame :=
  frame_of [("No. Yrs", Float64)]
    [row_of 0 [("No. Yrs", CFloat (float_lit "30.0"))];
     row_of 1 [("No. Yrs", CFloat (float_lit "25.0"))];
     row_of 2 [("No. Yrs", CFloat (float_lit "10.0"))];
     row_of 3 [("No. Yrs", CFloat S754_nan)]].

(** A float column with the single value 25.0049. *)
Definition df_25_0049 : DataFrame :=
  frame_of [("No. Yrs", Float64)]
    [row_of 0 [("No. Yrs", CFloat (float_lit "25.0049"))]].

(** A float column with the single value 30.0049. *)
Definition df_30_0049 : DataFrame :=
  frame_of [("No. Yrs", Float64)]
    [row_of 0 [("No. Yrs", CFloat (float_lit "30.0049"))]].

(** A column with a dash for a missing figure, and a row below the
    threshold. *)
Definition dash_df : DataFrame :=
  frame_of [("No. Yrs", Object)]
    [row_of 0 [("No. Yrs", CStr "-")]; row_of 1 [("No. Yrs", CInt 10)]].

(** Two predicated columns: row 0 has a dash for the years and a low yield,
    row 1 has too few years, row 2 passes both. *)
Definition two_columns_df : DataFrame :=
  frame_of [("No. Yrs", Object); ("Div. Yield", Float64)]
    [row_of 0 [("No. Yrs", CStr "-"); ("Div. Yield", CFloat (float_lit "0.5"))];
     row_of 1 [("No. Yrs", CInt 5); ("Div. Yield", CFloat (float_lit "3.0"))];
     row_of 2 [("No. Yrs", CInt 30); ("Div. Yield", CFloat (float_lit "3.0"))]].

Definition matched_two_columns : gmap string string :=
  {["No. Yrs" := "No. Yrs"; "Div. Yield" := "Div. Yield"]}.

(** Two predicated columns and one row, which the first filter drops. *)
Definition low_years_df : DataFrame :=
  frame_of [("No. Yrs", Int64); ("Div. Yield", Float64)]
    [row_of 0 [("No. Yrs", CInt 10); ("Div. Yield", CFloat (float_lit "3.0"))]].

(** Every column of the configuration found under its own name, except the
    first. *)
Definition matched_all_but_first : gmap string string :=
  list_to_map ((λ c, (column_name c, column_name c)) <$> tail column_definitions).

(** ** The filter as one test on a row *)

(** The row passes the lambda of every setting that has a filter and a
    matched column. *)
Definition row_passes (defs : list ColumnSettings)
    (matched : gmap string string) (r : Row) : bool :=
  forallb (λ col_def,
             match col_filter col_def, matched !! column_name col_def with
             | Some (op_func, val), Some col =>
                 bool_decide (filter_lambda op_func val (cell_at r col)
                              = Some true)
             | _, _ => true
             end) defs.

(** Every cell of a filtered, matched column is null or parses. *)
Definition parseable_columns (defs : list ColumnSettings)
    (matched : gmap string string) (df : DataFrame) : Prop :=
  ∀ col op val, filters_of defs matched col op val →
    col ∈ columns df ∧
    Forall (λ r, notnull (cell_at r col) = true →
                 is_Some (normalize (cell_at r col))) (rows df).

(** The same, as a test. *)
Definition parseable_columnsb (defs : list ColumnSettings)
    (matched : gmap string string) (df : DataFrame) : bool :=
  forallb (λ col_def,
             match col_filter col_def, matched !! column_name col_def with
             | Some _, Some col =>
                 bool_decide (col ∈ columns df) &&
                 forallb (λ r, negb (notnull (cell_at r col)) ||
                               bool_decide (is_Some (normalize (cell_at r col))))
                         (rows df)
             | _, _ => true
             end) defs.

(** No float of the table is changed by [round(x, 2)], as a test. *)
Definition floats_rounded (df : DataFrame) : bool :=
  forallb (λ r, forallb (λ kv, match kv.2 with
                               | CFloat f => float_same (round2 f) f
                               | _ => true
                               end) (map_to_list (cells r))) (rows df).

(** A sheet of three companies, with years, price and yield. *)
Definition three_rows_df : DataFrame :=
  frame_of [("Company Name", Object); ("No. Yrs", Int64);
            ("Price", Float64); ("Div. Yield", Object)]
    [row_of 0 [("Company Name", CStr "Alpha"); ("No. Yrs", CInt 40);
               ("Price", CFloat (float_lit "101.5"));
               ("Div. Yield", CStr "2.50%")];
     row_of 1 [("Company Name", CStr "Beta"); ("No. Yrs", CInt 12);
               ("Price", CFloat (float_lit "17.25"));
               ("Div. Yield", CStr "4.10%")];
     row_of 2 [("Company Name", CStr "Gamma"); ("No. Yrs", CInt 31);
               ("Price", CFloat (float_lit "1250.0"));
               ("Div. Yield", CFloat S754_nan)]].

(** No line of the form [Error filtering column ...] among what was
    printed. *)
Definition no_filter_error (log : list diag) : bool :=
  forallb (λ d, match d with ErrFilter _ => false | _ => true end) log.

(** ** The worksheet of the saved file *)

(** [format_excel_file] works on the sheet [FilteredResult] that
    [load_workbook] returns.  The sheet is openpyxl's: a dictionary of cells
    keyed by row and column, both counted from 1, with the header in row 1.
    A cell that is looked up and does not exist is created empty, so
    iterating over a range of the sheet creates its cells. *)

(** The two arguments the program gives to [Font]. *)
Record Font := { font_bold : bool; font_rgb : option string }.

(** A cell: its value and the attributes the program assigns.  For
    [alignment], [cell_font] and [fill], [None] is an attribute the program
    has not assigned: what the file was loaded with. *)
Record SheetCell := {
  value : cell;
  alignment : option (string * string);
  cell_font : option Font;
  fill : option string;
  number_format : string
}.

Definition empty_cell : SheetCell :=
  {| value := CNone; alignment := None; cell_font := None; fill := None;
     number_format := "General" |}.

(** [column_width] is [column_dimensions[...].width], keyed by the number of
    the column instead of its letter. *)
Record Worksheet := {
  ws_cells : gmap (nat * nat) SheetCell;
  column_width : gmap nat nat;
  freeze_panes : option string
}.

(** [ws.max_row] and [ws.max_column]: 1 on a sheet without cells. *)
Definition max_row (ws : Worksheet) : nat :=
  match (map_to_list (ws_cells ws)).*1 with
  | [] => 1
  | ks => max_list (ks.*1)
  end.

Definition max_column (ws : Worksheet) : nat :=
  match (map_to_list (ws_cells ws)).*1 with
  | [] => 1
  | ks => max_list (ks.*2)
  end.

(** [ws.cell(row, column)], read only: the cell there, or the empty cell that
    the lookup creates. *)
Definition cell_of (ws : Worksheet) (row col : nat) : SheetCell :=
  default empty_cell (ws_cells ws !! (row, col)).

(** One step of a loop over cells: the cell is looked up, which creates it
    when it is missing, and changed in place. *)
Definition update_cell (f : SheetCell → SheetCell) (ws : Worksheet)
    (row col : nat) : Worksheet :=
  {| ws_cells := <[(row, col) := f (cell_of ws row col)]> (ws_cells ws);
     column_width := column_width ws;
     freeze_panes := freeze_panes ws |}.

(** The coordinates that [ws.iter_rows(min_row=..., min_col=..., max_col=...)]
    visits, row by row: the rows up to [ws.max_row]. *)
Definition iter_rows (ws : Worksheet) (min_row min_col max_col : nat)
  : list (nat * nat) :=
  r ← seq min_row (S (max_row ws) - min_row);
  (λ c, (r, c)) <$> seq min_col (S max_col - min_col).

(** [for row in ...: for cell in row: f(cell)] *)
Definition for_cells (f : SheetCell → SheetCell) (ws : Worksheet)
    (coords : list (nat * nat)) : Worksheet :=
  foldl (λ ws rc, update_cell f ws rc.1 rc.2) ws coords.

(** ** [apply_cell_style] *)

(** The truth value of what [style_dict.get] returns for a colour: [None]
    and the empty string are false. *)
Definition truthy (s : option string) : bool :=
  match s with
  | None => false
  | Some EmptyString => false
  | Some _ => true
  end.

Definition apply_cell_style (c : SheetCell) (style_dict : Style) : SheetCell :=
  let font_color := font_color style_dict in
  let bold := bold style_dict in
  let fill_color := fill_color style_dict in
  {| value := value c;
     alignment := Some ("center", "center");
     cell_font :=
       if bold && truthy font_color
       then Some {| font_bold := true; font_rgb := font_color |}
       else if bold then Some {| font_bold := true; font_rgb := None |}
       else if truthy font_color
       then Some {| font_bold := false; font_rgb := font_color |}
       else cell_font c;
     fill := if truthy fill_color then fill_color else fill c;
     number_format := number_format c |}.

(** ** [apply_styles] on the sheet *)

(** The body of the loop over the cells of a column (lines 139-150): the
    style of the setting, then its conditional style when the value of the
    cell, read as in [apply_filters], meets the condition.  A value that does
    not parse leaves the loop body by [except: continue]. *)
Definition style_cell (col_def : ColumnSettings) (c : SheetCell) : SheetCell :=
  let c :=
    match style col_def with
    | Some s => apply_cell_style c s
    | None => c
    end in
  match conditional_style col_def with
  | Some (condition, threshold, s) =>
      match normalize (value c) with
      | Some val =>
          if compare_op condition val threshold then apply_cell_style c s
          else c
      | None => c
      end
  | None => c
  end.

(** The loop of [apply_styles] over the pairs of
    [enumerate(column_definitions, 1)] that are not skipped. *)
Definition style_columns (targets : list (nat * ColumnSettings))
    (ws : Worksheet) : Worksheet :=
  foldl (λ ws t, for_cells (style_cell t.2) ws (iter_rows ws 2 t.1 t.1))
        ws targets.

Definition apply_styles_sheet (ws : Worksheet) (matched : gmap string string)
  : Worksheet :=
  style_columns (apply_styles matched) ws.

(** ** [auto_adjust_column_widths] *)

(** [ws.columns]: nothing on a sheet without cells, else the columns up to
    [ws.max_column], each with the rows up to [ws.max_row]. *)
Definition sheet_columns (ws : Worksheet) : list nat :=
  if decide (ws_cells ws = ∅) then [] else seq 1 (max_column ws).

(** [max((len(str(cell.value)) for cell in col_cells
         if cell.value is not None), default=0)] *)
Definition max_len (ws : Worksheet) (col : nat) : nat :=
  max_list
    (omap (λ r, match value (cell_of ws r col) with
                | CNone => None
                | v => Some (String.length (py_str v))
                end)
          (seq 1 (max_row ws))).

(** The body of the loop: the cells of the column are looked up, which
    creates the missing ones, and the width of the column is set. *)
Definition adjust_column_width (ws : Worksheet) (col : nat) : Worksheet :=
  let ws := for_cells id ws ((λ r, (r, col)) <$> seq 1 (max_row ws)) in
  {| ws_cells := ws_cells ws;
     column_width := <[col := (max_len ws col + 2)%nat]> (column_width ws);
     freeze_panes := freeze_panes ws |}.

Definition auto_adjust_column_widths (ws : Worksheet) : Worksheet :=
  foldl adjust_column_width ws (sheet_columns ws).

(** ** [freeze_header_and_columns] *)

Definition FREEZING_CELL : string := "C2".

Definition freeze_header_and_columns (ws : Worksheet) : Worksheet :=
  {| ws_cells := ws_cells ws; column_width := column_width ws;
     freeze_panes := Some FREEZING_CELL |}.

(** ** [apply_thousand_separator] *)

(** [float.is_integer] *)
Definition is_integer (f : spec_float) : bool :=
  match f with
  | S754_zero _ => true
  | S754_finite _ m e =>
      if (0 <=? e)%Z then true else (Z.pos m mod 2 ^ (- e) =? 0)%Z
  | _ => false
  end.

(** The body of the loop over the cells (lines 179-191).  A float is compared
    with the integer 999 by value. *)
Definition separator_cell (c : SheetCell) : SheetCell :=
  let set_format fmt :=
    {| value := value c; alignment := alignment c; cell_font := cell_font c;
       fill := fill c; number_format := fmt |} in
  match value c with
  | CNone => c
  | CInt n => if (999 <? Z.abs n)%Z then set_format "#,##0" else c
  | CFloat f =>
      if compare_op op_gt (SFabs f) (int_lit 999)
      then if is_integer f then set_format "#,##0" else set_format "#,##0.00"
      else c
  | CStr _ => c
  end.

Definition apply_thousand_separator (ws : Worksheet) : Worksheet :=
  for_cells separator_cell ws (iter_rows ws 2 1 (max_column ws)).

(** ** [format_excel_file], without the loading and saving of the workbook *)

Definition format_excel_file (ws : Worksheet) (matched : gmap string string)
  : Worksheet :=
  let ws := apply_styles_sheet ws matched in
  let ws := auto_adjust_column_widths ws in
  let ws := freeze_header_and_columns ws in
  apply_thousand_separator ws.

(** ** A sheet used in the statements below *)

Definition cell_with (v : cell) : SheetCell :=
  {| value := v; alignment := None; cell_font := None; fill := None;
     number_format := "General" |}.

(** A sheet of one column: the header [No. Yrs] over three values. *)
Definition one_column_sheet : Worksheet :=
  {| ws_cells :=
       list_to_map [((1, 1)%nat, cell_with (CStr "No. Yrs"));
                    ((2, 1)%nat, cell_with (CInt 30));
                    ((3, 1)%nat, cell_with (CFloat (float_lit "1250.5")));
                    ((4, 1)%nat, cell_with (CInt 1200))];
     column_width := ∅;
     freeze_panes := None |}.

(** * Properties *)

(** ** Lists *)

Lemma filter_head_split {A} (P : A → Prop) `{!∀ x, Decision (P x)}
    (l : list A) (h : A) (t : list A) :
  filter P l = h :: t →
  ∃ pre post, l = pre ++ h :: post ∧ P h ∧ Forall (λ x, ¬ P x) pre.
Proof.
  induction l as [|a l IH]; intros Hf; [discriminate|].
  rewrite filter_cons in Hf. destruct (decide (P a)) as [Ha|Ha].
  - inversion Hf; subst. exists [], l. auto.
  - destruct (IH Hf) as (pre & post & -> & Hh & Hpre).
    exists (a :: pre), post. auto.
Qed.

Lemma filter_nil_Forall {A} (P : A → Prop) `{!∀ x, Decision (P x)}
    (l : list A) :
  filter P l = [] → Forall (λ x, ¬ P x) l.
Proof.
  intros Hf. apply Forall_forall. intros x Hx HP.
  by apply (filter_nil_not_elem_of P l x).
Qed.

Lemma filter_Forall_id {A} (P : A → Prop) `{!∀ x, Decision (P x)}
    (l : list A) :
  Forall P l → filter P l = l.
Proof.
  induction 1 as [|x l Hx _ IH]; [done|].
  by rewrite filter_cons, decide_True, IH.
Qed.

(** ** The column matcher *)

Section MatcherFacts.
Variable gcm : string → list string → list string.
Variable hs : list string.

Lemma match_loop_lookup defs m0 n :
  (match_loop gcm hs defs m0).1 !! n =
    if decide (n ∈ column_name <$> defs) then
      match matches_of hs n with
      | c :: _ => Some c
      | [] => m0 !! n
      end
    else m0 !! n.
Proof.
  revert m0. induction defs as [|d defs IH]; intros m0.
  { cbn [match_loop fst]. by rewrite decide_False by set_solver. }
  cbn [match_loop]. rewrite fmap_cons.
  destruct (matches_of hs (column_name d)) as [|c cs] eqn:Hm.
  - destruct (match_loop gcm hs defs m0) as [m log] eqn:Hl.
    specialize (IH m0). rewrite Hl in IH. cbn [fst] in *. rewrite IH.
    destruct (decide (n = column_name d)) as [->|Hne].
    + rewrite Hm. by repeat case_decide.
    + repeat case_decide; set_solver.
  - rewrite IH.
    destruct (decide (n = column_name d)) as [->|Hne].
    + rewrite Hm, lookup_insert_eq. repeat case_decide; set_solver.
    + rewrite lookup_insert_ne by done. repeat case_decide; set_solver.
Qed.

Lemma match_loop_log defs m0 n sug :
  WarnNotFound n sug ∈ (match_loop gcm hs defs m0).2 ↔
  n ∈ column_name <$> defs ∧ matches_of hs n = [] ∧ sug = gcm n hs.
Proof.
  revert m0. induction defs as [|d defs IH]; intros m0.
  { cbn [match_loop snd]. set_solver. }
  cbn [match_loop]. rewrite fmap_cons.
  destruct (matches_of hs (column_name d)) as [|c cs] eqn:Hm.
  - destruct (match_loop gcm hs defs m0) as [m log] eqn:Hl.
    specialize (IH m0). rewrite Hl in IH. cbn [snd] in *.
    rewrite elem_of_cons, IH, elem_of_cons. split.
    + intros [Heq|(? & ? & ?)]; [|by auto].
      inversion Heq; subst. auto.
    + intros ([->|?] & ? & ->); [by left | by right].
  - rewrite IH, elem_of_cons. split; [naive_solver|].
    intros ([->|?] & Hn & ?); [congruence | done].
Qed.
End MatcherFacts.

Lemma match_columns_with_in_columns gcm defs df k col :
  (match_columns_with gcm defs df).1 !! k = Some col → col ∈ columns df.
Proof.
  unfold match_columns_with. rewrite match_loop_lookup, lookup_empty.
  case_decide; [|done].
  destruct (matches_of (columns df) k) as [|c cs] eqn:Hm; [done|].
  intros [= <-]. assert (c ∈ matches_of (columns df) k) as Hc.
  { rewrite Hm. by left. }
  unfold matches_of in Hc. by apply list_elem_of_filter in Hc as [_ ?].
Qed.

(** ** The filter engine *)

Lemma notnull_false x : notnull x = false ↔ x = CNone ∨ x = CFloat S754_nan.
Proof.
  destruct x as [|n|f|t]; simpl.
  - split; auto.
  - split; [done|]. intros [H|H]; discriminate H.
  - destruct f; (split; [auto; done|]); try done;
      intros [H|H]; discriminate H.
  - split; [done|]. intros [H|H]; discriminate H.
Qed.

Lemma mask_rows_filter (f : Row → option bool) (rs : list Row)
    (mask : list bool) :
  mapM f rs = Some mask →
  mask_rows mask rs = filter (λ r, f r = Some true) rs.
Proof.
  rewrite mapM_Some. induction 1 as [|r b rs mask Hr _ IH]; [done|].
  cbn [mask_rows]. rewrite filter_cons, IH.
  destruct b; case_decide; congruence.
Qed.

Lemma filter_lambda_Some_true op val x :
  filter_lambda op val x = Some true ↔
  notnull x = true ∧ ∃ v, normalize x = Some v ∧ compare_op op v val = true.
Proof.
  unfold filter_lambda. destruct (notnull x).
  - destruct (normalize x) as [v|]; simpl.
    + split; [intros [= H]; eauto | intros (_ & w & [= <-] & H); by rewrite H].
    + split; [done | intros (_ & w & [=] & _)].
  - split; [done | intros [[=] _]].
Qed.

Lemma filter_lambda_None op val x :
  filter_lambda op val x = None ↔ notnull x = true ∧ normalize x = None.
Proof.
  unfold filter_lambda. destruct (notnull x).
  - destruct (normalize x) as [v|]; simpl; [|done].
    split; [done | intros [_ [=]]].
  - split; [done | intros [[=] _]].
Qed.

Lemma filter_column_inv df col op val df' log :
  filter_column df col op val = (df', log) →
  (log = [] ∧ col ∈ columns df ∧ rows df ≠ [] ∧
   df' = {| columns := columns df; dtypes := dtypes df;
            rows := filter (λ r, filter_lambda op val (cell_at r col)
                                 = Some true) (rows df) |})
  ∨ (log = [] ∧ col ∈ columns df ∧ rows df = [] ∧
     df' = {| columns := []; dtypes := ∅; rows := [] |})
  ∨ (log = [ErrFilter col] ∧ df' = df ∧
     (col ∉ columns df ∨
      ∃ r, r ∈ rows df ∧ filter_lambda op val (cell_at r col) = None)).
Proof.
  unfold filter_column. case_decide as Hc; [|naive_solver].
  destruct (rows df) as [|r0 rs] eqn:Hrows.
  { intros [= <- <-]. right. left. done. }
  rewrite <- Hrows.
  assert (rows df ≠ []) as Hne by (by rewrite Hrows).
  clear r0 rs Hrows.
  destruct (mapM _ (rows df)) as [mask|] eqn:Hm.
  - intros [= <- <-]. left. by rewrite (mask_rows_filter _ _ _ Hm).
  - intros [= <- <-]. right. right. repeat split; try done. right.
    destruct (decide (Forall (λ r, is_Some (filter_lambda op val
                (cell_at r col))) (rows df))) as [Hall|Hnot].
    + apply (mapM_is_Some_2 (λ r, filter_lambda op val (cell_at r col)))
        in Hall. rewrite Hm in Hall. by destruct Hall.
    + apply not_Forall_Exists in Hnot; [|apply _].
      apply Exists_exists in Hnot as (r & Hr & Hn).
      exists r. split; [done|]. by apply eq_None_not_Some.
Qed.

Lemma filters_of_cons d defs matched col op val :
  filters_of defs matched col op val →
  filters_of (d :: defs) matched col op val.
Proof. intros (cd & ? & ? & ?). exists cd. split; [by right|done]. Qed.

Lemma filters_of_here d defs matched col op val :
  col_filter d = Some (op, val) → matched !! column_name d = Some col →
  filters_of (d :: defs) matched col op val.
Proof. intros ? ?. exists d. split; [by left|done]. Qed.

Lemma filters_of_cons_inv d defs matched col op val :
  filters_of (d :: defs) matched col op val →
  (col_filter d = Some (op, val) ∧ matched !! column_name d = Some col)
  ∨ filters_of defs matched col op val.
Proof.
  intros (cd & Hcd & ? & ?). apply elem_of_cons in Hcd as [->|Hcd].
  - by left.
  - right. by exists cd.
Qed.

(** The frame of the loop keeps its columns, or it has lost them all
    together with its rows; the rows that are left are rows of the table, in
    its order; a row that passes every filter is left; a row that is left
    passes every filter for which no error was printed; and an error is
    printed for a column that is no column of the table, for a column with a
    cell that is not null and does not parse, or after the frame has lost
    its columns. *)
Lemma filter_loop_spec defs matched df df' log :
  filter_loop defs matched df = (df', log) →
  ((columns df' = columns df ∧ dtypes df' = dtypes df) ∨
   (columns df' = [] ∧ dtypes df' = ∅ ∧ rows df' = [])) ∧
  rows df' `sublist_of` rows df ∧
  (∀ r, r ∈ rows df →
     (∀ col op val, filters_of defs matched col op val →
        filter_lambda op val (cell_at r col) = Some true) →
     r ∈ rows df') ∧
  (∀ r col op val, r ∈ rows df' → filters_of defs matched col op val →
     ErrFilter col ∉ log →
     filter_lambda op val (cell_at r col) = Some true) ∧
  (∀ x, x ∈ log → ∃ col, x = ErrFilter col ∧
     (∃ op val, filters_of defs matched col op val) ∧
     (col ∉ columns df ∨
      (∃ r, r ∈ rows df ∧ notnull (cell_at r col) = true ∧
            normalize (cell_at r col) = None) ∨
      columns df' = [])).
Proof.
  revert df df' log. induction defs as [|d defs IH]; intros df df' log.
  { cbn [filter_loop]. intros [= <- <-].
    split; [by left|]. split; [done|]. split; [done|]. split.
    - intros r col op val _ (cd & Hcd & _). by apply elem_of_nil in Hcd.
    - intros x Hx. by apply elem_of_nil in Hx. }
  cbn [filter_loop].
  destruct (col_filter d) as [[op0 val0]|] eqn:Hf;
    [destruct (matched !! column_name d) as [col0|] eqn:Hm|].
  - destruct (filter_column df col0 op0 val0) as [df1 log1] eqn:Hfc.
    destruct (filter_loop defs matched df1) as [df2 log2] eqn:Hfl.
    intros [= <- <-].
    destruct (IH _ _ _ Hfl) as (Hc & Hsub & Hcompl & Hsound & Hlog).
    apply filter_column_inv in Hfc
      as [(-> & Hin & Hne & ->)|[(-> & Hin & Hemp & ->)|(-> & -> & Herr)]];
      cbn [columns dtypes rows app] in *.
    + split; [exact Hc|]. split; [|split; [|split]].
      * etrans; [exact Hsub|]. apply sublist_filter.
      * intros r Hr Hall. apply Hcompl.
        -- apply list_elem_of_filter. split; [|done].
           apply Hall. by apply filters_of_here.
        -- intros col op val Hfo. apply Hall. by apply filters_of_cons.
      * intros r col op val Hr Hfo Hne'.
        apply filters_of_cons_inv in Hfo as [[Hcf Hcm]|Hfo].
        -- rewrite Hf in Hcf. rewrite Hm in Hcm.
           injection Hcf as -> ->. injection Hcm as ->.
           eapply elem_of_sublist in Hr; [|exact Hsub].
           by apply list_elem_of_filter in Hr as [? _].
        -- by apply Hsound.
      * intros x Hx.
        destruct (Hlog x Hx) as (col & -> & (op & val & Hfo) & Hw).
        exists col. split; [done|]. split.
        { exists op, val. by apply filters_of_cons. }
        destruct Hw as [?|[(r & Hr & ?)|?]]; [by left| |by right; right].
        right. left. exists r.
        apply list_elem_of_filter in Hr as [_ Hr]. done.
    + apply sublist_nil_r in Hsub.
      assert (columns df2 = [] ∧ dtypes df2 = ∅) as [Hc2 Hd2].
      { destruct Hc as [[? ?]|(? & ? & _)]; done. }
      split; [by right|]. split; [|split; [|split]].
      * rewrite Hsub. apply sublist_nil_l.
      * intros r Hr _. rewrite Hemp in Hr. by apply elem_of_nil in Hr.
      * intros r col op val Hr _ _. rewrite Hsub in Hr.
        by apply elem_of_nil in Hr.
      * intros x Hx.
        destruct (Hlog x Hx) as (col & -> & (op & val & Hfo) & _).
        exists col. split; [done|]. split; [|by right; right].
        exists op, val. by apply filters_of_cons.
    + split; [exact Hc|]. split; [exact Hsub|]. split; [|split].
      * intros r Hr Hall. apply Hcompl; [done|].
        intros col op val Hfo. apply Hall. by apply filters_of_cons.
      * intros r col op val Hr Hfo Hne.
        apply filters_of_cons_inv in Hfo as [[Hcf Hcm]|Hfo].
        -- rewrite Hf in Hcf. rewrite Hm in Hcm.
           injection Hcf as -> ->. injection Hcm as ->.
           exfalso. apply Hne. by left.
        -- apply Hsound; [done|done|]. intros Hin. apply Hne. by right.
      * intros x Hx. apply elem_of_cons in Hx as [->|Hx].
        -- exists col0. split; [done|]. split.
           { exists op0, val0. by apply filters_of_here. }
           destruct Herr as [?|(r & Hr & Hn)]; [by left|right; left].
           exists r. apply filter_lambda_None in Hn. naive_solver.
        -- destruct (Hlog x Hx) as (col & -> & (op & val & Hfo) & Hw).
           exists col. split; [done|]. split; [|done].
           exists op, val. by apply filters_of_cons.
  - intros Hfl. destruct (IH _ _ _ Hfl)
      as (Hc & Hsub & Hcompl & Hsound & Hlog).
    split; [exact Hc|]. split; [exact Hsub|]. split; [|split].
    + intros r Hr Hall. apply Hcompl; [done|].
      intros col op val Hfo. apply Hall. by apply filters_of_cons.
    + intros r col op val Hr Hfo Hne.
      apply filters_of_cons_inv in Hfo as [[Hcf Hcm]|Hfo]; [congruence|].
      by apply Hsound.
    + intros x Hx.
      destruct (Hlog x Hx) as (col & -> & (op & val & Hfo) & Hw).
      exists col. split; [done|]. split; [|done].
      exists op, val. by apply filters_of_cons.
  - intros Hfl. destruct (IH _ _ _ Hfl)
      as (Hc & Hsub & Hcompl & Hsound & Hlog).
    split; [exact Hc|]. split; [exact Hsub|]. split; [|split].
    + intros r Hr Hall. apply Hcompl; [done|].
      intros col op val Hfo. apply Hall. by apply filters_of_cons.
    + intros r col op val Hr Hfo Hne.
      apply filters_of_cons_inv in Hfo as [[Hcf Hcm]|Hfo]; [congruence|].
      by apply Hsound.
    + intros x Hx.
      destruct (Hlog x Hx) as (col & -> & (op & val & Hfo) & Hw).
      exists col. split; [done|]. split; [|done].
      exists op, val. by apply filters_of_cons.
Qed.

Lemma cell_at_restrict cols r col :
  col ∈ cols → cell_at (restrict_row cols r) col = cell_at r col.
Proof.
  intros Hc. unfold cell_at, restrict_row. cbn [cells].
  destruct (cells r !! col) as [x|] eqn:Hx.
  - by rewrite (map_lookup_filter_Some_2 _ _ _ x).
  - rewrite map_lookup_filter_None_2; [done|]. by left.
Qed.

Lemma final_cols_elem defs matched h :
  h ∈ final_cols defs matched ↔
  ∃ c, c ∈ defs ∧ matched !! column_name c = Some h.
Proof. unfold final_cols. by rewrite list_elem_of_omap. Qed.

Lemma final_cols_Forall defs matched df :
  (∀ k col, matched !! k = Some col → col ∈ columns df) →
  Forall (λ c, c ∈ columns df) (final_cols defs matched).
Proof.
  intros Hm. apply Forall_forall. intros h Hh.
  apply final_cols_elem in Hh as (c & _ & Hh). eauto.
Qed.

Lemma filters_of_final_cols defs matched col op val :
  filters_of defs matched col op val → col ∈ final_cols defs matched.
Proof. intros (cd & ? & _ & ?). apply final_cols_elem. eauto. Qed.

Lemma apply_filters_with_inv defs df matched out log :
  apply_filters_with defs df matched = (out, log) →
  ∃ fdf,
    filter_loop defs matched df = (fdf, log) ∧
    ((Forall (λ c, c ∈ columns fdf) (final_cols defs matched) ∧
      out = Some {| columns := final_cols defs matched;
                    dtypes := filter (λ kv, kv.1 ∈ final_cols defs matched)
                                (dtypes fdf);
                    rows := restrict_row (final_cols defs matched)
                              <$> rows fdf |})
     ∨ (¬ Forall (λ c, c ∈ columns fdf) (final_cols defs matched) ∧
        out = None)).
Proof.
  unfold apply_filters_with.
  destruct (filter_loop defs matched df) as [fdf log'] eqn:Hfl.
  intros [= <- <-]. exists fdf. split; [done|].
  unfold select_columns. case_decide; auto.
Qed.

(** What a run of [apply_filters] that returns has done. *)
Lemma apply_filters_with_spec defs df matched out log :
  apply_filters_with defs df matched = (Some out, log) →
  columns out = final_cols defs matched ∧
  (∃ kept, kept `sublist_of` rows df ∧
           rows out = restrict_row (final_cols defs matched) <$> kept) ∧
  (∀ r', r' ∈ rows out →
     ∃ r, r ∈ rows df ∧ r' = restrict_row (final_cols defs matched) r ∧
          ∀ col op val, filters_of defs matched col op val →
            ErrFilter col ∉ log →
            filter_lambda op val (cell_at r col) = Some true) ∧
  (∀ r, r ∈ rows df →
     (∀ col op val, filters_of defs matched col op val →
        filter_lambda op val (cell_at r col) = Some true) →
     restrict_row (final_cols defs matched) r ∈ rows out) ∧
  (∀ x, x ∈ log → ∃ col r, x = ErrFilter col ∧ r ∈ rows df ∧
     notnull (cell_at r col) = true ∧ normalize (cell_at r col) = None) ∧
  (∀ col op val, filters_of defs matched col op val → col ∈ columns df).
Proof.
  intros Hap.
  destruct (apply_filters_with_inv _ _ _ _ _ Hap)
    as (fdf & Hfl & [(Hall & Heq)|(_ & [=])]).
  injection Heq as ->.
  destruct (filter_loop_spec _ _ _ _ _ Hfl)
    as (Hc & Hsub & Hcompl & Hsound & Hlog).
  rewrite Forall_forall in Hall.
  assert (∀ col op val, filters_of defs matched col op val →
            col ∈ columns fdf ∧ col ∈ columns df) as Hcol.
  { intros col op val Hfo.
    assert (col ∈ columns fdf) as Hin
      by (by eapply Hall, filters_of_final_cols).
    split; [done|].
    destruct Hc as [[<- _]|(Hnil & _)]; [done|].
    rewrite Hnil in Hin. by apply elem_of_nil in Hin. }
  cbn [columns rows]. split; [done|]. split; [by exists (rows fdf)|].
  split; [|split; [|split]].
  - intros r' Hr'. apply list_elem_of_fmap in Hr' as (r & -> & Hr).
    exists r. split; [by eapply elem_of_sublist|]. split; [done|].
    intros col op val Hf Hne. by eapply Hsound.
  - intros r Hr Hpass. apply list_elem_of_fmap_2. by apply Hcompl.
  - intros x Hx.
    destruct (Hlog x Hx) as (col & -> & (op & val & Hfo) & Hw).
    destruct (Hcol col op val Hfo) as [Hin Hin'].
    destruct Hw as [Hw|[(r & ? & ? & ?)|Hnil]]; [done|by exists col, r|].
    rewrite Hnil in Hin. by apply elem_of_nil in Hin.
  - intros col op val Hfo. by apply (Hcol col op val).
Qed.

(** [apply_filters] returns when the map leads into the headers of the table
    and some row of the table passes every filter: the frame then never runs
    out of rows. *)
Lemma apply_filters_with_returns defs df matched r :
  Forall (λ c, c ∈ columns df) (final_cols defs matched) →
  r ∈ rows df →
  (∀ col op val, filters_of defs matched col op val →
     filter_lambda op val (cell_at r col) = Some true) →
  ∃ out log, apply_filters_with defs df matched = (Some out, log).
Proof.
  intros Hm Hr Hpass.
  destruct (apply_filters_with defs df matched) as [o log] eqn:Hap.
  destruct (apply_filters_with_inv _ _ _ _ _ Hap)
    as (fdf & Hfl & [(_ & ->)|(Hno & _)]); [by eauto|].
  destruct (filter_loop_spec _ _ _ _ _ Hfl) as (Hc & _ & Hcompl & _).
  destruct Hno. destruct Hc as [[-> _]|(_ & _ & Hrows)]; [done|].
  specialize (Hcompl r Hr Hpass). rewrite Hrows in Hcompl.
  by apply elem_of_nil in Hcompl.
Qed.

(** ** The filter as one test on a row *)

Lemma row_passes_cons d defs matched r :
  row_passes (d :: defs) matched r = true ↔
  (∀ op val col, col_filter d = Some (op, val) →
     matched !! column_name d = Some col →
     filter_lambda op val (cell_at r col) = Some true) ∧
  row_passes defs matched r = true.
Proof.
  unfold row_passes. cbn [forallb]. rewrite andb_true_iff.
  destruct (col_filter d) as [[op0 val0]|];
    [destruct (matched !! column_name d) as [col0|]|].
  - rewrite bool_decide_eq_true. split.
    + intros [H1 H2]. split; [|done]. by intros op val col [= <- <-] [= <-].
    + intros [H1 H2]. split; [|done]. by apply H1.
  - split; [intros [_ ?]; split; [intros ??? _ [=]|done] | by intros [_ ?]].
  - split; [intros [_ ?]; split; [intros ??? [=]|done] | by intros [_ ?]].
Qed.

Lemma row_passes_true defs matched r :
  row_passes defs matched r = true ↔
  ∀ col op val, filters_of defs matched col op val →
    filter_lambda op val (cell_at r col) = Some true.
Proof.
  induction defs as [|d defs IH].
  { split; [|done]. intros _ col op val (cd & Hcd & _).
    by apply elem_of_nil in Hcd. }
  rewrite row_passes_cons, IH. split.
  - intros [Hd Hrest] col op val (cd & Hcd & Hf & Hm).
    apply elem_of_cons in Hcd as [->|Hcd]; [by eapply Hd|].
    apply Hrest. by exists cd.
  - intros Hall. split.
    + intros op val col Hf Hm. apply Hall. exists d. split; [by left|done].
    + intros col op val (cd & Hcd & Hf & Hm). apply Hall.
      exists cd. split; [by right|done].
Qed.

(** ** Runs without an error *)





(** ** The validator *)

Lemma validate_cell_all_valid name col_name op thr tol st idx val :
  all_valid (validate_cell name col_name op thr tol st idx val) =
  all_valid st &&
  match validate_numeric val with
  | Some x => compare_op op x thr
  | None => true
  end.
Proof.
  unfold validate_cell. destruct (validate_numeric val) as [x|]; cbn.
  - destruct (compare_op op x thr), (py_float val) as [fv|]; cbn;
      try destruct (isclose _ _ _); cbn;
      by rewrite ?andb_true_r, ?andb_false_r.
  - by rewrite andb_true_r.
Qed.

Lemma validate_column_all_valid name col_name op thr tol df st :
  all_valid (validate_column name col_name op thr tol df st) = true ↔
  all_valid st = true ∧
  ∀ r x, r ∈ rows df → validate_numeric (cell_at r col_name) = Some x →
         compare_op op x thr = true.
Proof.
  unfold validate_column. revert st.
  induction (rows df) as [|r rs IH]; intros st; cbn [fold_left].
  { split; [intros ?; split; [done|] | by intros [? _]].
    by intros r x ?%elem_of_nil. }
  rewrite IH, validate_cell_all_valid, andb_true_iff. split.
  - intros [[Hst Hr] Hrs]. split; [done|]. intros r' x Hin Hx.
    apply elem_of_cons in Hin as [->|Hin]; [|by eapply Hrs].
    by rewrite Hx in Hr.
  - intros [Hst Hall]. split; [split; [done|]|].
    + destruct (validate_numeric (cell_at r col_name)) as [x|] eqn:Hx;
        [|done].
      apply (Hall r x); [by left|done].
    + intros r' x Hin Hx. apply (Hall r' x); [by right|done].
Qed.

Lemma validate_loop_all_valid df matched defs tol st v :
  validate_loop df matched defs tol st = Some v →
  (all_valid v = true ↔
   all_valid st = true ∧
   ∀ col op val r x, filters_of defs matched col op val → r ∈ rows df →
     validate_numeric (cell_at r col) = Some x →
     compare_op op x val = true).
Proof.
  revert st. induction defs as [|d defs IH]; intros st; cbn [validate_loop].
  { intros [= ->]. split; [intros ?; split; [done|] | by intros [? _]].
    intros col op val r x (cd & Hcd & _). by apply elem_of_nil in Hcd. }
  assert (∀ st', validate_loop df matched defs tol st' = Some v →
            (col_filter d = None ∨ matched !! column_name d = None) →
            all_valid v = true ↔
            all_valid st' = true ∧
            ∀ col op val r x,
              filters_of (d :: defs) matched col op val → r ∈ rows df →
              validate_numeric (cell_at r col) = Some x →
              compare_op op x val = true) as Hskip.
  { intros st' Hv Hno. rewrite (IH _ Hv). split.
    - intros [Hst Hall]. split; [done|].
      intros col op val r x (cd & Hcd & Hcf & Hcm).
      apply elem_of_cons in Hcd as [->|Hcd];
        [destruct Hno; congruence|].
      apply Hall. by exists cd.
    - intros [Hst Hall]. split; [done|].
      intros col op val r x (cd & Hcd & Hcf & Hcm). apply Hall.
      exists cd. split; [by right|done]. }
  destruct (col_filter d) as [[op0 val0]|] eqn:Hf; [|by auto].
  destruct (matched !! column_name d) as [col0|] eqn:Hm; [|by auto].
  case_decide as Hin; [|done]. intros Hv. rewrite (IH _ Hv).
  rewrite validate_column_all_valid. split.
  - intros [[Hst Hcol] Hall]. split; [done|].
    intros col op val r x (cd & Hcd & Hcf & Hcm).
    apply elem_of_cons in Hcd as [->|Hcd].
    + rewrite Hf in Hcf. rewrite Hm in Hcm.
      injection Hcf as <- <-. injection Hcm as <-. apply Hcol.
    + apply Hall. by exists cd.
  - intros [Hst Hall]. split; [split; [done|]|].
    + intros r x. apply Hall. exists d. split; [by left|done].
    + intros col op val r x (cd & Hcd & Hcf & Hcm). apply Hall.
      exists cd. split; [by right|done].
Qed.

(** What the validator answers: [True] exactly when no cell that parses, in
    a filtered and matched column of the frame it is given, fails the
    comparison of its column. *)
Lemma validate_filtered_rows_all_valid df matched defs tol v :
  validate_filtered_rows df matched defs tol = Some v →
  (all_valid v = true ↔
   ∀ col op val r x, filters_of defs matched col op val → r ∈ rows df →
     validate_numeric (cell_at r col) = Some x →
     compare_op op x val = true).
Proof.
  intros Hv. unfold validate_filtered_rows in Hv.
  rewrite (validate_loop_all_valid _ _ _ _ _ _ Hv). cbn [all_valid].
  split; [by intros [_ ?] | by split].
Qed.

(** The validator returns, on a frame that has the matched columns. *)
Lemma validate_loop_total df matched defs tol st :
  (∀ col op val, filters_of defs matched col op val → col ∈ columns df) →
  is_Some (validate_loop df matched defs tol st).
Proof.
  revert st. induction defs as [|d defs IH]; intros st Hall;
    cbn [validate_loop]; [by eauto|].
  assert (∀ st', is_Some (validate_loop df matched defs tol st')) as Hrec.
  { intros st'. apply IH. intros col op val (cd & Hcd & ? & ?).
    apply (Hall col op val). exists cd. split; [by right|done]. }
  destruct (col_filter d) as [[op0 val0]|] eqn:Hf; [|done].
  destruct (matched !! column_name d) as [col0|] eqn:Hm; [|done].
  rewrite decide_True; [done|]. apply (Hall col0 op0 val0).
  exists d. split; [by left|done].
Qed.

(** ** Styling *)

Lemma styled_from_elem s defs matched k d :
  (k, d) ∈ styled_from s defs matched ↔
  ∃ i, k = (s + i)%nat ∧ defs !! i = Some d ∧
       is_Some (matched !! column_name d).
Proof.
  revert s. induction defs as [|c defs IH]; intros s; cbn [styled_from].
  { split; [by intros ?%elem_of_nil | by intros (i & _ & ? & _)]. }
  destruct (matched !! column_name c) as [h|] eqn:Hc.
  - rewrite elem_of_cons, IH. split.
    + intros [[= -> ->]|(i & -> & Hi & Hm)].
      * exists 0%nat. rewrite Hc. split; [lia|]. split; [done|]. eauto.
      * exists (S i). split; [lia|]. done.
    + intros ([|i] & -> & Hi & Hm).
      * left. injection Hi as ->. f_equal. lia.
      * right. exists i. split; [lia|]. done.
  - rewrite IH. split.
    + intros (i & -> & Hi & Hm). exists (S i). split; [lia|]. done.
    + intros ([|i] & -> & Hi & Hm).
      * injection Hi as ->. rewrite Hc in Hm. by destruct Hm.
      * exists i. split; [lia|]. done.
Qed.

Lemma data_settings_all_before defs matched i d :
  defs !! i = Some d → is_Some (matched !! column_name d) →
  Forall (λ c, is_Some (matched !! column_name c)) (take i defs) →
  data_settings defs matched !! i = Some d.
Proof.
  intros Hi Hd Hall. unfold data_settings.
  rewrite <- (take_drop_middle defs i d Hi) at 1.
  rewrite filter_app, filter_cons, decide_True by done.
  rewrite (filter_Forall_id _ _ Hall).
  rewrite list_lookup_middle; [done|].
  rewrite length_take_le; [done|]. apply lookup_lt_Some in Hi. lia.
Qed.

Lemma data_settings_some_before defs matched i d :
  defs !! i = Some d → is_Some (matched !! column_name d) →
  ¬ Forall (λ c, is_Some (matched !! column_name c)) (take i defs) →
  data_settings defs matched !! i = None ∨
  ∃ j later, (i < j)%nat ∧ defs !! j = Some later ∧
             data_settings defs matched !! i = Some later.
Proof.
  intros Hi Hd Hnot.
  set (P := λ c : ColumnSettings, is_Some (matched !! column_name c)) in *.
  set (pre := filter P (take i defs)).
  set (post := filter P (drop (S i) defs)).
  assert (data_settings defs matched = pre ++ d :: post) as ->.
  { unfold data_settings. rewrite <- (take_drop_middle defs i d Hi) at 1.
    by rewrite filter_app, filter_cons, decide_True. }
  apply not_Forall_Exists in Hnot; [|apply _].
  apply Exists_exists in Hnot as (x & Hx & Hnx).
  pose proof (length_filter_lt P _ x Hx Hnx) as Hlt. fold pre in Hlt.
  assert (length (take i defs) = i) as Hlen.
  { apply length_take_le. apply lookup_lt_Some in Hi. lia. }
  rewrite Hlen in Hlt.
  rewrite lookup_app_r by lia.
  destruct (i - length pre)%nat as [|n] eqn:Hn; [lia|].
  change ((d :: post) !! S n) with (post !! n).
  destruct (post !! n) as [later|] eqn:Hl; [right|by left].
  assert (later ∈ post) as Hin by (by eapply list_elem_of_lookup_2).
  apply list_elem_of_filter in Hin as [_ Hin].
  apply list_elem_of_lookup_1 in Hin as [m Hm].
  rewrite lookup_drop in Hm.
  exists (S i + m)%nat, later. split; [lia|]. done.
Qed.

Lemma apply_styles_with_position defs matched i col_def :
  NoDup (column_name <$> defs) →
  defs !! i = Some col_def →
  is_Some (matched !! column_name col_def) →
  let all_before :=
    Forall (λ c, is_Some (matched !! column_name c)) (take i defs) in
  (∀ k, (k, col_def) ∈ apply_styles_with defs matched ↔ k = S i) ∧
  (all_before ↔ sheet_column defs matched (S i) = Some col_def) ∧
  (¬ all_before →
     sheet_column defs matched (S i) = None ∨
     ∃ j later, (i < j)%nat ∧ defs !! j = Some later ∧ later ≠ col_def ∧
                sheet_column defs matched (S i) = Some later).
Proof.
  intros Hnd Hi Hd all_before. apply NoDup_fmap_1 in Hnd.
  assert (∀ j later, (i < j)%nat → defs !! j = Some later →
                     later ≠ col_def)
    as Hother.
  { intros j later Hij Hj ->.
    pose proof (NoDup_lookup _ _ _ _ Hnd Hi Hj). lia. }
  cbn [sheet_column]. split; [|split].
  - intros k. unfold apply_styles_with. rewrite styled_from_elem. split.
    + intros (j & -> & Hj & _).
      by rewrite (NoDup_lookup _ _ _ _ Hnd Hj Hi).
    + intros ->. exists i. done.
  - split; [by apply data_settings_all_before|].
    intros Hs. destruct (decide all_before) as [|Hnot]; [done|].
    destruct (data_settings_some_before _ _ _ _ Hi Hd Hnot)
      as [Hn|(j & later & Hij & Hj & Hl)]; [congruence|].
    rewrite Hl in Hs. injection Hs as ->. by destruct (Hother j col_def).
  - intros Hnot.
    destruct (data_settings_some_before _ _ _ _ Hi Hd Hnot)
      as [Hn|(j & later & Hij & Hj & Hl)]; [by left|right].
    exists j, later. eauto.
Qed.

(** The frame of [apply_filters] holds in its [j]-th column the header
    matched to the [j]-th setting of [data_settings]. *)
Lemma final_cols_data_settings defs matched j :
  final_cols defs matched !! j =
  data_settings defs matched !! j ≫= λ c, matched !! column_name c.
Proof.
  unfold final_cols, data_settings. revert j.
  induction defs as [|c defs IH]; intros j; [done|].
  cbn [omap list_omap]. rewrite filter_cons.
  destruct (matched !! column_name c) as [h|] eqn:Hc.
  - rewrite decide_True by eauto. destruct j as [|j]; simpl; [done|].
    apply IH.
  - rewrite decide_False by (by intros [? ?]). apply IH.
Qed.

(** ** Statements of the specification *)

(** C1, at a failing input.  The years of the first row are a dash: the
    filter of the column is given up, the row with 10 years stays in the
    frame that [apply_filters] returns although 10 is not above 25, and
    [validate_filtered_rows] reports that row and answers [False]. *)
Theorem apply_filters_leaves_violating_row :
  (match_columns no_suggestion dash_df).1 = matched_no_yrs ∧
  apply_filters dash_df matched_no_yrs
    = (Some dash_df, [ErrFilter "No. Yrs"]) ∧
  row_of 1 [("No. Yrs", CInt 10)] ∈ rows dash_df ∧
  normalize (CInt 10) = Some (int_lit 10) ∧
  compare_op op_gt (int_lit 10) (int_lit 25) = false ∧
  run_frame <$> (main no_suggestion dash_df).1 = Some dash_df ∧
  run_validation <$> (main no_suggestion dash_df).1
    = Some {| all_valid := false; changed_values := ∅;
              columns_with_rounded_differences := ∅;
              printed := [SkipValidation 0 "No. Yrs";
                          RowFailed 1 "No. Yrs" (CInt 10)] |}.
Proof.
  repeat split; try (vm_compute; reflexivity).
  apply list_elem_of_further, list_elem_of_here.
Qed.

(** C2: in [main] the rounding is applied to what [apply_filters] returns.
    For every table, every row of the rounded result is the rounding of the
    projection of a row of the input whose cells, as they are in the input,
    passed every filter that ran; and every row of the input whose cells
    pass every filter is in the result, rounded.  In particular the cell
    25.0049 passes [> 25] and is shown as 25.0, a value that does not pass
    [> 25]. *)
Theorem rounding_follows_filter_decisions :
  (∀ (data_df : DataFrame) (matched : gmap string string)
     (out : DataFrame) (log : list diag),
     wf_frame data_df →
     filter_and_round data_df matched = (Some out, log) →
     ∃ filtered_df,
       apply_filters data_df matched = (Some filtered_df, log) ∧
       out = round_numeric_columns filtered_df ∧
       (∀ r', r' ∈ rows out →
          ∃ r, r ∈ rows data_df ∧
               r' = round_row (numeric_columns filtered_df)
                      (restrict_row (columns filtered_df) r) ∧
               ∀ col op val,
                 filters_of column_definitions matched col op val →
                 ErrFilter col ∉ log →
                 filter_lambda op val (cell_at r col) = Some true) ∧
       (∀ r, r ∈ rows data_df →
          (∀ col op val,
             filters_of column_definitions matched col op val →
             filter_lambda op val (cell_at r col) = Some true) →
          round_row (numeric_columns filtered_df)
            (restrict_row (columns filtered_df) r) ∈ rows out))
  ∧ (filter_lambda op_gt (int_lit 25) (CFloat (float_lit "25.0049"))
       = Some true
     ∧ filter_and_round df_25_0049 matched_no_yrs
       = (Some (frame_of [("No. Yrs", Float64)]
                  [row_of 0 [("No. Yrs", CFloat (float_lit "25.0"))]]), [])
     ∧ filter_lambda op_gt (int_lit 25) (CFloat (float_lit "25.0"))
       = Some false).
Proof.
  split.
  - intros data_df matched out log _ Hfr. unfold filter_and_round in Hfr.
    destruct (apply_filters data_df matched) as [o log'] eqn:Hap.
    destruct o as [filtered_df|]; [|discriminate Hfr].
    injection Hfr as <- <-. exists filtered_df. split; [done|].
    split; [done|].
    destruct (apply_filters_with_spec _ _ _ _ _ Hap)
      as (Hcols & _ & Hrows & Hcompl & _).
    rewrite Hcols. cbn [round_numeric_columns rows].
    split.
    + intros r' Hr'. apply list_elem_of_fmap in Hr' as (r1 & -> & Hr1).
      destruct (Hrows r1 Hr1) as (r & Hr & -> & Hpass). by exists r.
    + intros r Hr Hpass. apply list_elem_of_fmap_2. by apply Hcompl.
  - repeat split; vm_compute; reflexivity.
Qed.

Lemma rounding_follows_filter_decisions_witness :
  wf_frame df_25_0049 ∧
  ∃ filtered_df,
    apply_filters df_25_0049 matched_no_yrs = (Some filtered_df, []) ∧
    round_numeric_columns filtered_df
      = frame_of [("No. Yrs", Float64)]
          [row_of 0 [("No. Yrs", CFloat (float_lit "25.0"))]].
Proof.
  assert (wf_frame df_25_0049) as Hwf.
  { apply (bool_decide_unpack _). vm_compute. exact I. }
  split; [exact Hwf|].
  destruct (proj1 rounding_follows_filter_decisions df_25_0049 matched_no_yrs
              (frame_of [("No. Yrs", Float64)]
                 [row_of 0 [("No. Yrs", CFloat (float_lit "25.0"))]]) [] Hwf)
    as (filtered_df & Hap & Heq & _).
  { vm_compute. reflexivity. }
  exists filtered_df. split; [exact Hap|]. symmetry. exact Heq.
Defined.

(** C3, as stated, fails: the row whose years are null is dropped, as the
    claim says, but nothing is reported for it.  The guard of the lambda
    answers [False] for a null cell without a message, by design. *)
Lemma null_row_dropped_without_report :
  notnull (CFloat S754_nan) = false ∧
  row_of 3 [("No. Yrs", CFloat S754_nan)] ∈ rows scenario_null_df ∧
  apply_filters scenario_null_df matched_no_yrs
    = (Some (frame_of [("No. Yrs", Object)]
               [row_of 0 [("No. Yrs", CInt 30)]]), []).
Proof.
  split; [reflexivity|]. split; [|vm_compute; reflexivity].
  apply (list_elem_of_lookup_2 _ 3). reflexivity.
Qed.

(** C3 (amended): on a map into the headers of the table, [apply_filters]
    returns whenever some row of the table passes every filter.  Whenever it
    returns, for every filtered, matched column whose filter ran to its end
    (no error printed for the column), every row of the result has in that
    column a cell that is not null, parses and satisfies the comparison: the
    rows with a null cell there are dropped.  Nothing is printed for a
    dropped row: an error is printed only for a column in which some cell
    that is not null fails to parse, and the columns after it are filtered
    all the same. *)
Theorem apply_filters_drops_null_rows
    (data_df : DataFrame) (matched : gmap string string) :
  wf_frame data_df →
  (∀ k col, matched !! k = Some col → col ∈ columns data_df) →
  ((∃ r, r ∈ rows data_df ∧
         row_passes column_definitions matched r = true) →
   ∃ out log, apply_filters data_df matched = (Some out, log)) ∧
  ∀ out log,
    apply_filters data_df matched = (Some out, log) →
    (∀ col op val r,
       filters_of column_definitions matched col op val →
       ErrFilter col ∉ log → r ∈ rows out →
       notnull (cell_at r col) = true ∧
       ∃ v, normalize (cell_at r col) = Some v ∧ compare_op op v val = true) ∧
    (∀ x, x ∈ log →
       ∃ col r, x = ErrFilter col ∧ r ∈ rows data_df ∧
                notnull (cell_at r col) = true ∧
                normalize (cell_at r col) = None).
Proof.
  intros Hwf Hm. unfold apply_filters. split.
  - intros (r & Hr & Hpass).
    apply (apply_filters_with_returns _ _ _ r); [|done|].
    + by apply final_cols_Forall.
    + by apply row_passes_true.
  - intros out log Hap.
    destruct (apply_filters_with_spec _ _ _ _ _ Hap)
      as (Hcols & _ & Hrows & _ & Hlog & _).
    split; [|done].
    intros col op val r' Hf Hne Hr'.
    destruct (Hrows r' Hr') as (r & Hr & -> & Hpass).
    rewrite cell_at_restrict.
    + apply filter_lambda_Some_true. by apply Hpass.
    + by eapply filters_of_final_cols.
Qed.

Lemma apply_filters_drops_null_rows_witness :
  let out := frame_of [("No. Yrs", Object)]
               [row_of 0 [("No. Yrs", CInt 30)]] in
  apply_filters scenario_null_df matched_no_yrs = (Some out, []) ∧
  ∀ r, r ∈ rows out → notnull (cell_at r "No. Yrs") = true.
Proof.
  intros out.
  assert (apply_filters scenario_null_df matched_no_yrs = (Some out, []))
    as Hap by (vm_compute; reflexivity).
  split; [exact Hap|].
  destruct (apply_filters_drops_null_rows scenario_null_df matched_no_yrs)
    as [_ Hspec].
  { apply (bool_decide_unpack _). vm_compute. exact I. }
  { intros k col Hk. unfold matched_no_yrs in Hk.
    apply lookup_singleton_Some in Hk as [_ <-].
    apply list_elem_of_here. }
  destruct (Hspec out [] Hap) as [Hrows _].
  intros r Hr.
  apply (Hrows "No. Yrs" op_gt (int_lit 25) r); [| |exact Hr].
  - eexists. split; [apply (list_elem_of_lookup_2 column_definitions 4);
                     reflexivity|].
    split; reflexivity.
  - apply not_elem_of_nil.
Defined.

(** C4: the scenario, on the column as the program receives it.  The text
    [N/A] of a sheet is read as NaN, so the last row is null: the guard of
    the lambda drops it, 25 and 10 fail the strict comparison, only the row
    with 30 is in the result and in the frame that is saved, and
    [validate_filtered_rows] answers [True], prints no failed row and
    records no changed value and no column with rounded differences.  That
    holds for the column of dtype float that [read_excel] builds, and for
    the same cells as [int] in a column of dtype object. *)
Theorem scenario_retains_only_30 :
  ((match_columns no_suggestion scenario_read_df).1 = matched_no_yrs ∧
   apply_filters scenario_read_df matched_no_yrs
     = (Some (frame_of [("No. Yrs", Float64)]
                [row_of 0 [("No. Yrs", CFloat (float_lit "30.0"))]]), []) ∧
   run_frame <$> (main no_suggestion scenario_read_df).1
     = Some (frame_of [("No. Yrs", Float64)]
               [row_of 0 [("No. Yrs", CFloat (float_lit "30.0"))]]) ∧
   run_validation <$> (main no_suggestion scenario_read_df).1
     = Some {| all_valid := true; changed_values := ∅;
               columns_with_rounded_differences := ∅; printed := [] |}) ∧
  ((match_columns no_suggestion scenario_null_df).1 = matched_no_yrs ∧
   apply_filters scenario_null_df matched_no_yrs
     = (Some (frame_of [("No. Yrs", Object)]
                [row_of 0 [("No. Yrs", CInt 30)]]), []) ∧
   run_frame <$> (main no_suggestion scenario_null_df).1
     = Some (frame_of [("No. Yrs", Object)]
               [row_of 0 [("No. Yrs", CInt 30)]]) ∧
   run_validation <$> (main no_suggestion scenario_null_df).1
     = Some {| all_valid := true; changed_values := ∅;
               columns_with_rounded_differences := ∅; printed := [] |}).
Proof. repeat split; vm_compute; reflexivity. Qed.

(** C5, at a failing input.  The cell 30.0049 is rounded to 30.0, which
    differs from it by more than the tolerance; [validate_filtered_rows]
    gets the rounded frame only, compares the rounded cell with the number
    parsed from the same rounded cell, and records no changed value and no
    column. *)
Theorem validation_misses_rounding_difference :
  normalize (CFloat (float_lit "30.0049")) = Some (float_lit "30.0049") ∧
  round2 (float_lit "30.0049") = float_lit "30.0" ∧
  isclose (float_lit "30.0") (float_lit "30.0049") default_tolerance = false ∧
  run_frame <$> (main no_suggestion df_30_0049).1
    = Some (frame_of [("No. Yrs", Float64)]
              [row_of 0 [("No. Yrs", CFloat (float_lit "30.0"))]]) ∧
  run_validation <$> (main no_suggestion df_30_0049).1
    = Some {| all_valid := true; changed_values := ∅;
              columns_with_rounded_differences := ∅; printed := [] |}.
Proof. repeat split; vm_compute; reflexivity. Qed.

(** C6: for every header list and every setting of the configuration,
    [match_columns] maps the setting to the first header, in the order of the
    table, that contains its name as a substring when both are lowered, and
    prints no warning for it; when no header contains the name the setting
    has no entry in the map and the warning carrying the suggestion of
    [get_close_matches] is printed: the suggestion is never entered in the
    map, whatever it is. *)
Theorem match_columns_first_containing_header
    (gcm : string → list string → list string) (data_df : DataFrame)
    (col_def : ColumnSettings) :
  col_def ∈ column_definitions →
  let name := column_name col_def in
  let contains := λ c, str_contains (lower name) (lower c) = true in
  let matched := (match_columns gcm data_df).1 in
  let log := (match_columns gcm data_df).2 in
  (∃ pre h post,
      columns data_df = pre ++ h :: post ∧ contains h ∧
      Forall (λ c, ¬ contains c) pre ∧
      matched !! name = Some h ∧
      ∀ suggestion, WarnNotFound name suggestion ∉ log)
  ∨ (Forall (λ c, ¬ contains c) (columns data_df) ∧
     matched !! name = None ∧
     WarnNotFound name (gcm name (columns data_df)) ∈ log).
Proof.
  intros Hin name contains matched log.
  assert (name ∈ column_name <$> column_definitions) as Hname.
  { by apply list_elem_of_fmap_2. }
  assert (matched !! name =
            match matches_of (columns data_df) name with
            | c :: _ => Some c
            | [] => None
            end) as Hlook.
  { unfold matched, match_columns, match_columns_with.
    rewrite match_loop_lookup, lookup_empty. by rewrite decide_True. }
  destruct (matches_of (columns data_df) name) as [|h t] eqn:Hm.
  - right. split; [by apply filter_nil_Forall in Hm|]. split; [done|].
    unfold log, match_columns, match_columns_with.
    apply match_loop_log. done.
  - left. unfold matches_of in Hm.
    apply filter_head_split in Hm as (pre & post & Heq & Hh & Hpre).
    exists pre, h, post. repeat split; try done.
    intros suggestion Hw. unfold log, match_columns, match_columns_with in Hw.
    apply match_loop_log in Hw as (_ & Hnil & _).
    unfold matches_of in Hnil. rewrite Heq, filter_app, filter_cons in Hnil.
    rewrite decide_True in Hnil by done.
    by apply app_eq_nil in Hnil as [_ ?].
Qed.

Lemma match_columns_first_containing_header_witness :
  let matched := (match_columns no_suggestion scenario_df).1 in
  matched !! "No. Yrs" = Some "No. Yrs" ∧ matched !! "Price" = None.
Proof.
  split.
  - destruct (match_columns_first_containing_header no_suggestion scenario_df
                {| column_name := "No. Yrs";
                   col_filter := Some (op_gt, int_lit 25);
                   style := Some bold_style; conditional_style := None |})
      as [(pre & h & post & Heq & Hh & Hpre & Hm & _)|(Hnone & _)].
    + apply (list_elem_of_lookup_2 column_definitions 4). reflexivity.
    + destruct pre as [|p pre]; [|destruct pre; discriminate Heq].
      injection Heq as <- _. exact Hm.
    + apply Forall_inv in Hnone. exfalso. apply Hnone.
      vm_compute. reflexivity.
  - destruct (match_columns_first_containing_header no_suggestion scenario_df
                {| column_name := "Price"; col_filter := None;
                   style := Some (font BLUE_COLOR);
                   conditional_style := None |})
      as [(pre & h & post & Heq & Hh & Hpre & Hm & _)|(_ & Hm & _)].
    + apply (list_elem_of_lookup_2 column_definitions 5). reflexivity.
    + destruct pre as [|p pre]; [|destruct pre; discriminate Heq].
      injection Heq as <- _. vm_compute in Hh. discriminate Hh.
    + exact Hm.
Defined.

(** C7, as stated, fails: a NaN cell is a null cell, and the text [nan] it is
    turned into parses, so that it normalizes without any failure, at the
    call site of the validation, where no guard stands before the parse. *)
Lemma nan_cell_normalizes_without_failure :
  notnull (CFloat S754_nan) = false ∧
  validate_numeric (CFloat S754_nan) = Some S754_nan.
Proof. split; vm_compute; reflexivity. Qed.

(** C7 (amended): the normalizer turns the cell into text, removes the
    characters [%] and [,] and parses what is left as a float.  The text
    [1,234.50%] gives the float 1234.5; an empty text and a [None] cell fail
    to normalize; a NaN cell gives NaN, which satisfies no comparison but
    [!=]; a null cell, as an empty text, is never read as zero, and the
    filter takes a null cell as not satisfying its predicate, before any
    parse.  The two call sites compute the same function: on a cell that is
    not null the lambda of the filter is the comparison of what the
    validation computes. *)
Theorem normalizer_at_both_call_sites :
  (normalize (CStr "1,234.50%")
     = Some (S754_finite false 5429388417957888 (-42))
   ∧ 5429388417957888 * 10 = 12345 * 2 ^ 42)
  ∧ normalize (CStr "") = None
  ∧ normalize CNone = None
  ∧ normalize (CFloat S754_nan) = Some S754_nan
  ∧ (∀ op val, op ≠ op_ne → compare_op op S754_nan val = false)
  ∧ (∀ x s, notnull x = false ∨ x = CStr "" →
            normalize x ≠ Some (S754_zero s))
  ∧ (∀ x op val, notnull x = false → filter_lambda op val x = Some false)
  ∧ (∀ x, validate_numeric x = normalize x)
  ∧ (∀ x op val, notnull x = true →
       filter_lambda op val x
       = (λ v, compare_op op v val) <$> validate_numeric x).
Proof.
  split; [split; vm_compute; reflexivity|].
  split; [vm_compute; reflexivity|].
  split; [vm_compute; reflexivity|].
  split; [vm_compute; reflexivity|].
  split; [intros op val Hop; by destruct op, val|].
  split.
  { intros x s [Hx| ->]; [|vm_compute; discriminate].
    apply notnull_false in Hx as [-> | ->]; vm_compute; discriminate. }
  split; [intros x op val Hx; unfold filter_lambda; by rewrite Hx|].
  split; [intros x; reflexivity|].
  intros x op val Hx. change (validate_numeric x) with (normalize x).
  unfold filter_lambda. rewrite Hx. by destruct (normalize x).
Qed.

Lemma normalizer_at_both_call_sites_witness :
  filter_lambda op_gt (int_lit 25) (CFloat S754_nan) = Some false ∧
  filter_lambda op_gt (int_lit 25) (CStr "1,234.50%") = Some true.
Proof.
  destruct normalizer_at_both_call_sites
    as (_ & _ & _ & _ & _ & _ & Hnull & _ & Hsame).
  split.
  - apply Hnull. reflexivity.
  - rewrite Hsame by reflexivity. vm_compute. reflexivity.
Defined.

(** C8: for every well-formed input table, whenever [apply_filters] run
    with the map of [match_columns] returns a frame, the columns of the frame
    are the matched headers of the settings, in the order the settings are
    declared: a header is a column of the result exactly when some setting
    is matched to it, and every row of the result holds a cell for exactly
    these columns.  It does return when some row of the table passes every
    filter. *)
Theorem apply_filters_columns_in_declaration_order
    (gcm : string → list string → list string) (data_df : DataFrame) :
  wf_frame data_df →
  let matched := (match_columns gcm data_df).1 in
  ((∃ r, r ∈ rows data_df ∧
         row_passes column_definitions matched r = true) →
   ∃ out log, apply_filters data_df matched = (Some out, log)) ∧
  ∀ out log,
    apply_filters data_df matched = (Some out, log) →
    columns out = omap (λ c, matched !! column_name c) column_definitions ∧
    (∀ h, h ∈ columns out ↔
          ∃ c, c ∈ column_definitions ∧ matched !! column_name c = Some h) ∧
    (∀ r h, r ∈ rows out → is_Some (cells r !! h) ↔ h ∈ columns out).
Proof.
  intros Hwf matched.
  assert (∀ k col, matched !! k = Some col → col ∈ columns data_df) as Hm.
  { intros k col. apply match_columns_with_in_columns. }
  unfold apply_filters. split.
  - intros (r & Hr & Hpass).
    apply (apply_filters_with_returns _ _ _ r); [|done|].
    + by apply final_cols_Forall.
    + by apply row_passes_true.
  - intros out log Hap.
    destruct (apply_filters_with_spec _ _ _ _ _ Hap)
      as (Hcols & _ & Hrows & _).
    split; [done|]. split.
    + intros h. rewrite Hcols. apply final_cols_elem.
    + intros r' h Hr'. destruct (Hrows r' Hr') as (r & Hr & -> & _).
      rewrite Hcols. unfold restrict_row. cbn [cells]. split.
      * intros [x Hx]. by apply map_lookup_filter_Some in Hx as [_ ?].
      * intros Hh. destruct Hwf as [_ Hall].
        rewrite Forall_forall in Hall. specialize (Hall r Hr).
        rewrite Forall_forall in Hall.
        assert (h ∈ columns data_df) as Hin.
        { apply final_cols_elem in Hh as (c & _ & Hc). by eapply Hm. }
        destruct (Hall h Hin) as [x Hx]. exists x.
        by apply map_lookup_filter_Some_2.
Qed.

Lemma apply_filters_columns_in_declaration_order_witness :
  ∃ out log,
    apply_filters scenario_read_df
      (match_columns no_suggestion scenario_read_df).1 = (Some out, log) ∧
    columns out = ["No. Yrs"].
Proof.
  destruct (apply_filters_columns_in_declaration_order
              no_suggestion scenario_read_df) as [Hret Hspec].
  { apply (bool_decide_unpack _). vm_compute. exact I. }
  destruct Hret as (out & log & Hap).
  { exists (row_of 0 [("No. Yrs", CFloat (float_lit "30.0"))]).
    split; [apply list_elem_of_here|vm_compute; reflexivity]. }
  exists out, log. split; [exact Hap|].
  destruct (Hspec out log Hap) as (-> & _). vm_compute. reflexivity.
Defined.

(** C9, at a failing input.  In the first run the dash of row 0 makes the
    filter of [No. Yrs] give up, and the filter of [Div. Yield] then drops
    row 0; run again on its own result, the filter of [No. Yrs] finds no
    dash any more and drops row 1: the result of the first run is not a
    fixed point. *)
Theorem apply_filters_not_idempotent :
  let first :=
    frame_of [("No. Yrs", Object); ("Div. Yield", Float64)]
      [row_of 1 [("No. Yrs", CInt 5);
                 ("Div. Yield", CFloat (float_lit "3.0"))];
       row_of 2 [("No. Yrs", CInt 30);
                 ("Div. Yield", CFloat (float_lit "3.0"))]] in
  let second :=
    frame_of [("No. Yrs", Object); ("Div. Yield", Float64)]
      [row_of 2 [("No. Yrs", CInt 30);
                 ("Div. Yield", CFloat (float_lit "3.0"))]] in
  apply_filters two_columns_df matched_two_columns
    = (Some first, [ErrFilter "No. Yrs"]) ∧
  apply_filters first matched_two_columns = (Some second, []) ∧
  second ≠ first.
Proof.
  repeat split; try (vm_compute; reflexivity).
  intros Heq. apply (f_equal (λ d, length (rows d))) in Heq.
  vm_compute in Heq. discriminate Heq.
Qed.

(** C10, as stated, fails: when only the first setting is unmatched the
    frame has 16 columns, and the styles of the last setting go to sheet
    column 17, which holds the data of no setting at all. *)
Lemma last_style_lands_on_empty_column :
  matched_all_but_first !! "Company Name" = None ∧
  length (final_cols column_definitions matched_all_but_first) = 16%nat ∧
  (∃ col_def, column_definitions !! 16%nat = Some col_def ∧
              column_name col_def = "Debt/ Equity" ∧
              is_Some (matched_all_but_first !! column_name col_def) ∧
              (17%nat, col_def) ∈ apply_styles matched_all_but_first) ∧
  sheet_column column_definitions matched_all_but_first 17 = None.
Proof.
  split; [vm_compute; reflexivity|]. split; [vm_compute; reflexivity|].
  split; [|vm_compute; reflexivity].
  eexists. split; [reflexivity|]. split; [reflexivity|].
  split; [vm_compute; eauto|].
  unfold apply_styles, apply_styles_with. apply styled_from_elem.
  exists 16%nat. split; [reflexivity|]. split; [reflexivity|].
  vm_compute. eauto.
Qed.

(** C10 (amended): [apply_styles] gives the styles of a matched setting to
    the sheet column whose number is the position of the setting in the
    whole of [column_definitions], counted from 1, and to no other column.
    That column holds the data of the setting exactly when every setting
    declared before it is matched.  When some setting before it is not
    matched, the column holds the data of a setting declared later, or it
    lies after the last column of the sheet and holds no data. *)
Theorem apply_styles_uses_position_in_full_list
    (matched : gmap string string) (i : nat) (col_def : ColumnSettings) :
  column_definitions !! i = Some col_def →
  is_Some (matched !! column_name col_def) →
  let all_before :=
    Forall (λ c, is_Some (matched !! column_name c))
           (take i column_definitions) in
  (∀ k, (k, col_def) ∈ apply_styles matched ↔ k = S i) ∧
  (all_before ↔
   sheet_column column_definitions matched (S i) = Some col_def) ∧
  (¬ all_before →
     sheet_column column_definitions matched (S i) = None ∨
     ∃ j later, (i < j)%nat ∧ column_definitions !! j = Some later ∧
                later ≠ col_def ∧
                sheet_column column_definitions matched (S i) = Some later).
Proof.
  intros Hi Hd. apply apply_styles_with_position; [|done|done].
  apply (bool_decide_unpack _). vm_compute. exact I.
Qed.

Lemma apply_styles_uses_position_in_full_list_witness :
  ∃ col_def later,
    column_definitions !! 4%nat = Some col_def ∧
    (5%nat, col_def) ∈ apply_styles matched_all_but_first ∧
    column_definitions !! 5%nat = Some later ∧
    sheet_column column_definitions matched_all_but_first 5 = Some later.
Proof.
  destruct (column_definitions !! 4%nat) as [col_def|] eqn:Hi;
    [|discriminate Hi].
  destruct (apply_styles_uses_position_in_full_list
              matched_all_but_first 4 col_def Hi) as (Hk & _ & _).
  { vm_compute in Hi. injection Hi as <-. vm_compute. eauto. }
  eexists col_def, _. split; [reflexivity|]. split; [by apply Hk|].
  split; vm_compute; reflexivity.
Defined.

(** * Further properties of the code *)

(** ** Filtering data that parses *)

Lemma filter_loop_parseable defs matched df r0 :
  parseable_columns defs matched df →
  r0 ∈ rows df → row_passes defs matched r0 = true →
  filter_loop defs matched df =
    ({| columns := columns df; dtypes := dtypes df;
        rows := filter (λ r, row_passes defs matched r = true) (rows df) |},
     []).
Proof.
  revert df. induction defs as [|d defs IH]; intros df Hp Hr0 Hpass.
  { cbn [filter_loop]. rewrite filter_Forall_id; [by destruct df|].
    by apply Forall_forall. }
  assert (parseable_columns defs matched df) as Hp'.
  { intros col op val Hfo. apply (Hp col op val). by apply filters_of_cons. }
  apply row_passes_cons in Hpass as [Hd Hpass'].
  cbn [filter_loop].
  destruct (col_filter d) as [[op0 val0]|] eqn:Hf;
    [destruct (matched !! column_name d) as [col0|] eqn:Hm|].
  - destruct (Hp col0 op0 val0) as [Hc Hrows].
    { by apply filters_of_here. }
    destruct (filter_column df col0 op0 val0) as [df1 log1] eqn:Hfc.
    apply filter_column_inv in Hfc
      as [(-> & _ & _ & ->)|[(_ & _ & Hemp & _)|(_ & _ & [?|Hbad])]];
      [| |done|].
    + rewrite (IH _); cbn [columns dtypes rows].
      * rewrite list_filter_filter. do 2 f_equal.
        apply list_filter_iff. intros r. rewrite row_passes_cons.
        rewrite Hf, Hm. split.
        -- intros [? ?]. split; [|done]. by intros op val col [= <- <-] [= <-].
        -- intros [H1 ?]. split; [done|]. by apply H1.
      * intros col op val Hfo. destruct (Hp' col op val Hfo) as [? Hall].
        split; [done|]. cbn [rows]. apply Forall_forall. intros r Hr.
        apply list_elem_of_filter in Hr as [_ Hr].
        rewrite Forall_forall in Hall. by apply Hall.
      * apply list_elem_of_filter. split; [by eapply Hd|done].
      * exact Hpass'.
    + rewrite Hemp in Hr0. by apply elem_of_nil in Hr0.
    + destruct Hbad as (r & Hr & Hn). apply filter_lambda_None in Hn as [? Hn].
      rewrite Forall_forall in Hrows. destruct (Hrows r Hr) as [v Hv]; [done|].
      congruence.
  - rewrite (IH _ Hp' Hr0 Hpass'). do 2 f_equal. apply list_filter_iff.
    intros r.
    rewrite row_passes_cons, Hf, Hm. split; [by intros ?; split|by intros [_ ?]].
  - rewrite (IH _ Hp' Hr0 Hpass'). do 2 f_equal. apply list_filter_iff.
    intros r.
    rewrite row_passes_cons, Hf. split; [by intros ?; split|by intros [_ ?]].
Qed.

Lemma parseable_columns_perm defs defs' matched df :
  defs ≡ₚ defs' → parseable_columns defs matched df →
  parseable_columns defs' matched df.
Proof.
  intros Hperm Hp col op val (cd & Hcd & ? & ?). apply (Hp col op val).
  exists cd. split; [by rewrite Hperm|done].
Qed.

Lemma restrict_row_perm cols cols' r :
  cols ≡ₚ cols' → restrict_row cols r = restrict_row cols' r.
Proof.
  intros Hperm. unfold restrict_row. f_equal.
  apply map_filter_ext. intros i x _. cbn. by rewrite Hperm.
Qed.

Lemma parseable_columnsb_true defs matched df :
  parseable_columnsb defs matched df = true →
  parseable_columns defs matched df.
Proof.
  unfold parseable_columnsb. rewrite forallb_forall.
  intros Hall col op val (d & Hd & Hf & Hm).
  apply list_elem_of_In in Hd. specialize (Hall d Hd).
  rewrite Hf, Hm in Hall. apply andb_true_iff in Hall as [Hc Hrows].
  split; [by apply bool_decide_eq_true in Hc|].
  apply Forall_forall. intros r Hr Hn. rewrite forallb_forall in Hrows.
  apply list_elem_of_In in Hr. specialize (Hrows r Hr). rewrite Hn in Hrows.
  by apply bool_decide_eq_true in Hrows.
Qed.

(** X1: on a table whose filtered columns hold only cells that are null or
    parse, and of which some row passes every filter, [apply_filters] prints
    nothing and is the conjunction of the predicates: its rows are, in the
    order of the table, the projections of the rows that are not null in,
    and satisfy the comparison of, every filtered and matched column. *)
Theorem apply_filters_on_parseable_data
    (data_df : DataFrame) (matched : gmap string string) :
  wf_frame data_df →
  parseable_columns column_definitions matched data_df →
  Forall (λ c, c ∈ columns data_df) (final_cols column_definitions matched) →
  (∃ r, r ∈ rows data_df ∧
        row_passes column_definitions matched r = true) →
  let cols := final_cols column_definitions matched in
  let keep := λ r : Row,
    ∀ col op val, filters_of column_definitions matched col op val →
      notnull (cell_at r col) = true ∧
      ∃ v, normalize (cell_at r col) = Some v ∧ compare_op op v val = true in
  ∃ out kept,
    apply_filters data_df matched = (Some out, []) ∧
    columns out = cols ∧
    rows out = restrict_row cols <$> kept ∧
    kept `sublist_of` rows data_df ∧
    ∀ r, r ∈ kept ↔ r ∈ rows data_df ∧ keep r.
Proof.
  intros _ Hp Hcols (r0 & Hr0 & Hpass0) cols keep.
  unfold apply_filters, apply_filters_with.
  rewrite (filter_loop_parseable _ _ _ r0 Hp Hr0 Hpass0).
  unfold select_columns.
  cbn [columns dtypes rows]. rewrite decide_True by done.
  eexists _, _. split; [reflexivity|]. cbn [columns rows].
  split; [done|]. split; [done|]. split; [apply sublist_filter|].
  intros r. rewrite list_elem_of_filter, row_passes_true. unfold keep.
  split.
  - intros [Hall Hr]. split; [done|]. intros col op val Hf.
    apply filter_lambda_Some_true. by apply Hall.
  - intros [Hr Hall]. split; [|done]. intros col op val Hf.
    apply filter_lambda_Some_true. by apply Hall.
Qed.

Lemma apply_filters_on_parseable_data_witness :
  ∃ out kept,
    apply_filters three_rows_df (match_columns no_suggestion three_rows_df).1
      = (Some out, []) ∧
    kept `sublist_of` rows three_rows_df ∧
    rows out
      = restrict_row
          (final_cols column_definitions
             (match_columns no_suggestion three_rows_df).1) <$> kept.
Proof.
  destruct (apply_filters_on_parseable_data three_rows_df
              (match_columns no_suggestion three_rows_df).1)
    as (out & kept & Hap & _ & Hrows & Hsub & _).
  - apply (bool_decide_unpack _). vm_compute. exact I.
  - apply parseable_columnsb_true. vm_compute. reflexivity.
  - apply final_cols_Forall. intros k col.
    apply match_columns_with_in_columns.
  - exists (row_of 0 [("Company Name", CStr "Alpha"); ("No. Yrs", CInt 40);
                      ("Price", CFloat (float_lit "101.5"));
                      ("Div. Yield", CStr "2.50%")]).
    split; [apply list_elem_of_here|vm_compute; reflexivity].
  - exists out, kept. split; [exact Hap|]. split; [exact Hsub|exact Hrows].
Defined.

(** X2: on such a table, of which some row passes every filter, the result
    of the filter loop does not depend on the order in which the settings
    are declared: any reordering of the settings keeps the same rows, with
    the same cells, and only reorders the columns. *)
Theorem apply_filters_order_of_settings
    (defs defs' : list ColumnSettings) (data_df : DataFrame)
    (matched : gmap string string) :
  defs ≡ₚ defs' →
  wf_frame data_df →
  parseable_columns defs matched data_df →
  Forall (λ c, c ∈ columns data_df) (final_cols defs matched) →
  (∃ r, r ∈ rows data_df ∧ row_passes defs matched r = true) →
  ∃ out out',
    apply_filters_with defs data_df matched = (Some out, []) ∧
    apply_filters_with defs' data_df matched = (Some out', []) ∧
    rows out' = rows out ∧
    columns out' ≡ₚ columns out.
Proof.
  intros Hperm _ Hp Hcols (r0 & Hr0 & Hpass0).
  assert (final_cols defs' matched ≡ₚ final_cols defs matched) as Hfc.
  { unfold final_cols. by rewrite Hperm. }
  assert (row_passes defs' matched r0 = true) as Hpass0'.
  { apply row_passes_true. intros col op val (cd & Hcd & ? & ?).
    apply (proj1 (row_passes_true _ _ _) Hpass0).
    exists cd. split; [by rewrite Hperm|done]. }
  unfold apply_filters_with.
  rewrite (filter_loop_parseable _ _ _ r0 Hp Hr0 Hpass0).
  rewrite (filter_loop_parseable _ _ _ r0
             (parseable_columns_perm _ _ _ _ Hperm Hp) Hr0 Hpass0').
  unfold select_columns. cbn [columns dtypes rows].
  assert (Forall (λ c, c ∈ columns data_df) (final_cols defs' matched))
    as Hcols' by (by rewrite Hfc).
  rewrite !decide_True by done.
  eexists _, _. split; [reflexivity|]. split; [reflexivity|].
  cbn [columns rows]. split; [|done].
  rewrite (list_filter_iff (λ r, row_passes defs' matched r = true)
                           (λ r, row_passes defs matched r = true)).
  - apply list_fmap_ext. intros i r _. by apply restrict_row_perm.
  - intros r. rewrite !row_passes_true. split.
    + intros Hall col op val (cd & Hcd & ? & ?). apply Hall.
      exists cd. split; [by rewrite <- Hperm|done].
    + intros Hall col op val (cd & Hcd & ? & ?). apply Hall.
      exists cd. split; [by rewrite Hperm|done].
Qed.

Lemma apply_filters_order_of_settings_witness :
  ∃ out out',
    apply_filters_with column_definitions three_rows_df
      (match_columns no_suggestion three_rows_df).1 = (Some out, []) ∧
    apply_filters_with (reverse column_definitions) three_rows_df
      (match_columns no_suggestion three_rows_df).1 = (Some out', []) ∧
    rows out' = rows out.
Proof.
  destruct (apply_filters_order_of_settings column_definitions
              (reverse column_definitions) three_rows_df
              (match_columns no_suggestion three_rows_df).1)
    as (out & out' & H1 & H2 & H3 & _).
  - symmetry. apply reverse_Permutation.
  - apply (bool_decide_unpack _). vm_compute. exact I.
  - apply parseable_columnsb_true. vm_compute. reflexivity.
  - apply final_cols_Forall. intros k col.
    apply match_columns_with_in_columns.
  - exists (row_of 0 [("Company Name", CStr "Alpha"); ("No. Yrs", CInt 40);
                      ("Price", CFloat (float_lit "101.5"));
                      ("Div. Yield", CStr "2.50%")]).
    split; [apply list_elem_of_here|vm_compute; reflexivity].
  - exists out, out'. split; [exact H1|]. split; [exact H2|exact H3].
Defined.

Lemma apply_filters_with_sound defs df matched out log :
  apply_filters_with defs df matched = (Some out, log) →
  columns out = final_cols defs matched ∧
  (∃ kept, kept `sublist_of` rows df ∧
           rows out = restrict_row (final_cols defs matched) <$> kept) ∧
  ∀ r', r' ∈ rows out →
    ∃ r, r ∈ rows df ∧ r' = restrict_row (final_cols defs matched) r ∧
         ∀ col op val, filters_of defs matched col op val →
           ErrFilter col ∉ log →
           filter_lambda op val (cell_at r col) = Some true.
Proof.
  intros Hap.
  destruct (apply_filters_with_spec _ _ _ _ _ Hap) as (H1 & H2 & H3 & _).
  done.
Qed.

Lemma restrict_row_lookup cols r c :
  cells (restrict_row cols r) !! c =
    if decide (c ∈ cols) then cells r !! c else None.
Proof.
  unfold restrict_row. cbn [cells]. rewrite map_lookup_filter.
  destruct (cells r !! c) as [x|]; cbn.
  - case_decide; [by rewrite option_guard_True|by rewrite option_guard_False].
  - by case_decide.
Qed.

Lemma restrict_row_labels cols (rs : list Row) :
  label <$> (restrict_row cols <$> rs) = label <$> rs.
Proof. rewrite <- list_fmap_compose. by apply list_fmap_ext. Qed.



(** X4: whatever is printed, [apply_filters] neither reorders, repeats nor
    alters rows: the rows of its result are rows of the table, in the order
    of the table, each cut down to the columns of the result, where it has
    the cells it has in the table. *)
Theorem apply_filters_keeps_order_and_cells
    (data_df out : DataFrame) (matched : gmap string string)
    (log : list diag) :
  wf_frame data_df →
  apply_filters data_df matched = (Some out, log) →
  ∃ kept,
    kept `sublist_of` rows data_df ∧
    rows out = restrict_row (columns out) <$> kept ∧
    (label <$> rows out) `sublist_of` (label <$> rows data_df) ∧
    ∀ r c, cells (restrict_row (columns out) r) !! c =
           if decide (c ∈ columns out) then cells r !! c else None.
Proof.
  intros _. unfold apply_filters. intros Hap.
  destruct (apply_filters_with_sound _ _ _ _ _ Hap)
    as (Hcols & (kept & Hsub & Hrows) & _).
  rewrite <- Hcols in Hrows.
  exists kept. split; [exact Hsub|]. split; [exact Hrows|]. split.
  - rewrite Hrows, restrict_row_labels. by apply fmap_sublist.
  - intros r c. apply restrict_row_lookup.
Qed.

Lemma apply_filters_keeps_order_and_cells_witness :
  let out :=
    frame_of [("No. Yrs", Object); ("Div. Yield", Float64)]
      [row_of 1 [("No. Yrs", CInt 5);
                 ("Div. Yield", CFloat (float_lit "3.0"))];
       row_of 2 [("No. Yrs", CInt 30);
                 ("Div. Yield", CFloat (float_lit "3.0"))]] in
  apply_filters two_columns_df matched_two_columns
    = (Some out, [ErrFilter "No. Yrs"]) ∧
  ∃ kept, kept `sublist_of` rows two_columns_df ∧
          rows out = restrict_row (columns out) <$> kept.
Proof.
  intros out.
  assert (apply_filters two_columns_df matched_two_columns
            = (Some out, [ErrFilter "No. Yrs"])) as Hap
    by (vm_compute; reflexivity).
  split; [exact Hap|].
  destruct (apply_filters_keeps_order_and_cells two_columns_df out
              matched_two_columns [ErrFilter "No. Yrs"])
    as (kept & Hsub & Hrows & _).
  - apply (bool_decide_unpack _). vm_compute. exact I.
  - exact Hap.
  - exists kept. split; [exact Hsub|exact Hrows].
Defined.

(** ** When the rows run out *)

Lemma filter_loop_app pre post matched df :
  filter_loop (pre ++ post) matched df =
    let '(df1, log1) := filter_loop pre matched df in
    let '(df2, log2) := filter_loop post matched df1 in
    (df2, log1 ++ log2).
Proof.
  revert df. induction pre as [|d pre IH]; intros df.
  { cbn [app filter_loop]. by destruct (filter_loop post matched df). }
  cbn [app filter_loop].
  destruct (col_filter d) as [[op0 val0]|];
    [destruct (matched !! column_name d) as [col0|]|]; [|apply IH..].
  destruct (filter_column df col0 op0 val0) as [df0 log0].
  rewrite IH.
  destruct (filter_loop pre matched df0) as [df1 log1].
  destruct (filter_loop post matched df1) as [df2 log2].
  by rewrite app_assoc.
Qed.

Lemma filter_loop_no_rows defs matched df df' log :
  rows df = [] →
  filter_loop defs matched df = (df', log) →
  (columns df = [] ∨
   ∃ col op val, filters_of defs matched col op val ∧ col ∈ columns df) →
  columns df' = [].
Proof.
  intros Hrows Hfl [Hnil|Hex].
  { destruct (filter_loop_spec _ _ _ _ _ Hfl) as ([[-> _]|(? & _)] & _);
      done. }
  revert df df' log Hrows Hfl Hex.
  induction defs as [|d defs IH];
    intros df df' log Hrows Hfl (col & op & val & Hfo & Hcol).
  { destruct Hfo as (cd & Hcd & _). by apply elem_of_nil in Hcd. }
  cbn [filter_loop] in Hfl.
  destruct (col_filter d) as [[op0 val0]|] eqn:Hf;
    [destruct (matched !! column_name d) as [col0|] eqn:Hm|].
  - destruct (filter_column df col0 op0 val0) as [df1 log1] eqn:Hfc.
    destruct (filter_loop defs matched df1) as [df2 log2] eqn:Hfl2.
    injection Hfl as <- <-.
    apply filter_column_inv in Hfc
      as [(_ & _ & Hne & _)|[(_ & _ & _ & ->)|(_ & -> & Herr)]]; [done| |].
    + by destruct (filter_loop_spec _ _ _ _ _ Hfl2)
        as ([[-> _]|(? & _)] & _).
    + apply filters_of_cons_inv in Hfo as [[Hcf Hcm]|Hfo].
      * rewrite Hf in Hcf. rewrite Hm in Hcm.
        injection Hcf as -> ->. injection Hcm as ->.
        destruct Herr as [?|(r & Hr & _)]; [done|].
        rewrite Hrows in Hr. by apply elem_of_nil in Hr.
      * eapply IH; [exact Hrows|exact Hfl2|]. by exists col, op, val.
  - apply filters_of_cons_inv in Hfo as [[Hcf Hcm]|Hfo]; [congruence|].
    eapply IH; [exact Hrows|exact Hfl|]. by exists col, op, val.
  - apply filters_of_cons_inv in Hfo as [[Hcf Hcm]|Hfo]; [congruence|].
    eapply IH; [exact Hrows|exact Hfl|]. by exists col, op, val.
Qed.

Lemma apply_filters_with_rows_run_out pre d post df matched op val col :
  col_filter d = Some (op, val) →
  matched !! column_name d = Some col →
  parseable_columns (pre ++ d :: post) matched df →
  Forall (λ r, row_passes pre matched r = false) (rows df) →
  ∃ log, apply_filters_with (pre ++ d :: post) df matched = (None, log).
Proof.
  intros Hf Hm Hp Hnone.
  assert (filters_of (pre ++ d :: post) matched col op val) as Hd.
  { exists d. split; [|done]. apply elem_of_app. right. left. }
  destruct (apply_filters_with (pre ++ d :: post) df matched)
    as [o log] eqn:Hap.
  destruct (apply_filters_with_inv _ _ _ _ _ Hap)
    as (fdf & Hfl & [(Hall & _)|(_ & ->)]); [|by exists log].
  exfalso. rewrite filter_loop_app in Hfl.
  destruct (filter_loop pre matched df) as [df1 log1] eqn:Hfl1.
  destruct (filter_loop (d :: post) matched df1) as [df2 log2] eqn:Hfl2.
  injection Hfl as <- <-.
  destruct (filter_loop_spec _ _ _ _ _ Hfl1)
    as (Hc1 & Hsub1 & _ & Hsound1 & Hlog1).
  assert (∀ c o' v, filters_of pre matched c o' v →
            filters_of (pre ++ d :: post) matched c o' v) as Hlift.
  { intros c o' v (cd & Hcd & ? & ?). exists cd. split; [|done].
    apply elem_of_app. by left. }
  assert (rows df1 = []) as Hrows1.
  { assert (∀ r, r ∈ rows df1 → False) as Hno1;
      [|destruct (rows df1) as [|r rs]; [done|];
        destruct (Hno1 r); left].
    intros r Hr.
    assert (r ∈ rows df) as Hr' by exact (elem_of_sublist _ _ _ Hr Hsub1).
    rewrite Forall_forall in Hnone. specialize (Hnone r Hr').
    assert (row_passes pre matched r = true) as Hpass; [|congruence].
    apply row_passes_true. intros c o' v Hfo.
    apply (Hsound1 r c o' v Hr Hfo). intros Hin.
    destruct (Hlog1 _ Hin) as (c' & [= <-] & _ & Hw).
    destruct (Hp c o' v (Hlift _ _ _ Hfo)) as [Hcin Hparse].
    destruct Hw as [?|[(r1 & Hr1in & Hnn & Hnorm)|Hnil]]; [done| |].
    - rewrite Forall_forall in Hparse.
      destruct (Hparse r1 Hr1in Hnn) as [x Hx]. congruence.
    - destruct Hc1 as [[Heq _]|(_ & _ & Hno)].
      + rewrite Heq in Hnil. rewrite Hnil in Hcin.
        by apply elem_of_nil in Hcin.
      + rewrite Hno in Hr. by apply elem_of_nil in Hr. }
  assert (columns df2 = []) as Hnil.
  { apply (filter_loop_no_rows _ _ _ _ _ Hrows1 Hfl2).
    destruct Hc1 as [[Heq _]|(Hno & _)]; [right|by left].
    exists col, op, val. split; [by apply filters_of_here|].
    rewrite Heq. by destruct (Hp col op val Hd). }
  rewrite Forall_forall in Hall.
  specialize (Hall col (filters_of_final_cols _ _ _ _ _ Hd)).
  rewrite Hnil in Hall. by apply elem_of_nil in Hall.
Qed.

(** X17: when the rows run out before a filter, [apply_filters] ends on the
    [KeyError] of its last line.  On a table whose filtered columns hold only
    cells that are null or parse, if no row passes the filters of the
    settings declared before some setting that has a filter and a matched
    column (as on a table without rows), the frame has no row left when that
    filter runs: it loses its columns there, and the projection on the
    matched columns fails instead of returning a frame without rows. *)
Theorem apply_filters_raises_when_rows_run_out
    (pre post : list ColumnSettings) (col_def : ColumnSettings)
    (data_df : DataFrame) (matched : gmap string string)
    (op : comparator) (val : spec_float) (col : string) :
  column_definitions = pre ++ col_def :: post →
  col_filter col_def = Some (op, val) →
  matched !! column_name col_def = Some col →
  wf_frame data_df →
  parseable_columns column_definitions matched data_df →
  Forall (λ r, row_passes pre matched r = false) (rows data_df) →
  ∃ log, apply_filters data_df matched = (None, log).
Proof.
  unfold apply_filters. generalize column_definitions.
  intros defs -> Hf Hm _ Hp Hnone.
  by eapply apply_filters_with_rows_run_out.
Qed.

Lemma apply_filters_raises_when_rows_run_out_witness :
  ∃ log, apply_filters low_years_df matched_two_columns = (None, log).
Proof.
  apply (apply_filters_raises_when_rows_run_out
           (take 6 column_definitions) (drop 7 column_definitions)
           {| column_name := "Div. Yield";
              col_filter := Some (op_gt, MARKET_DIVIDEND_YIELD);
              style := None;
              conditional_style :=
                Some (op_gt, UPPER_LIMIT_FOR_DIVIDEND_YIELD, font RED_COLOR) |}
           low_years_df matched_two_columns
           op_gt MARKET_DIVIDEND_YIELD "Div. Yield").
  - reflexivity.
  - reflexivity.
  - vm_compute. reflexivity.
  - apply (bool_decide_unpack _). vm_compute. exact I.
  - apply parseable_columnsb_true. vm_compute. reflexivity.
  - constructor; [vm_compute; reflexivity|constructor].
Defined.

(** ** Rounding *)

Lemma round_row_lookup cols r c :
  NoDup cols →
  cells (round_row cols r) !! c =
    if decide (c ∈ cols) then round_cell <$> cells r !! c else cells r !! c.
Proof.
  unfold round_row. cbn [cells]. induction 1 as [|a cols Ha _ IH].
  { by rewrite decide_False by apply not_elem_of_nil. }
  cbn [foldr]. rewrite lookup_alter.
  destruct (decide (a = c)) as [->|Hne].
  - rewrite decide_True by left. rewrite IH. by rewrite decide_False.
  - rewrite IH. destruct (decide (c ∈ cols)).
    + by rewrite decide_True by (by right).
    + rewrite decide_False; [done|]. intros [?|?]%elem_of_cons; congruence.
Qed.

Lemma round_row_fixed cols r :
  (∀ c x, cells r !! c = Some x → round_cell x = x) →
  round_row cols r = r.
Proof.
  intros Hfix. unfold round_row.
  assert (foldr (λ c m, alter round_cell c m) (cells r) cols = cells r)
    as ->; [|by destruct r].
  induction cols as [|a cols IH]; [done|]. cbn [foldr]. rewrite IH.
  apply map_eq. intros c. rewrite lookup_alter. case_decide; [subst|done].
  destruct (cells r !! c) as [x|] eqn:Hx; [|done].
  cbn. f_equal. by eapply Hfix.
Qed.

Lemma numeric_columns_elem df c :
  c ∈ numeric_columns df ↔
  c ∈ columns df ∧
  (dtypes df !! c = Some Float64 ∨ dtypes df !! c = Some Int64).
Proof.
  unfold numeric_columns. rewrite list_elem_of_filter.
  destruct (dtypes df !! c) as [[]|]; cbn; naive_solver.
Qed.

(** X5: [round_numeric_columns] keeps the columns, their dtypes, the rows,
    their order and their labels, and a well-formed frame well formed.  In a
    row it changes nothing but the cells of the columns of dtype float or
    int, to which it applies [round(x, 2) if isinstance(x, float) else x]:
    every cell of a column of dtype object stays as it is, and so does every
    cell that is not a float. *)
Theorem round_numeric_columns_cells (df : DataFrame) :
  wf_frame df →
  let df' := round_numeric_columns df in
  wf_frame df' ∧ columns df' = columns df ∧ dtypes df' = dtypes df ∧
  label <$> rows df' = label <$> rows df ∧
  (∀ c, c ∈ numeric_columns df ↔
        c ∈ columns df ∧
        (dtypes df !! c = Some Float64 ∨ dtypes df !! c = Some Int64)) ∧
  ∀ i r, rows df !! i = Some r →
    ∃ r', rows df' !! i = Some r' ∧
      ∀ c, (c ∈ numeric_columns df →
            cell_at r' c = round_cell (cell_at r c)) ∧
           (c ∉ numeric_columns df → cell_at r' c = cell_at r c) ∧
           ((∀ f, cell_at r c ≠ CFloat f) → cell_at r' c = cell_at r c).
Proof.
  intros [Hnd Hall] df'. subst df'.
  assert (NoDup (numeric_columns df)) as Hnum by (by apply NoDup_filter).
  assert (∀ r c, cell_at (round_row (numeric_columns df) r) c =
                 if decide (c ∈ numeric_columns df)
                 then round_cell (cell_at r c) else cell_at r c) as Hcell.
  { intros r c. unfold cell_at. rewrite round_row_lookup by done.
    case_decide; [|done]. by destruct (cells r !! c). }
  split; [|split; [done|split; [done|split; [|split]]]].
  - split; [done|]. cbn [round_numeric_columns rows columns].
    apply Forall_forall. intros r' Hr'.
    apply list_elem_of_fmap in Hr' as (r & -> & Hr).
    rewrite Forall_forall in Hall. specialize (Hall r Hr).
    apply Forall_forall. intros c Hc. rewrite Forall_forall in Hall.
    destruct (Hall c Hc) as [x Hx].
    rewrite round_row_lookup by done. rewrite Hx.
    case_decide; cbn; eauto.
  - cbn [round_numeric_columns rows]. rewrite <- list_fmap_compose.
    by apply list_fmap_ext.
  - apply numeric_columns_elem.
  - intros i r Hi. exists (round_row (numeric_columns df) r). split.
    + cbn [round_numeric_columns rows]. by rewrite list_lookup_fmap, Hi.
    + intros c. rewrite Hcell. split; [|split].
      * intros Hc. by rewrite decide_True.
      * intros Hc. by rewrite decide_False.
      * intros Hnf. case_decide; [|done].
        destruct (cell_at r c) as [| |f|]; try done. by destruct (Hnf f).
Qed.

Lemma round_numeric_columns_cells_witness :
  ∃ r', rows (round_numeric_columns df_25_0049) !! 0%nat = Some r' ∧
        cell_at r' "No. Yrs" = CFloat (float_lit "25.0").
Proof.
  destruct (round_numeric_columns_cells df_25_0049)
    as (_ & _ & _ & _ & Hnum & Hrows).
  { apply (bool_decide_unpack _). vm_compute. exact I. }
  destruct (Hrows 0%nat (row_of 0 [("No. Yrs", CFloat (float_lit "25.0049"))]))
    as (r' & Hr' & Hc); [reflexivity|].
  exists r'. split; [exact Hr'|].
  destruct (Hc "No. Yrs") as (Hround & _). rewrite Hround.
  - vm_compute. reflexivity.
  - apply Hnum. split; [apply list_elem_of_here|]. left.
    vm_compute. reflexivity.
Defined.

(** ** The validator *)

Lemma validate_loop_Some_columns df matched defs tol st v :
  validate_loop df matched defs tol st = Some v →
  ∀ col op val, filters_of defs matched col op val → col ∈ columns df.
Proof.
  revert st. induction defs as [|d defs IH]; intros st Hv col op val
    (cd & Hcd & Hf & Hm).
  { by apply elem_of_nil in Hcd. }
  cbn [validate_loop] in Hv.
  destruct (col_filter d) as [[op0 val0]|] eqn:Hfd;
    [destruct (matched !! column_name d) as [col0|] eqn:Hmd|].
  - case_decide as Hin; [|done].
    apply elem_of_cons in Hcd as [->|Hcd].
    + rewrite Hfd in Hf. rewrite Hmd in Hm. by simplify_eq.
    + eapply IH; [exact Hv|]. by exists cd.
  - apply elem_of_cons in Hcd as [->|Hcd]; [congruence|].
    eapply IH; [exact Hv|]. by exists cd.
  - apply elem_of_cons in Hcd as [->|Hcd]; [congruence|].
    eapply IH; [exact Hv|]. by exists cd.
Qed.

(** X6: [validate_filtered_rows] returns exactly when the frame has every
    column that a setting with a filter is matched to (otherwise the lookup
    of the column raises), and then it answers [True] exactly when no cell
    that parses, in such a column, fails the comparison of its column; cells
    that do not parse count neither way. *)
Theorem validate_filtered_rows_answer
    (df_filtered : DataFrame) (matched : gmap string string)
    (defs : list ColumnSettings) (tolerance : spec_float) :
  wf_frame df_filtered →
  (is_Some (validate_filtered_rows df_filtered matched defs tolerance) ↔
   ∀ col op val, filters_of defs matched col op val →
     col ∈ columns df_filtered) ∧
  ∀ v, validate_filtered_rows df_filtered matched defs tolerance = Some v →
    (all_valid v = true ↔
     ∀ col op val r x, filters_of defs matched col op val →
       r ∈ rows df_filtered →
       validate_numeric (cell_at r col) = Some x →
       compare_op op x val = true).
Proof.
  intros _. split.
  - split.
    + intros [v Hv] col op val Hf. unfold validate_filtered_rows in Hv.
      exact (validate_loop_Some_columns _ _ _ _ _ _ Hv col op val Hf).
    + apply validate_loop_total.
  - intros v Hv. exact (validate_filtered_rows_all_valid _ _ _ _ _ Hv).
Qed.

Lemma validate_filtered_rows_answer_witness :
  is_Some (validate_filtered_rows scenario_df matched_no_yrs
             column_definitions default_tolerance).
Proof.
  apply (validate_filtered_rows_answer scenario_df matched_no_yrs
           column_definitions default_tolerance).
  - apply (bool_decide_unpack _). vm_compute. exact I.
  - intros col op val (cd & _ & _ & Hm). unfold matched_no_yrs in Hm.
    apply lookup_singleton_Some in Hm as [_ <-]. apply list_elem_of_here.
Defined.

Lemma validate_cell_records name col op thr tol st idx val :
  let st' := validate_cell name col op thr tol st idx val in
  (changed_values st' = changed_values st ∧
   columns_with_rounded_differences st'
     = columns_with_rounded_differences st)
  ∨ (∃ x fv, validate_numeric val = Some x ∧ py_float val = Some fv ∧
             isclose fv x tol = false ∧
             changed_values st'
               = <[col := default [] (changed_values st !! col)
                            ++ [(idx, x)]]> (changed_values st) ∧
             columns_with_rounded_differences st'
               = {[col]} ∪ columns_with_rounded_differences st).
Proof.
  unfold validate_cell. destruct (validate_numeric val) as [x|]; [|by left].
  destruct (py_float val) as [fv|].
  - destruct (isclose fv x tol) eqn:Hc.
    + left. by destruct (compare_op op x thr).
    + right. exists x, fv. by destruct (compare_op op x thr).
  - left. by destruct (compare_op op x thr).
Qed.

Lemma validate_column_records name col op thr tol df st
    (Q : string → nat → spec_float → Prop) :
  (∀ r x fv, r ∈ rows df → validate_numeric (cell_at r col) = Some x →
     py_float (cell_at r col) = Some fv → isclose fv x tol = false →
     Q col (label r) x) →
  dom (changed_values st) = columns_with_rounded_differences st →
  (∀ c l idx x, changed_values st !! c = Some l → (idx, x) ∈ l →
     Q c idx x) →
  let st' := validate_column name col op thr tol df st in
  dom (changed_values st') = columns_with_rounded_differences st' ∧
  (∀ c l idx x, changed_values st' !! c = Some l → (idx, x) ∈ l →
     Q c idx x).
Proof.
  unfold validate_column. revert st.
  induction (rows df) as [|r rs IH]; intros st HQ Hdom Hrec; [done|].
  cbn [fold_left]. apply IH.
  - intros r' x fv Hr'. apply HQ. by right.
  - destruct (validate_cell_records name col op thr tol st (label r)
                (cell_at r col)) as [[-> ->]|(x & fv & _ & _ & _ & -> & ->)];
      [done|]. by rewrite dom_insert_L, Hdom.
  - destruct (validate_cell_records name col op thr tol st (label r)
                (cell_at r col)) as [[-> _]|(x & fv & Hx & Hfv & Hc & -> & _)];
      [done|].
    intros c l idx y Hl Hin. apply lookup_insert_Some in Hl
      as [(<- & <-)|(Hne & Hl)]; [|by eapply Hrec].
    apply elem_of_app in Hin as [Hin|Hin].
    + destruct (changed_values st !! col) as [l0|] eqn:Hl0;
        [by eapply Hrec|by apply elem_of_nil in Hin].
    + apply list_elem_of_singleton in Hin as [= -> ->].
      eapply HQ; [by left|done..].
Qed.

(** X7: what [validate_filtered_rows] records as changed.  The columns of
    [changed_values] are exactly the columns of
    [columns_with_rounded_differences]; each is a column of the frame, and
    each recorded pair is the label of a row of the frame with the number
    parsed from its cell, a cell whose own [float] is not close to that
    number: the comparison is between two readings of the same cell of the
    frame that is validated. *)
Theorem validate_filtered_rows_records
    (df_filtered : DataFrame) (matched : gmap string string)
    (defs : list ColumnSettings) (tolerance : spec_float) (v : Validation) :
  wf_frame df_filtered →
  validate_filtered_rows df_filtered matched defs tolerance = Some v →
  dom (changed_values v) = columns_with_rounded_differences v ∧
  ∀ col l idx x, changed_values v !! col = Some l → (idx, x) ∈ l →
    col ∈ columns df_filtered ∧
    ∃ r fv, r ∈ rows df_filtered ∧ label r = idx ∧
            validate_numeric (cell_at r col) = Some x ∧
            py_float (cell_at r col) = Some fv ∧
            isclose fv x tolerance = false.
Proof.
  intros _. unfold validate_filtered_rows.
  set (Q := λ col idx x,
         col ∈ columns df_filtered ∧
         ∃ r fv, r ∈ rows df_filtered ∧ label r = idx ∧
                 validate_numeric (cell_at r col) = Some x ∧
                 py_float (cell_at r col) = Some fv ∧
                 isclose fv x tolerance = false).
  assert (∀ st,
            dom (changed_values st) = columns_with_rounded_differences st →
            (∀ c l idx x, changed_values st !! c = Some l → (idx, x) ∈ l →
               Q c idx x) →
            validate_loop df_filtered matched defs tolerance st = Some v →
            dom (changed_values v) = columns_with_rounded_differences v ∧
            (∀ c l idx x, changed_values v !! c = Some l → (idx, x) ∈ l →
               Q c idx x)) as Hloop.
  { induction defs as [|d defs IH]; intros st Hdom Hrec Hv;
      cbn [validate_loop] in Hv; [by injection Hv as <-|].
    destruct (col_filter d) as [[op0 val0]|]; [|by eapply IH].
    destruct (matched !! column_name d) as [col0|]; [|by eapply IH].
    case_decide as Hin; [|done].
    destruct (validate_column_records (column_name d) col0 op0 val0
                tolerance df_filtered st Q) as [Hdom' Hrec']; [|done|done|].
    { intros r x fv Hr Hx Hfv Hc. split; [done|]. by exists r, fv. }
    by eapply IH. }
  intros Hv. eapply Hloop; [| |exact Hv].
  - cbn. by rewrite dom_empty_L.
  - intros c l idx x Hl. cbn in Hl. by rewrite lookup_empty in Hl.
Qed.

Lemma validate_filtered_rows_records_witness :
  let v :=
    {| all_valid := false;
       changed_values := {["No. Yrs" := [(3%nat, S754_nan)]]};
       columns_with_rounded_differences := {["No. Yrs"]};
       printed := [RowFailed 1 "No. Yrs" (CInt 25);
                   RowFailed 2 "No. Yrs" (CInt 10);
                   RowFailed 3 "No. Yrs" (CFloat S754_nan)] |} in
  validate_filtered_rows scenario_null_df matched_no_yrs column_definitions
    default_tolerance = Some v ∧
  dom (changed_values v) = columns_with_rounded_differences v.
Proof.
  intros v.
  assert (validate_filtered_rows scenario_null_df matched_no_yrs
            column_definitions default_tolerance = Some v) as Hv
    by (vm_compute; reflexivity).
  split; [exact Hv|].
  apply (validate_filtered_rows_records scenario_null_df matched_no_yrs
           column_definitions default_tolerance v); [|exact Hv].
  apply (bool_decide_unpack _). vm_compute. exact I.
Defined.

(** ** The whole run *)

Lemma main_inv gcm data_df run log :
  main gcm data_df = (Some run, log) →
  ∃ log0 log1 filtered_df,
    match_columns gcm data_df = (run_matched run, log0) ∧
    apply_filters_with column_definitions data_df (run_matched run)
      = (Some filtered_df, log1) ∧
    run_frame run = round_numeric_columns filtered_df ∧
    validate_filtered_rows (run_frame run) (run_matched run)
      column_definitions default_tolerance = Some (run_validation run) ∧
    run_styles run = apply_styles (run_matched run) ∧
    log = log0 ++ log1.
Proof.
  unfold main, filter_and_round, apply_filters, apply_styles.
  generalize column_definitions. intros defs.
  destruct (match_columns gcm data_df) as [matched log0] eqn:Hmc.
  destruct (apply_filters_with defs data_df matched)
    as [[filtered_df|] log1] eqn:Hap; [|intros [=]].
  cbn [fmap option_fmap option_map mbind option_bind].
  destruct (validate_filtered_rows (round_numeric_columns filtered_df)
              matched defs default_tolerance) as [v|] eqn:Hv;
    [|intros [=]].
  intros Heq. injection Heq as <- <-.
  exists log0, log1, filtered_df.
  cbn [run_matched run_frame run_styles run_validation].
  repeat split; reflexivity || exact Hv || exact Hap.
Qed.

(** X8: on a table of which some row passes every filter, [main] does not
    end on a missing column.  For every such well-formed table and every
    [get_close_matches], the filter, the rounding and the validation all
    return: the map of [match_columns] names only headers of the table, and
    the frame never runs out of rows, so that the projection of
    [apply_filters] and the column lookups of the validator find their
    columns.  The frame that is saved has the matched headers as its
    columns, in the order of the settings. *)
Theorem main_returns
    (gcm : string → list string → list string) (data_df : DataFrame) :
  wf_frame data_df →
  (∃ r, r ∈ rows data_df ∧
        row_passes column_definitions (match_columns gcm data_df).1 r
          = true) →
  ∃ run log,
    main gcm data_df = (Some run, log) ∧
    run_matched run = (match_columns gcm data_df).1 ∧
    columns (run_frame run)
      = final_cols column_definitions (run_matched run) ∧
    (length (rows (run_frame run)) ≤ length (rows data_df))%nat.
Proof.
  intros _ (r0 & Hr0 & Hpass0). revert Hpass0.
  unfold main, filter_and_round, apply_filters, apply_styles.
  generalize column_definitions. intros defs.
  destruct (match_columns gcm data_df) as [matched log0] eqn:Hmc.
  cbn [fst]. intros Hpass0.
  assert (∀ k col, matched !! k = Some col → col ∈ columns data_df) as Hm.
  { intros k col. replace matched with (match_columns gcm data_df).1
      by (by rewrite Hmc). apply match_columns_with_in_columns. }
  destruct (apply_filters_with_returns defs data_df matched r0)
    as (out & log1 & Hap); [by apply final_cols_Forall|done| |].
  { by apply row_passes_true. }
  rewrite Hap.
  destruct (apply_filters_with_spec _ _ _ _ _ Hap)
    as (Hcols & (kept & Hsub & Hrows) & _).
  cbn [fmap option_fmap option_map mbind option_bind].
  set (frame := round_numeric_columns out).
  destruct (validate_loop_total frame matched defs default_tolerance
              {| all_valid := true; changed_values := ∅;
                 columns_with_rounded_differences := ∅; printed := [] |})
    as [v Hv].
  { intros col op val Hfo. subst frame.
    cbn [round_numeric_columns columns]. rewrite Hcols.
    by eapply filters_of_final_cols. }
  unfold validate_filtered_rows. rewrite Hv.
  eexists _, _. split; [reflexivity|].
  cbn [run_matched run_frame fst]. split; [done|]. split; [exact Hcols|].
  subst frame. cbn [round_numeric_columns rows].
  rewrite length_fmap, Hrows, length_fmap. by apply sublist_length.
Qed.

Lemma main_returns_witness :
  ∃ run log,
    main no_suggestion three_rows_df = (Some run, log) ∧
    columns (run_frame run)
      = ["Company Name"; "No. Yrs"; "Price"; "Div. Yield"].
Proof.
  destruct (main_returns no_suggestion three_rows_df)
    as (run & log & Hmain & Hm & Hcols & _).
  { apply (bool_decide_unpack _). vm_compute. exact I. }
  { exists (row_of 0 [("Company Name", CStr "Alpha"); ("No. Yrs", CInt 40);
                      ("Price", CFloat (float_lit "101.5"));
                      ("Div. Yield", CStr "2.50%")]).
    split; [apply list_elem_of_here|vm_compute; reflexivity]. }
  exists run, log. split; [exact Hmain|].
  rewrite Hcols, Hm. vm_compute. reflexivity.
Defined.

Lemma float_same_eq a b : float_same a b = true → a = b.
Proof.
  destruct a as [s|s| |s m e], b as [t|t| |t m' e']; cbn; try done.
  - by intros ->%eqb_prop.
  - by intros ->%eqb_prop.
  - rewrite !andb_true_iff. intros [[->%eqb_prop ->%Pos.eqb_eq] ->%Z.eqb_eq].
    done.
Qed.

Lemma floats_rounded_true df :
  floats_rounded df = true →
  ∀ r c f, r ∈ rows df → cells r !! c = Some (CFloat f) → round2 f = f.
Proof.
  unfold floats_rounded. rewrite forallb_forall. intros Hall r c f Hr Hc.
  apply list_elem_of_In in Hr. specialize (Hall r Hr).
  rewrite forallb_forall in Hall.
  apply elem_of_map_to_list, list_elem_of_In in Hc.
  specialize (Hall _ Hc). by apply float_same_eq in Hall.
Qed.

Lemma no_filter_error_true log :
  no_filter_error log = true → ∀ col, ErrFilter col ∉ log.
Proof.
  unfold no_filter_error. rewrite forallb_forall. intros Hall col Hin.
  apply list_elem_of_In in Hin. by specialize (Hall _ Hin).
Qed.

(** X9: when the filter prints no error and no float of the table is changed
    by the rounding to two places, the validation of [main] answers [True]:
    every cell of the saved frame that parses satisfies the comparison of
    its column. *)
Theorem main_valid_without_error_and_rounding
    (gcm : string → list string → list string) (data_df : DataFrame)
    (run : Run) (log : list diag) :
  wf_frame data_df →
  main gcm data_df = (Some run, log) →
  (∀ col, ErrFilter col ∉ log) →
  (∀ r c f, r ∈ rows data_df → cells r !! c = Some (CFloat f) →
            round2 f = f) →
  all_valid (run_validation run) = true.
Proof.
  intros _ Hmain Hnoerr Hfix.
  destruct (main_inv _ _ _ _ Hmain)
    as (log0 & log1 & fdf & _ & Hap & Hframe & Hv & _ & ->).
  apply (validate_filtered_rows_all_valid _ _ _ _ _ Hv).
  intros col op val r'' x Hf Hr'' Hx.
  destruct (apply_filters_with_sound _ _ _ _ _ Hap) as (_ & _ & Hrows).
  rewrite Hframe in Hr''. cbn [round_numeric_columns rows] in Hr''.
  apply list_elem_of_fmap in Hr'' as (r' & -> & Hr').
  destruct (Hrows r' Hr') as (r & Hr & -> & Hpass).
  rewrite round_row_fixed in Hx.
  - assert (col ∈ final_cols column_definitions (run_matched run)) as Hc.
    { destruct Hf as (cd & ? & ? & ?). apply final_cols_elem. eauto. }
    rewrite cell_at_restrict in Hx by done.
    specialize (Hpass col op val Hf).
    apply filter_lambda_Some_true in Hpass as (_ & v & Hn & Hcmp).
    + change (validate_numeric (cell_at r col)) with (normalize (cell_at r col))
        in Hx. congruence.
    + intros Hin. apply (Hnoerr col). apply elem_of_app. by right.
  - intros c y Hy. cbn [restrict_row cells] in Hy.
    apply map_lookup_filter_Some in Hy as [Hy _].
    destruct y as [| |f|]; try done. cbn. f_equal. by eapply Hfix.
Qed.

Lemma main_valid_without_error_and_rounding_witness :
  ∃ run log,
    main no_suggestion three_rows_df = (Some run, log) ∧
    all_valid (run_validation run) = true.
Proof.
  assert (is_Some (main no_suggestion three_rows_df).1) as Hs
    by (vm_compute; eauto).
  assert (no_filter_error (main no_suggestion three_rows_df).2 = true)
    as Hlog by (vm_compute; reflexivity).
  destruct (main no_suggestion three_rows_df) as [[run|] log] eqn:Hmain;
    [|by destruct Hs as [? [=]]].
  exists run, log. split; [reflexivity|].
  apply (main_valid_without_error_and_rounding no_suggestion three_rows_df
           run log); [|exact Hmain| |].
  - apply (bool_decide_unpack _). vm_compute. exact I.
  - apply no_filter_error_true. exact Hlog.
  - apply floats_rounded_true. vm_compute. reflexivity.
Defined.

(** ** The worksheet *)

Lemma sheet_key_elem ws r c :
  (r, c) ∈ (map_to_list (ws_cells ws)).*1 ↔ is_Some (ws_cells ws !! (r, c)).
Proof.
  rewrite list_elem_of_fmap. split.
  - intros ([k x] & -> & Hx%elem_of_map_to_list). eauto.
  - intros [x Hx]. exists ((r, c), x). split; [done|].
    by apply elem_of_map_to_list.
Qed.

Lemma sheet_keys_nil ws :
  (map_to_list (ws_cells ws)).*1 = [] ↔ ws_cells ws = ∅.
Proof.
  split.
  - intros H%fmap_nil_inv. by apply map_to_list_empty_iff.
  - intros ->. by rewrite map_to_list_empty.
Qed.

Lemma max_row_empty ws : ws_cells ws = ∅ → max_row ws = 1%nat.
Proof. intros H%sheet_keys_nil. unfold max_row. by rewrite H. Qed.

Lemma max_column_empty ws : ws_cells ws = ∅ → max_column ws = 1%nat.
Proof. intros H%sheet_keys_nil. unfold max_column. by rewrite H. Qed.

Lemma max_row_ge ws r c :
  is_Some (ws_cells ws !! (r, c)) → (r ≤ max_row ws)%nat.
Proof.
  intros H%sheet_key_elem. unfold max_row.
  destruct ((map_to_list (ws_cells ws)).*1) as [|k ks] eqn:Hk;
    [by apply elem_of_nil in H|].
  apply max_list_elem_of_le. by apply (list_elem_of_fmap_2 fst) in H.
Qed.

Lemma max_column_ge ws r c :
  is_Some (ws_cells ws !! (r, c)) → (c ≤ max_column ws)%nat.
Proof.
  intros H%sheet_key_elem. unfold max_column.
  destruct ((map_to_list (ws_cells ws)).*1) as [|k ks] eqn:Hk;
    [by apply elem_of_nil in H|].
  apply max_list_elem_of_le. by apply (list_elem_of_fmap_2 snd) in H.
Qed.

Lemma max_row_attained ws :
  ws_cells ws ≠ ∅ → ∃ c, is_Some (ws_cells ws !! (max_row ws, c)).
Proof.
  intros Hne. unfold max_row.
  destruct ((map_to_list (ws_cells ws)).*1) as [|k ks] eqn:Hk.
  { by apply sheet_keys_nil in Hk. }
  assert (max_list ((k :: ks).*1) ∈ (k :: ks).*1) as Hin
    by (by apply max_list_elem_of).
  apply list_elem_of_fmap in Hin as ([r c] & Hr & Hin). cbn [fst] in Hr.
  exists c. apply sheet_key_elem. by rewrite Hk, Hr.
Qed.

Lemma max_column_attained ws :
  ws_cells ws ≠ ∅ → ∃ r, is_Some (ws_cells ws !! (r, max_column ws)).
Proof.
  intros Hne. unfold max_column.
  destruct ((map_to_list (ws_cells ws)).*1) as [|k ks] eqn:Hk.
  { by apply sheet_keys_nil in Hk. }
  assert (max_list ((k :: ks).*2) ∈ (k :: ks).*2) as Hin
    by (by apply max_list_elem_of).
  apply list_elem_of_fmap in Hin as ([r c] & Hc & Hin). cbn [snd] in Hc.
  exists r. apply sheet_key_elem. by rewrite Hk, Hc.
Qed.

Lemma cell_of_missing ws r c :
  ws_cells ws !! (r, c) = None → cell_of ws r c = empty_cell.
Proof. unfold cell_of. by intros ->. Qed.

Lemma cell_of_beyond ws r c :
  (max_row ws < r)%nat ∨ (max_column ws < c)%nat →
  cell_of ws r c = empty_cell.
Proof.
  intros Hout. apply cell_of_missing.
  destruct (ws_cells ws !! (r, c)) as [x|] eqn:Hx; [|done].
  assert (is_Some (ws_cells ws !! (r, c))) as Hs by eauto.
  pose proof (max_row_ge _ _ _ Hs). pose proof (max_column_ge _ _ _ Hs). lia.
Qed.

Lemma cell_of_update_cell f ws r c r' c' :
  cell_of (update_cell f ws r c) r' c' =
    if decide ((r, c) = (r', c')) then f (cell_of ws r c)
    else cell_of ws r' c'.
Proof.
  unfold cell_of at 1. unfold update_cell. cbn [ws_cells].
  case_decide as Heq.
  - rewrite <- Heq. by rewrite lookup_insert_eq.
  - by rewrite lookup_insert_ne.
Qed.

Lemma update_cell_nonempty f ws r c : ws_cells (update_cell f ws r c) ≠ ∅.
Proof. unfold update_cell. cbn [ws_cells]. apply insert_non_empty. Qed.

Lemma update_cell_keys f ws r c r' c' :
  is_Some (ws_cells (update_cell f ws r c) !! (r', c')) ↔
  (r, c) = (r', c') ∨ is_Some (ws_cells ws !! (r', c')).
Proof.
  unfold update_cell. cbn [ws_cells].
  destruct (decide ((r, c) = (r', c'))) as [<-|Hne].
  - rewrite lookup_insert_eq. split; eauto.
  - rewrite lookup_insert_ne by done. split; [by right|]. by intros [?|?].
Qed.

Lemma max_row_update_cell f ws r c :
  ws_cells ws ≠ ∅ → (r ≤ max_row ws)%nat →
  max_row (update_cell f ws r c) = max_row ws.
Proof.
  intros Hne Hr. apply Nat.le_antisymm.
  - destruct (max_row_attained (update_cell f ws r c)) as [c' Hc'];
      [apply update_cell_nonempty|].
    apply update_cell_keys in Hc' as [[= <- _]|Hc']; [done|].
    by eapply max_row_ge.
  - destruct (max_row_attained ws Hne) as [c' Hc'].
    apply (max_row_ge _ _ c'). apply update_cell_keys. by right.
Qed.

Lemma max_column_update_cell f ws r c :
  ws_cells ws ≠ ∅ →
  max_column (update_cell f ws r c) = Nat.max (max_column ws) c.
Proof.
  intros Hne. apply Nat.le_antisymm.
  - destruct (max_column_attained (update_cell f ws r c)) as [r' Hr'];
      [apply update_cell_nonempty|].
    apply update_cell_keys in Hr' as [[= _ <-]|Hr']; [lia|].
    apply max_column_ge in Hr'. lia.
  - apply Nat.max_lub.
    + destruct (max_column_attained ws Hne) as [r' Hr'].
      apply (max_column_ge _ r'). apply update_cell_keys. by right.
    + apply (max_column_ge _ r). apply update_cell_keys. by left.
Qed.

Lemma for_cells_cons f ws rc coords :
  for_cells f ws (rc :: coords) =
  for_cells f (update_cell f ws rc.1 rc.2) coords.
Proof. done. Qed.

Lemma cell_of_for_cells f ws coords r c :
  NoDup coords →
  cell_of (for_cells f ws coords) r c =
    if decide ((r, c) ∈ coords) then f (cell_of ws r c) else cell_of ws r c.
Proof.
  intros Hnd. revert ws. induction Hnd as [|[r0 c0] coords Hnotin _ IH];
    intros ws.
  { by rewrite decide_False by apply not_elem_of_nil. }
  rewrite for_cells_cons, IH. cbn [fst snd]. rewrite cell_of_update_cell.
  destruct (decide ((r0, c0) = (r, c))) as [[= -> ->]|Hne].
  - rewrite decide_False by done. by rewrite decide_True by left.
  - destruct (decide ((r, c) ∈ coords)).
    + by rewrite decide_True by (by right).
    + rewrite decide_False; [done|]. by intros [?|?]%elem_of_cons.
Qed.

Lemma for_cells_frame f ws coords :
  column_width (for_cells f ws coords) = column_width ws ∧
  freeze_panes (for_cells f ws coords) = freeze_panes ws.
Proof.
  revert ws. induction coords as [|rc coords IH]; intros ws; [done|].
  rewrite for_cells_cons. by destruct (IH (update_cell f ws rc.1 rc.2)).
Qed.

Lemma for_cells_bounds f ws coords :
  ws_cells ws ≠ ∅ →
  Forall (λ rc, (rc.1 ≤ max_row ws)%nat) coords →
  ws_cells (for_cells f ws coords) ≠ ∅ ∧
  max_row (for_cells f ws coords) = max_row ws ∧
  max_column (for_cells f ws coords) = max_list (max_column ws :: coords.*2).
Proof.
  intros Hne Hall. revert ws Hne Hall.
  induction coords as [|[r c] coords IH]; intros ws Hne Hall.
  { cbn. split; [done|]. split; [done|lia]. }
  apply Forall_cons in Hall as [Hr Hall]. cbn [fst] in Hr.
  rewrite for_cells_cons. cbn [fst snd].
  destruct (IH (update_cell f ws r c)) as (Hne' & Hrow & Hcol).
  - apply update_cell_nonempty.
  - by rewrite max_row_update_cell.
  - split; [done|]. rewrite Hrow, Hcol.
    rewrite max_row_update_cell, max_column_update_cell by done.
    split; [done|]. cbn. lia.
Qed.

Lemma iter_rows_elem ws a c1 c2 r c :
  (r, c) ∈ iter_rows ws a c1 c2 ↔
  (a ≤ r ≤ max_row ws)%nat ∧ (c1 ≤ c ≤ c2)%nat.
Proof.
  unfold iter_rows. rewrite list_elem_of_bind. split.
  - intros (r' & Hin & Hr'). apply list_elem_of_fmap in Hin as (c' & [= -> ->] & Hc').
    apply elem_of_seq in Hr', Hc'. lia.
  - intros [Hr Hc]. exists r. split.
    + apply list_elem_of_fmap. exists c. split; [done|]. apply elem_of_seq. lia.
    + apply elem_of_seq. lia.
Qed.

Lemma iter_rows_NoDup ws a c1 c2 : NoDup (iter_rows ws a c1 c2).
Proof.
  unfold iter_rows. apply NoDup_bind.
  - intros r1 r2 [r c] _ _ H1 H2.
    apply list_elem_of_fmap in H1 as (? & [= -> _] & _).
    by apply list_elem_of_fmap in H2 as (? & [= -> _] & _).
  - intros r _. apply NoDup_fmap_2; [|apply NoDup_seq].
    by intros ?? [=].
  - apply NoDup_seq.
Qed.

Lemma sheet_nonempty ws r c :
  is_Some (ws_cells ws !! (r, c)) → ws_cells ws ≠ ∅.
Proof. intros [x Hx] He. by rewrite He, lookup_empty in Hx. Qed.

Lemma for_cells_iter_rows f ws c1 c2 :
  let ws1 := for_cells f ws (iter_rows ws 2 c1 c2) in
  max_row ws1 = max_row ws ∧
  (max_column ws ≤ max_column ws1)%nat ∧
  (ws_cells ws = ∅ → ws1 = ws) ∧
  (ws_cells ws ≠ ∅ → ws_cells ws1 ≠ ∅) ∧
  column_width ws1 = column_width ws ∧
  freeze_panes ws1 = freeze_panes ws ∧
  ∀ r c, cell_of ws1 r c =
    if decide ((2 ≤ r ≤ max_row ws)%nat ∧ (c1 ≤ c ≤ c2)%nat)
    then f (cell_of ws r c) else cell_of ws r c.
Proof.
  intros ws1.
  assert (∀ r c, cell_of ws1 r c =
            if decide ((2 ≤ r ≤ max_row ws)%nat ∧ (c1 ≤ c ≤ c2)%nat)
            then f (cell_of ws r c) else cell_of ws r c) as Hcell.
  { intros r c. unfold ws1.
    rewrite cell_of_for_cells by apply iter_rows_NoDup.
    destruct (decide ((r, c) ∈ iter_rows ws 2 c1 c2)) as [Hin|Hin].
    - apply iter_rows_elem in Hin. by rewrite decide_True.
    - rewrite decide_False; [done|]. by rewrite <- iter_rows_elem. }
  destruct (for_cells_frame f ws (iter_rows ws 2 c1 c2)) as [Hw Hf].
  destruct (decide (ws_cells ws = ∅)) as [He|Hne].
  - assert (iter_rows ws 2 c1 c2 = []) as Hnil.
    { unfold iter_rows. by rewrite max_row_empty. }
    unfold ws1. rewrite Hnil. cbn [for_cells foldl]. repeat split; try done.
    intros r c. case_decide as Hd; [|done].
    rewrite max_row_empty in Hd by done. lia.
  - destruct (for_cells_bounds f ws (iter_rows ws 2 c1 c2) Hne)
      as (Hne1 & Hrow & Hcol).
    { apply Forall_forall. intros [r c] Hin%iter_rows_elem. cbn [fst]. lia. }
    split; [done|]. split; [|done].
    fold ws1 in Hcol. rewrite Hcol. apply max_list_elem_of_le. left.
Qed.

Lemma normalize_None : normalize CNone = None.
Proof. vm_compute. reflexivity. Qed.

Lemma separator_cell_empty : separator_cell empty_cell = empty_cell.
Proof. done. Qed.

(** ** Styles *)

Lemma style_cell_value col_def c :
  value (style_cell col_def c) = value c ∧
  number_format (style_cell col_def c) = number_format c.
Proof.
  unfold style_cell.
  destruct (style col_def) as [s|],
    (conditional_style col_def) as [[[op thr] s']|]; try done.
  - cbn [apply_cell_style value]. destruct (normalize (value c)); [|done].
    by destruct (compare_op _ _ _).
  - destruct (normalize (value c)); [|done]. by destruct (compare_op _ _ _).
Qed.

Lemma style_cell_idemp col_def c :
  style_cell col_def (style_cell col_def c) = style_cell col_def c.
Proof.
  assert (∀ c s, value (apply_cell_style c s) = value c) as Hv by done.
  assert (∀ c s, apply_cell_style (apply_cell_style c s) s
                 = apply_cell_style c s) as H1.
  { intros c0 s. unfold apply_cell_style. cbn [value alignment cell_font fill
      number_format]. f_equal.
    - by destruct (bold s), (truthy (font_color s)).
    - by destruct (truthy (fill_color s)). }
  assert (∀ c s s', apply_cell_style
                      (apply_cell_style (apply_cell_style
                         (apply_cell_style c s) s') s) s'
                    = apply_cell_style (apply_cell_style c s) s') as H3.
  { intros c0 s s'. unfold apply_cell_style. cbn [value alignment cell_font
      fill number_format]. f_equal.
    - by destruct (bold s'), (truthy (font_color s')), (bold s),
        (truthy (font_color s)).
    - by destruct (truthy (fill_color s')), (truthy (fill_color s)). }
  unfold style_cell.
  destruct (style col_def) as [s|],
    (conditional_style col_def) as [[[op thr] s']|];
    rewrite ?Hv;
    try (destruct (normalize (value c)) as [x|] eqn:Hx;
         [destruct (compare_op op x thr) eqn:Hcmp|]);
    rewrite ?Hv, ?Hx, ?Hcmp, ?H3, ?H1; done.
Qed.

(** X10: styling a cell never changes its value or its number format, and
    styling it again with the same setting changes nothing: whatever the
    style and the conditional style of the setting assign, the second pass
    assigns again. *)
Theorem style_cell_idempotent (col_def : ColumnSettings) (c : SheetCell) :
  value (style_cell col_def c) = value c ∧
  number_format (style_cell col_def c) = number_format c ∧
  style_cell col_def (style_cell col_def c) = style_cell col_def c.
Proof.
  destruct (style_cell_value col_def c) as [Hv Hn].
  split; [exact Hv|]. split; [exact Hn|]. apply style_cell_idemp.
Qed.

Lemma styled_from_NoDup s defs matched :
  NoDup (styled_from s defs matched).*1.
Proof.
  revert s. induction defs as [|d defs IH]; intros s; cbn [styled_from].
  { constructor. }
  destruct (matched !! column_name d); [|apply IH].
  cbn [fmap list_fmap fst]. constructor; [|apply IH].
  intros Hin. apply list_elem_of_fmap in Hin as ([k d'] & Hk & Hin).
  cbn [fst] in Hk. subst k.
  apply styled_from_elem in Hin as (i & Hi & _). lia.
Qed.

Lemma style_columns_cons t targets ws :
  style_columns (t :: targets) ws =
  style_columns targets
    (for_cells (style_cell t.2) ws (iter_rows ws 2 t.1 t.1)).
Proof. done. Qed.

Lemma style_columns_spec targets ws :
  NoDup targets.*1 →
  let ws' := style_columns targets ws in
  max_row ws' = max_row ws ∧
  (max_column ws ≤ max_column ws')%nat ∧
  (ws_cells ws = ∅ → ws' = ws) ∧
  (ws_cells ws ≠ ∅ → ws_cells ws' ≠ ∅) ∧
  column_width ws' = column_width ws ∧
  freeze_panes ws' = freeze_panes ws ∧
  ∀ r c,
    (∀ d, (c, d) ∈ targets → (2 ≤ r ≤ max_row ws)%nat →
          cell_of ws' r c = style_cell d (cell_of ws r c)) ∧
    ((∀ d, (c, d) ∉ targets) ∨ ¬ (2 ≤ r ≤ max_row ws)%nat →
     cell_of ws' r c = cell_of ws r c).
Proof.
  revert ws. induction targets as [|[k d0] targets IH]; intros ws Hnd ws'.
  { subst ws'. cbn [style_columns foldl]. repeat split; try done.
    by intros d ?%elem_of_nil. }
  apply NoDup_cons in Hnd as [Hk Hnd]. cbn [fst] in Hk.
  subst ws'. rewrite style_columns_cons. cbn [fst snd].
  destruct (for_cells_iter_rows (style_cell d0) ws k k)
    as (Hrow1 & Hcol1 & Hemp1 & Hne1 & Hw1 & Hf1 & Hcell1).
  set (ws1 := for_cells (style_cell d0) ws (iter_rows ws 2 k k)) in *.
  destruct (IH ws1 Hnd) as (Hrow & Hcol & Hemp & Hne & Hw & Hf & Hcell).
  split; [congruence|]. split; [lia|]. split.
  { intros He. rewrite Hemp; [by apply Hemp1|]. by rewrite Hemp1. }
  split; [by auto|]. split; [congruence|]. split; [congruence|].
  intros r c. destruct (Hcell r c) as [Hin Hout]. rewrite Hrow1 in Hin, Hout.
  split.
  - intros d [[= -> ->]|Hd]%elem_of_cons Hr.
    + rewrite Hout.
      * rewrite Hcell1. rewrite decide_True; [done|lia].
      * left. intros d' Hd'. apply Hk.
        by apply (list_elem_of_fmap_2 fst) in Hd'.
    + rewrite (Hin d Hd Hr). rewrite Hcell1. rewrite decide_False; [done|].
      intros [_ Hc]. apply Hk. apply (list_elem_of_fmap_2 fst) in Hd.
      cbn [fst] in Hd. by replace k with c by lia.
  - intros Hno. rewrite Hout.
    + rewrite Hcell1. rewrite decide_False; [done|].
      intros [Hr Hc]. destruct Hno as [Hno|Hno]; [|done].
      apply (Hno d0). replace c with k by lia. left.
    + destruct Hno as [Hno|Hno]; [left|by right].
      intros d' Hd'. apply (Hno d'). by right.
Qed.

Lemma apply_styles_columns matched c d :
  (c, d) ∈ apply_styles matched → (1 ≤ c)%nat.
Proof.
  unfold apply_styles, apply_styles_with.
  intros (i & -> & _)%styled_from_elem. lia.
Qed.

Lemma apply_styles_sheet_spec ws matched :
  let ws' := apply_styles_sheet ws matched in
  max_row ws' = max_row ws ∧
  (max_column ws ≤ max_column ws')%nat ∧
  (ws_cells ws = ∅ → ws' = ws) ∧
  (ws_cells ws ≠ ∅ → ws_cells ws' ≠ ∅) ∧
  column_width ws' = column_width ws ∧
  freeze_panes ws' = freeze_panes ws ∧
  ∀ r c,
    (∀ d, (c, d) ∈ apply_styles matched → (2 ≤ r ≤ max_row ws)%nat →
          cell_of ws' r c = style_cell d (cell_of ws r c)) ∧
    ((∀ d, (c, d) ∉ apply_styles matched) ∨ ¬ (2 ≤ r ≤ max_row ws)%nat →
     cell_of ws' r c = cell_of ws r c).
Proof.
  unfold apply_styles_sheet. apply style_columns_spec.
  apply styled_from_NoDup.
Qed.

Lemma apply_styles_sheet_value ws matched r c :
  value (cell_of (apply_styles_sheet ws matched) r c) = value (cell_of ws r c) ∧
  number_format (cell_of (apply_styles_sheet ws matched) r c)
    = number_format (cell_of ws r c).
Proof.
  destruct (apply_styles_sheet_spec ws matched)
    as (_ & _ & _ & _ & _ & _ & Hcell).
  generalize dependent (apply_styles_sheet ws matched). intros ws' Hcell.
  generalize dependent (apply_styles matched). intros targets Hcell.
  destruct (decide (2 ≤ r ≤ max_row ws)%nat) as [Hr|Hr];
    [|by rewrite (proj2 (Hcell r c)) by (by right)].
  destruct (decide (c ∈ targets.*1)) as [Hc|Hc].
  - apply list_elem_of_fmap in Hc as ([c' d] & -> & Hd). cbn [fst].
    rewrite (proj1 (Hcell r c') d Hd Hr).
    by destruct (style_cell_value d (cell_of ws r c')) as [-> ->].
  - rewrite (proj2 (Hcell r c)); [done|]. left. intros d Hd. apply Hc.
    by apply (list_elem_of_fmap_2 fst) in Hd.
Qed.

(** X11: [apply_styles] on the sheet.  It leaves the header row and every
    column that no matched setting points at as they are, changes no value
    and no number format, and gives each cell below the header, in the
    column whose number is the position of a matched setting in
    [column_definitions], the styles of that setting.  The number of rows
    stays the same. *)
Theorem apply_styles_sheet_cells (ws : Worksheet)
    (matched : gmap string string) :
  let ws' := apply_styles_sheet ws matched in
  max_row ws' = max_row ws ∧
  (∀ r c, value (cell_of ws' r c) = value (cell_of ws r c) ∧
          number_format (cell_of ws' r c) = number_format (cell_of ws r c)) ∧
  (∀ c, cell_of ws' 1 c = cell_of ws 1 c) ∧
  (∀ r c col_def, (c, col_def) ∈ apply_styles matched →
     (2 ≤ r ≤ max_row ws)%nat →
     cell_of ws' r c = style_cell col_def (cell_of ws r c)) ∧
  (∀ r c, (∀ col_def, (c, col_def) ∉ apply_styles matched) →
     cell_of ws' r c = cell_of ws r c).
Proof.
  intros ws'.
  destruct (apply_styles_sheet_spec ws matched)
    as (Hrow & _ & _ & _ & _ & _ & Hcell).
  split; [done|]. split; [|split; [|split]].
  - intros r c. apply apply_styles_sheet_value.
  - intros c. destruct (Hcell 1%nat c) as [_ Hout]. apply Hout. right. lia.
  - intros r c d Hd Hr. destruct (Hcell r c) as [Hin _]. by apply Hin.
  - intros r c Hno. destruct (Hcell r c) as [_ Hout]. apply Hout. by left.
Qed.

(** ** Column widths *)

Lemma max_len_ext ws1 ws2 col :
  max_row ws1 = max_row ws2 →
  (∀ r, value (cell_of ws1 r col) = value (cell_of ws2 r col)) →
  max_len ws1 col = max_len ws2 col.
Proof.
  intros Hrow Hval. unfold max_len. rewrite Hrow. f_equal.
  induction (seq 1 (max_row ws2)) as [|r l IH]; [done|].
  cbn [omap list_omap]. by rewrite Hval, IH.
Qed.

Lemma max_len_ge ws r col :
  (1 ≤ r ≤ max_row ws)%nat →
  value (cell_of ws r col) ≠ CNone →
  (String.length (py_str (value (cell_of ws r col))) ≤ max_len ws col)%nat.
Proof.
  intros Hr Hv. unfold max_len. apply max_list_elem_of_le.
  apply list_elem_of_omap. exists r. split; [apply elem_of_seq; lia|].
  by destruct (value (cell_of ws r col)).
Qed.

Lemma max_len_empty_column ws col :
  (∀ r, (1 ≤ r ≤ max_row ws)%nat → value (cell_of ws r col) = CNone) →
  max_len ws col = 0%nat.
Proof.
  intros Hall. unfold max_len.
  destruct (omap _ _) as [|n l] eqn:Hl; [done|].
  assert (n ∈ n :: l) as Hin by left. rewrite <- Hl in Hin.
  apply list_elem_of_omap in Hin as (r & Hr & Hn).
  apply elem_of_seq in Hr. rewrite Hall in Hn by lia. done.
Qed.

Lemma adjust_column_width_spec ws c0 :
  ws_cells ws ≠ ∅ → (c0 ≤ max_column ws)%nat →
  let ws1 := adjust_column_width ws c0 in
  ws_cells ws1 ≠ ∅ ∧ max_row ws1 = max_row ws ∧
  max_column ws1 = max_column ws ∧ freeze_panes ws1 = freeze_panes ws ∧
  (∀ r c, cell_of ws1 r c = cell_of ws r c) ∧
  ∀ col, column_width ws1 !! col =
    if decide (col = c0) then Some (max_len ws col + 2)%nat
    else column_width ws !! col.
Proof.
  intros Hne Hc ws1. subst ws1. unfold adjust_column_width.
  set (coords := (λ r, (r, c0)) <$> seq 1 (max_row ws)).
  set (wsA := for_cells id ws coords).
  destruct (for_cells_bounds id ws coords Hne) as (HneA & HrowA & HcolA).
  { apply Forall_forall. intros rc (r & -> & Hr%elem_of_seq)%list_elem_of_fmap.
    cbn [fst]. lia. }
  fold wsA in HneA, HrowA, HcolA.
  assert (max_column wsA = max_column ws) as HcolA'.
  { rewrite HcolA. apply Nat.le_antisymm;
      [|apply max_list_elem_of_le; left].
    assert (max_list (max_column ws :: coords.*2)
              ∈ max_column ws :: coords.*2) as Hin
      by (by apply max_list_elem_of).
    apply elem_of_cons in Hin as [Heq|Hin]; [by rewrite Heq|].
    apply list_elem_of_fmap in Hin as (rc & Hx & Hin).
    apply list_elem_of_fmap in Hin as (r & -> & _). cbn [snd] in Hx.
    rewrite Hx. exact Hc. }
  assert (∀ r c, cell_of wsA r c = cell_of ws r c) as HcellA.
  { intros r c. unfold wsA. rewrite cell_of_for_cells.
    - by case_decide.
    - apply NoDup_fmap_2; [by intros ?? [=]|apply NoDup_seq]. }
  destruct (for_cells_frame id ws coords) as [HwA HfA]. fold wsA in HwA, HfA.
  split; [exact HneA|]. split; [exact HrowA|]. split; [exact HcolA'|].
  split; [exact HfA|]. split; [exact HcellA|].
  intros col. cbn [column_width]. destruct (decide (col = c0)) as [->|Hne0].
  - rewrite lookup_insert_eq. do 2 f_equal.
    apply max_len_ext; [done|]. intros r. by rewrite HcellA.
  - rewrite lookup_insert_ne by done. by rewrite HwA.
Qed.

Lemma column_widths_fold cols ws :
  ws_cells ws ≠ ∅ → NoDup cols →
  Forall (λ c, (c ≤ max_column ws)%nat) cols →
  let ws' := foldl adjust_column_width ws cols in
  ws_cells ws' ≠ ∅ ∧ max_row ws' = max_row ws ∧
  max_column ws' = max_column ws ∧ freeze_panes ws' = freeze_panes ws ∧
  (∀ r c, cell_of ws' r c = cell_of ws r c) ∧
  ∀ col, column_width ws' !! col =
    if decide (col ∈ cols) then Some (max_len ws col + 2)%nat
    else column_width ws !! col.
Proof.
  intros Hne Hnd. revert ws Hne.
  induction Hnd as [|c0 cols Hc0 Hnd IH]; intros ws Hne Hall ws'.
  { subst ws'. cbn [foldl]. repeat split; try done;
      intros col; by rewrite decide_False by apply not_elem_of_nil. }
  apply Forall_cons in Hall as [Hc Hall].
  subst ws'. cbn [foldl].
  destruct (adjust_column_width_spec ws c0 Hne Hc)
    as (Hne1 & Hrow1 & Hcol1 & Hf1 & Hcell1 & Hw1).
  set (ws1 := adjust_column_width ws c0) in *.
  destruct (IH ws1) as (Hne' & Hrow' & Hcol' & Hf' & Hcell' & Hw').
  { exact Hne1. }
  { by rewrite Hcol1. }
  split; [done|]. split; [congruence|]. split; [congruence|].
  split; [congruence|]. split; [intros r c; by rewrite Hcell'|].
  intros col. rewrite Hw'.
  assert (∀ c, max_len ws1 c = max_len ws c) as Hlen.
  { intros c. apply max_len_ext; [done|]. intros r. by rewrite Hcell1. }
  destruct (decide (col ∈ cols)) as [Hin|Hin].
  - rewrite decide_True by (by right). by rewrite Hlen.
  - rewrite Hw1. destruct (decide (col = c0)) as [->|Hne0].
    + by rewrite decide_True by left.
    + rewrite decide_False; [done|]. by intros [?|?]%elem_of_cons.
Qed.

Lemma auto_adjust_column_widths_spec ws :
  ws_cells ws ≠ ∅ →
  let ws' := auto_adjust_column_widths ws in
  ws_cells ws' ≠ ∅ ∧ max_row ws' = max_row ws ∧
  max_column ws' = max_column ws ∧ freeze_panes ws' = freeze_panes ws ∧
  (∀ r c, cell_of ws' r c = cell_of ws r c) ∧
  ∀ col, column_width ws' !! col =
    if decide (1 ≤ col ≤ max_column ws)%nat
    then Some (max_len ws col + 2)%nat
    else column_width ws !! col.
Proof.
  intros Hne ws'.
  destruct (column_widths_fold (seq 1 (max_column ws)) ws Hne)
    as (Hne' & Hrow & Hcol & Hf & Hcell & Hw).
  { apply NoDup_seq. }
  { apply Forall_forall. intros c Hc%elem_of_seq. lia. }
  assert (sheet_columns ws = seq 1 (max_column ws)) as Hcols.
  { unfold sheet_columns. by rewrite decide_False. }
  unfold ws', auto_adjust_column_widths. rewrite Hcols.
  repeat split; try done.
  intros col. rewrite Hw.
  destruct (decide (col ∈ seq 1 (max_column ws))) as [Hin|Hin].
  - apply elem_of_seq in Hin. rewrite decide_True; [done|lia].
  - rewrite decide_False; [done|]. rewrite elem_of_seq in Hin. lia.
Qed.

(** X12: [auto_adjust_column_widths] on a sheet that has cells.  It changes
    no cell, and gives every column of the sheet the width of its longest
    text plus two, the header included: every value of the column fits with
    two characters to spare, and a column without values has width 2.  The
    width of no other column is set. *)
Theorem auto_adjust_column_widths_fits (ws : Worksheet) :
  ws_cells ws ≠ ∅ →
  let ws' := auto_adjust_column_widths ws in
  (∀ r c, cell_of ws' r c = cell_of ws r c) ∧
  max_row ws' = max_row ws ∧ max_column ws' = max_column ws ∧
  (∀ col, (1 ≤ col ≤ max_column ws)%nat →
     ∃ w, column_width ws' !! col = Some w ∧
          (∀ r, (1 ≤ r ≤ max_row ws)%nat →
                value (cell_of ws r col) ≠ CNone →
                (String.length (py_str (value (cell_of ws r col))) + 2 ≤ w)%nat) ∧
          ((∀ r, (1 ≤ r ≤ max_row ws)%nat →
                 value (cell_of ws r col) = CNone) → w = 2%nat) ∧
          ((2 < w)%nat →
           ∃ r, (1 ≤ r ≤ max_row ws)%nat ∧
                value (cell_of ws r col) ≠ CNone ∧
                w = (String.length (py_str (value (cell_of ws r col))) + 2)%nat)) ∧
  (∀ col, ¬ (1 ≤ col ≤ max_column ws)%nat →
     column_width ws' !! col = column_width ws !! col).
Proof.
  intros Hne ws'.
  destruct (auto_adjust_column_widths_spec ws Hne)
    as (_ & Hrow & Hcol & _ & Hcell & Hw).
  fold ws' in Hrow, Hcol, Hcell, Hw.
  split; [done|]. split; [done|]. split; [done|]. split.
  - intros col Hc. exists (max_len ws col + 2)%nat.
    split; [by rewrite Hw, decide_True|]. split; [|split].
    + intros r Hr Hv. pose proof (max_len_ge ws r col Hr Hv). lia.
    + intros Hall. by rewrite max_len_empty_column.
    + intros Hw2. unfold max_len in *.
      destruct (omap _ _) as [|n l] eqn:Hl; [cbn in Hw2; lia|].
      assert (max_list (n :: l) ∈ n :: l) as Hin by (by apply max_list_elem_of).
      rewrite <- Hl in Hin at 2.
      apply list_elem_of_omap in Hin as (r & Hr%elem_of_seq & Hn).
      exists r. split; [lia|].
      destruct (value (cell_of ws r col)); [done|..];
        (split; [done|]); apply (inj Some) in Hn; by rewrite <- Hn.
  - intros col Hc. by rewrite Hw, decide_False.
Qed.

Lemma auto_adjust_column_widths_fits_witness :
  max_row (auto_adjust_column_widths one_column_sheet)
    = max_row one_column_sheet ∧
  max_column (auto_adjust_column_widths one_column_sheet)
    = max_column one_column_sheet.
Proof.
  destruct (auto_adjust_column_widths_fits one_column_sheet)
    as (_ & Hrow & Hcol & _).
  - apply (sheet_nonempty _ 1 1). vm_compute. eauto.
  - split; [exact Hrow|exact Hcol].
Defined.

(** ** Thousand separators *)

Lemma separator_cell_keeps c :
  value (separator_cell c) = value c ∧
  alignment (separator_cell c) = alignment c ∧
  cell_font (separator_cell c) = cell_font c ∧
  fill (separator_cell c) = fill c.
Proof.
  unfold separator_cell. destruct (value c) as [|n|f|s] eqn:Hv; try done.
  - by destruct (999 <? Z.abs n).
  - destruct (compare_op _ _ _); [|done]. by destruct (is_integer f).
Qed.

Lemma separator_cell_idemp c :
  separator_cell (separator_cell c) = separator_cell c.
Proof.
  unfold separator_cell at 2. destruct (value c) as [|n|f|s] eqn:Hv.
  - unfold separator_cell. by rewrite Hv.
  - destruct (999 <? Z.abs n) eqn:Hn; unfold separator_cell; cbn [value];
      by rewrite ?Hv, Hn.
  - destruct (compare_op op_gt (SFabs f) (int_lit 999)) eqn:Hc;
      [destruct (is_integer f) eqn:Hi|];
      unfold separator_cell; cbn [value]; by rewrite ?Hv, Hc, ?Hi.
  - unfold separator_cell. by rewrite Hv.
Qed.

Lemma apply_thousand_separator_spec ws :
  let ws' := apply_thousand_separator ws in
  max_row ws' = max_row ws ∧
  column_width ws' = column_width ws ∧
  freeze_panes ws' = freeze_panes ws ∧
  (∀ r c, cell_of ws' r c = cell_of ws r c ∨
          cell_of ws' r c = separator_cell (cell_of ws r c)) ∧
  (∀ r c, (r < 2)%nat → cell_of ws' r c = cell_of ws r c) ∧
  (∀ r c, (2 ≤ r)%nat → (1 ≤ c)%nat →
     cell_of ws' r c = separator_cell (cell_of ws r c)).
Proof.
  intros ws'.
  destruct (for_cells_iter_rows separator_cell ws 1 (max_column ws))
    as (Hrow & _ & _ & _ & Hw & Hf & Hcell).
  fold (apply_thousand_separator ws) in Hrow, Hw, Hf, Hcell.
  fold ws' in Hrow, Hw, Hf, Hcell.
  split; [done|]. split; [done|]. split; [done|]. split; [|split].
  - intros r c. rewrite Hcell. case_decide; [by right|by left].
  - intros r c Hr. rewrite Hcell. rewrite decide_False; [done|lia].
  - intros r c Hr Hc. rewrite Hcell. case_decide as Hd; [done|].
    rewrite cell_of_beyond; [done|]. lia.
Qed.

(** X13: [apply_thousand_separator] on the sheet.  It leaves the header row
    as it is and changes nothing of a cell but its number format, whatever
    the column; below the header, a cell gets a format with separators
    exactly when its value is an [int] or a [float] above 999 in absolute
    value, texts never do, and the format has no decimals exactly when the
    value is an [int] or an integral [float].  Running it again changes
    nothing. *)
Theorem apply_thousand_separator_cells (ws : Worksheet) :
  let ws' := apply_thousand_separator ws in
  max_row ws' = max_row ws ∧
  (∀ c, cell_of ws' 1 c = cell_of ws 1 c) ∧
  (∀ r c, value (cell_of ws' r c) = value (cell_of ws r c) ∧
          alignment (cell_of ws' r c) = alignment (cell_of ws r c) ∧
          cell_font (cell_of ws' r c) = cell_font (cell_of ws r c) ∧
          fill (cell_of ws' r c) = fill (cell_of ws r c)) ∧
  (∀ r c, (2 ≤ r)%nat → (1 ≤ c)%nat →
     number_format (cell_of ws' r c) =
       match value (cell_of ws r c) with
       | CInt n =>
           if (999 <? Z.abs n)%Z then "#,##0"
           else number_format (cell_of ws r c)
       | CFloat f =>
           if compare_op op_gt (SFabs f) (int_lit 999)
           then if is_integer f then "#,##0" else "#,##0.00"
           else number_format (cell_of ws r c)
       | _ => number_format (cell_of ws r c)
       end) ∧
  (∀ r c, (1 ≤ r)%nat → (1 ≤ c)%nat →
     cell_of (apply_thousand_separator ws') r c = cell_of ws' r c).
Proof.
  intros ws'.
  destruct (apply_thousand_separator_spec ws)
    as (Hrow & _ & _ & Hany & Hhead & Hdata).
  fold ws' in Hrow, Hany, Hhead, Hdata.
  split; [done|]. split; [by intros c; apply Hhead; lia|].
  split; [|split].
  - intros r c. destruct (Hany r c) as [->| ->]; [done|].
    apply separator_cell_keeps.
  - intros r c Hr Hc. rewrite Hdata by done. unfold separator_cell.
    destruct (value (cell_of ws r c)) as [|n|f|s]; try done.
    + by destruct (999 <? Z.abs n).
    + destruct (compare_op _ _ _); [|done]. by destruct (is_integer f).
  - intros r c Hr Hc.
    destruct (apply_thousand_separator_spec ws')
      as (_ & _ & _ & _ & Hhead' & Hdata').
    destruct (decide (r < 2)%nat) as [Hlt|Hge]; [by apply Hhead'|].
    rewrite Hdata' by lia. rewrite Hdata by lia.
    apply separator_cell_idemp.
Qed.

(** ** The whole formatting *)

Lemma freeze_header_and_columns_cells ws :
  max_row (freeze_header_and_columns ws) = max_row ws ∧
  max_column (freeze_header_and_columns ws) = max_column ws ∧
  ∀ r c, cell_of (freeze_header_and_columns ws) r c = cell_of ws r c.
Proof. done. Qed.

Lemma format_excel_file_spec ws matched :
  let ws1 := apply_styles_sheet ws matched in
  let ws' := format_excel_file ws matched in
  freeze_panes ws' = Some FREEZING_CELL ∧
  max_row ws' = max_row ws ∧
  (∀ r c, value (cell_of ws' r c) = value (cell_of ws r c)) ∧
  (∀ r c, (r < 2)%nat → cell_of ws' r c = cell_of ws1 r c) ∧
  (∀ r c, (2 ≤ r)%nat → (1 ≤ c)%nat →
     cell_of ws' r c = separator_cell (cell_of ws1 r c)) ∧
  (ws_cells ws ≠ ∅ →
   ∀ col, column_width ws' !! col =
     if decide (1 ≤ col ≤ max_column ws1)%nat
     then Some (max_len ws col + 2)%nat
     else column_width ws !! col).
Proof.
  intros ws1 ws'.
  destruct (apply_styles_sheet_spec ws matched)
    as (Hrow1 & Hcol1 & Hemp1 & Hne1 & Hw1 & Hf1 & Hcell1).
  fold ws1 in Hrow1, Hcol1, Hemp1, Hne1, Hw1, Hf1, Hcell1.
  assert (∀ r c, value (cell_of ws1 r c) = value (cell_of ws r c)) as Hval1.
  { intros r c. apply apply_styles_sheet_value. }
  set (ws2 := auto_adjust_column_widths ws1).
  set (ws3 := freeze_header_and_columns ws2).
  assert (ws' = apply_thousand_separator ws3) as Hws' by reflexivity.
  destruct (apply_thousand_separator_spec ws3)
    as (Hrow4 & Hw4 & Hf4 & Hany4 & Hhead4 & Hdata4).
  rewrite <- Hws' in Hrow4, Hw4, Hf4, Hany4, Hhead4, Hdata4.
  destruct (decide (ws_cells ws = ∅)) as [He|Hne].
  - assert (ws1 = ws) as Hws1 by auto.
    assert (ws2 = ws) as Hws2.
    { unfold ws2, auto_adjust_column_widths, sheet_columns.
      rewrite Hws1. by rewrite decide_True. }
    assert (∀ r c, cell_of ws3 r c = cell_of ws r c) as Hcell3.
    { intros r c. unfold ws3. by rewrite Hws2. }
    assert (max_row ws3 = max_row ws) as Hrow3.
    { unfold ws3. by rewrite Hws2. }
    split; [by rewrite Hf4|]. split; [congruence|]. split; [|split; [|split]].
    + intros r c. destruct (Hany4 r c) as [->| ->].
      * by rewrite Hcell3.
      * destruct (separator_cell_keeps (cell_of ws3 r c)) as [-> _].
        by rewrite Hcell3.
    + intros r c Hr. rewrite Hhead4 by done. by rewrite Hcell3, Hws1.
    + intros r c Hr Hc. rewrite Hdata4 by done. by rewrite Hcell3, Hws1.
    + intros Hne. destruct (Hne He).
  - destruct (auto_adjust_column_widths_spec ws1 (Hne1 Hne))
      as (_ & Hrow2 & Hcol2 & _ & Hcell2 & Hw2).
    fold ws2 in Hrow2, Hcol2, Hcell2, Hw2.
    assert (∀ r c, cell_of ws3 r c = cell_of ws1 r c) as Hcell3.
    { intros r c. unfold ws3.
      destruct (freeze_header_and_columns_cells ws2) as (_ & _ & ->).
      apply Hcell2. }
    assert (max_row ws3 = max_row ws) as Hrow3.
    { unfold ws3.
      destruct (freeze_header_and_columns_cells ws2) as (-> & _ & _).
      congruence. }
    split; [by rewrite Hf4|]. split; [congruence|]. split; [|split; [|split]].
    + intros r c. destruct (Hany4 r c) as [->| ->].
      * by rewrite Hcell3.
      * destruct (separator_cell_keeps (cell_of ws3 r c)) as [-> _].
        by rewrite Hcell3.
    + intros r c Hr. rewrite Hhead4 by done. by rewrite Hcell3.
    + intros r c Hr Hc. rewrite Hdata4 by done. by rewrite Hcell3.
    + intros _ col. rewrite Hw4. cbn [ws3 freeze_header_and_columns
        column_width]. rewrite Hw2. case_decide; [|by rewrite Hw1].
      do 2 f_equal. apply max_len_ext; [done|]. intros r. apply Hval1.
Qed.

(** X14: [format_excel_file] on the sheet, as a whole.  It freezes the panes
    at [C2], changes no value and nothing of the header row, and keeps the
    number of rows.  Below the header, a cell of the column that a matched
    setting points at gets the styles of that setting and then the number
    format of its value, and a cell of any other column only the number
    format: styles and number formats do not interfere.  On a sheet that has
    cells, every column it had gets the width of its longest text plus
    two. *)
Theorem format_excel_file_cells (ws : Worksheet)
    (matched : gmap string string) :
  ws_cells ws ≠ ∅ →
  let ws' := format_excel_file ws matched in
  freeze_panes ws' = Some "C2" ∧
  max_row ws' = max_row ws ∧
  (∀ r c, value (cell_of ws' r c) = value (cell_of ws r c)) ∧
  (∀ c, cell_of ws' 1 c = cell_of ws 1 c) ∧
  (∀ r c col_def, (c, col_def) ∈ apply_styles matched →
     (2 ≤ r ≤ max_row ws)%nat →
     cell_of ws' r c = separator_cell (style_cell col_def (cell_of ws r c))) ∧
  (∀ r c, (2 ≤ r)%nat → (1 ≤ c)%nat →
     (∀ col_def, (c, col_def) ∉ apply_styles matched) →
     cell_of ws' r c = separator_cell (cell_of ws r c)) ∧
  (∀ col, (1 ≤ col ≤ max_column ws)%nat →
     column_width ws' !! col = Some (max_len ws col + 2)%nat).
Proof.
  intros Hne ws'.
  destruct (format_excel_file_spec ws matched)
    as (Hf & Hrow & Hval & Hhead & Hdata & Hw).
  fold ws' in Hf, Hrow, Hval, Hhead, Hdata, Hw.
  destruct (apply_styles_sheet_spec ws matched)
    as (_ & Hcol1 & _ & _ & _ & _ & Hcell1).
  split; [done|]. split; [done|]. split; [done|].
  split; [|split; [|split]].
  - intros c. rewrite Hhead by lia.
    apply (proj2 (Hcell1 1%nat c)). right. lia.
  - intros r c d Hd Hr. rewrite Hdata; [|lia|by eapply apply_styles_columns].
    by rewrite (proj1 (Hcell1 r c) d Hd Hr).
  - intros r c Hr Hc Hno. rewrite Hdata by done.
    rewrite (proj2 (Hcell1 r c)); [done|by left].
  - intros col Hc. rewrite (Hw Hne). rewrite decide_True; [done|lia].
Qed.

Lemma format_excel_file_cells_witness :
  max_row (format_excel_file one_column_sheet matched_no_yrs)
    = max_row one_column_sheet ∧
  ∀ r c, value (cell_of (format_excel_file one_column_sheet matched_no_yrs) r c)
         = value (cell_of one_column_sheet r c).
Proof.
  destruct (format_excel_file_cells one_column_sheet matched_no_yrs)
    as (_ & Hrow & Hval & _).
  - apply (sheet_nonempty _ 1 1). vm_compute. eauto.
  - split; [exact Hrow|exact Hval].
Defined.

(** X15: a style can land beside the data.  When a matched setting with a
    style points at a column beyond the last column of a sheet that has
    rows below the header, [format_excel_file] creates that column: its
    cells below the header are empty but styled, and the column gets the
    width 2 of a column without values. *)
Theorem format_excel_file_creates_styled_column (ws : Worksheet)
    (matched : gmap string string) (c : nat) (col_def : ColumnSettings)
    (s : Style) :
  (c, col_def) ∈ apply_styles matched →
  style col_def = Some s →
  (max_column ws < c)%nat →
  (2 ≤ max_row ws)%nat →
  let ws' := format_excel_file ws matched in
  (c ≤ max_column ws')%nat ∧
  (∀ r, (2 ≤ r ≤ max_row ws)%nat →
     cell_of ws r c = empty_cell ∧
     cell_of ws' r c = apply_cell_style empty_cell s) ∧
  column_width ws' !! c = Some 2%nat.
Proof.
  intros Hd Hs Hc Hrows ws'.
  assert (ws_cells ws ≠ ∅) as Hne.
  { intros He. rewrite max_row_empty in Hrows by done. lia. }
  destruct (format_excel_file_spec ws matched)
    as (_ & Hrow & Hval & _ & Hdata & Hw).
  fold ws' in Hrow, Hval, Hdata, Hw.
  destruct (apply_styles_sheet_spec ws matched)
    as (_ & _ & _ & _ & _ & _ & Hcell1).
  set (ws1 := apply_styles_sheet ws matched) in *.
  assert (∀ r, cell_of ws r c = empty_cell) as Hempty.
  { intros r. apply cell_of_beyond. by right. }
  assert (style_cell col_def empty_cell = apply_cell_style empty_cell s)
    as Hstyle.
  { unfold style_cell. rewrite Hs.
    destruct (conditional_style col_def) as [[[op thr] s']|]; [|done].
    cbn [apply_cell_style value empty_cell]. by rewrite normalize_None. }
  assert (∀ r, (2 ≤ r ≤ max_row ws)%nat →
               cell_of ws1 r c = apply_cell_style empty_cell s) as Hcell.
  { intros r Hr. rewrite (proj1 (Hcell1 r c) col_def Hd Hr).
    by rewrite Hempty. }
  assert (c ≤ max_column ws1)%nat as Hc1.
  { apply (max_column_ge ws1 2).
    destruct (ws_cells ws1 !! (2%nat, c)) as [x|] eqn:Hx; [eauto|].
    apply cell_of_missing in Hx. rewrite Hcell in Hx by lia. done. }
  assert (1 ≤ c)%nat as Hc0 by (by eapply apply_styles_columns).
  assert (∀ r, (2 ≤ r ≤ max_row ws)%nat →
               cell_of ws' r c = apply_cell_style empty_cell s) as Hcell'.
  { intros r Hr. rewrite Hdata by lia. by rewrite Hcell by done. }
  split; [|split].
  - apply (max_column_ge ws' 2).
    destruct (ws_cells ws' !! (2%nat, c)) as [x|] eqn:Hx; [eauto|].
    apply cell_of_missing in Hx. rewrite Hcell' in Hx by lia. done.
  - intros r Hr. split; [apply Hempty|by apply Hcell'].
  - rewrite (Hw Hne). rewrite decide_True by lia.
    rewrite max_len_empty_column; [done|].
    intros r _. by rewrite Hempty.
Qed.

Lemma format_excel_file_creates_styled_column_witness :
  column_width (format_excel_file one_column_sheet matched_no_yrs) !! 5%nat
    = Some 2%nat.
Proof.
  assert (∃ col_def,
            column_definitions !! 4%nat = Some col_def ∧
            style col_def = Some bold_style) as (col_def & Hd & Hs)
    by (eexists; split; reflexivity).
  apply (format_excel_file_creates_styled_column one_column_sheet
           matched_no_yrs 5 col_def bold_style).
  - unfold apply_styles, apply_styles_with. apply styled_from_elem.
    exists 4%nat. split; [done|]. split; [exact Hd|].
    apply (inj Some) in Hd. subst col_def. vm_compute. eauto.
  - exact Hs.
  - vm_compute. lia.
  - vm_compute. lia.
Defined.

(** ** Formatting twice *)

Lemma worksheet_eq (a b : Worksheet) :
  ws_cells a = ws_cells b → column_width a = column_width b →
  freeze_panes a = freeze_panes b → a = b.
Proof. destruct a, b. cbn. by intros -> -> ->. Qed.

Lemma sheet_cells_eq (a b : Worksheet) :
  (∀ r c, is_Some (ws_cells a !! (r, c)) ↔ is_Some (ws_cells b !! (r, c))) →
  (∀ r c, cell_of a r c = cell_of b r c) →
  ws_cells a = ws_cells b.
Proof.
  intros Hkeys Hcell. apply map_eq. intros [r c].
  specialize (Hkeys r c). specialize (Hcell r c). unfold cell_of in Hcell.
  destruct (ws_cells a !! (r, c)) as [x|], (ws_cells b !! (r, c)) as [y|];
    cbn in Hcell; try congruence.
  - destruct Hkeys as [Hk _]. by destruct (Hk ltac:(eauto)) as [? [=]].
  - destruct Hkeys as [_ Hk]. by destruct (Hk ltac:(eauto)) as [? [=]].
Qed.

Lemma max_column_keys (a b : Worksheet) :
  (∀ r c, is_Some (ws_cells a !! (r, c)) ↔ is_Some (ws_cells b !! (r, c))) →
  max_column a = max_column b.
Proof.
  intros Hkeys.
  destruct (decide (ws_cells a = ∅)) as [Ha|Ha].
  - assert (ws_cells b = ∅) as Hb.
    { apply map_eq. intros [r c]. rewrite lookup_empty.
      apply eq_None_not_Some. rewrite <- Hkeys, Ha, lookup_empty.
      by intros [? [=]]. }
    by rewrite !max_column_empty.
  - assert (ws_cells b ≠ ∅) as Hb.
    { destruct (max_column_attained a Ha) as [r Hr]. apply Hkeys in Hr.
      by eapply sheet_nonempty. }
    apply Nat.le_antisymm.
    + destruct (max_column_attained a Ha) as [r Hr]. apply Hkeys in Hr.
      by eapply max_column_ge.
    + destruct (max_column_attained b Hb) as [r Hr]. apply Hkeys in Hr.
      by eapply max_column_ge.
Qed.

Lemma for_cells_keys f ws coords r c :
  is_Some (ws_cells (for_cells f ws coords) !! (r, c)) ↔
  is_Some (ws_cells ws !! (r, c)) ∨ (r, c) ∈ coords.
Proof.
  revert ws. induction coords as [|[r0 c0] coords IH]; intros ws.
  { cbn [for_cells foldl]. split; [by left|]. by intros [?|?%elem_of_nil]. }
  rewrite for_cells_cons, IH. cbn [fst snd].
  rewrite update_cell_keys, elem_of_cons. naive_solver.
Qed.

Lemma style_columns_keys targets ws r c :
  is_Some (ws_cells (style_columns targets ws) !! (r, c)) ↔
  is_Some (ws_cells ws !! (r, c)) ∨
  ((2 ≤ r ≤ max_row ws)%nat ∧ c ∈ targets.*1).
Proof.
  revert ws. induction targets as [|[k d] targets IH]; intros ws.
  { cbn [style_columns foldl]. split; [by left|].
    by intros [?|[_ ?%elem_of_nil]]. }
  rewrite style_columns_cons, IH. cbn [fst snd].
  destruct (for_cells_iter_rows (style_cell d) ws k k) as (-> & _).
  rewrite for_cells_keys, iter_rows_elem. cbn [fmap list_fmap fst].
  rewrite elem_of_cons. split.
  - intros [[?|[? ?]]|[? ?]]; [by left|right|right]; (split; [done|]).
    + left. lia.
    + by right.
  - intros [?|[? [->|?]]]; [by left; left|left; right|by right].
    split; [done|lia].
Qed.

Lemma for_cells_max_column f ws coords :
  ws_cells ws ≠ ∅ →
  Forall (λ rc, (rc.1 ≤ max_row ws)%nat ∧ (rc.2 ≤ max_column ws)%nat) coords →
  max_column (for_cells f ws coords) = max_column ws.
Proof.
  intros Hne Hall.
  destruct (for_cells_bounds f ws coords Hne) as (_ & _ & ->).
  { eapply Forall_impl; [exact Hall|]. by intros ? [? ?]. }
  apply Nat.le_antisymm; [|apply max_list_elem_of_le; left].
  assert (max_list (max_column ws :: coords.*2)
            ∈ max_column ws :: coords.*2) as Hin
    by (by apply max_list_elem_of).
  apply elem_of_cons in Hin as [Heq|Hin]; [by rewrite Heq|].
  apply list_elem_of_fmap in Hin as (rc & -> & Hin).
  rewrite Forall_forall in Hall. by apply Hall.
Qed.

Lemma apply_thousand_separator_exact ws :
  let ws' := apply_thousand_separator ws in
  max_column ws' = max_column ws ∧
  (∀ r c, cell_of ws' r c =
     if decide ((2 ≤ r ≤ max_row ws)%nat ∧ (1 ≤ c ≤ max_column ws)%nat)
     then separator_cell (cell_of ws r c) else cell_of ws r c) ∧
  (∀ r c, is_Some (ws_cells ws' !! (r, c)) ↔
     is_Some (ws_cells ws !! (r, c)) ∨
     ((2 ≤ r ≤ max_row ws)%nat ∧ (1 ≤ c ≤ max_column ws)%nat)).
Proof.
  intros ws'.
  destruct (for_cells_iter_rows separator_cell ws 1 (max_column ws))
    as (_ & _ & Hemp & _ & _ & _ & Hcell).
  split; [|split; [exact Hcell|]].
  - destruct (decide (ws_cells ws = ∅)) as [He|Hne].
    + unfold ws', apply_thousand_separator. by rewrite Hemp.
    + apply for_cells_max_column; [done|]. apply Forall_forall.
      intros [r c] Hin%iter_rows_elem. cbn [fst snd]. lia.
  - intros r c. unfold ws', apply_thousand_separator.
    by rewrite for_cells_keys, iter_rows_elem.
Qed.

Lemma auto_adjust_column_widths_keys ws r c :
  ws_cells ws ≠ ∅ →
  is_Some (ws_cells (auto_adjust_column_widths ws) !! (r, c)) ↔
  is_Some (ws_cells ws !! (r, c)) ∨
  ((1 ≤ r ≤ max_row ws)%nat ∧ (1 ≤ c ≤ max_column ws)%nat).
Proof.
  intros Hne. unfold auto_adjust_column_widths, sheet_columns.
  rewrite decide_False by done.
  assert (∀ cols ws,
            ws_cells ws ≠ ∅ →
            Forall (λ c, (c ≤ max_column ws)%nat) cols →
            is_Some (ws_cells (foldl adjust_column_width ws cols) !! (r, c)) ↔
            is_Some (ws_cells ws !! (r, c)) ∨
            ((1 ≤ r ≤ max_row ws)%nat ∧ c ∈ cols)) as Hfold.
  { clear ws Hne. induction cols as [|c0 cols IH]; intros ws Hne Hall.
    { cbn [foldl]. split; [by left|]. by intros [?|[_ ?%elem_of_nil]]. }
    apply Forall_cons in Hall as [Hc Hall]. cbn [foldl].
    destruct (adjust_column_width_spec ws c0 Hne Hc)
      as (Hne1 & Hrow1 & Hcol1 & _).
    rewrite IH; [|done|by rewrite Hcol1]. rewrite Hrow1.
    unfold adjust_column_width at 1. cbn [ws_cells].
    rewrite for_cells_keys, list_elem_of_fmap, elem_of_cons. split.
    - intros [[?|(r' & [= -> ->] & Hr%elem_of_seq)]|[? ?]];
        [by left|right|right]; (split; [lia|]); [by left|by right].
    - intros [?|[? [->|?]]]; [by left; left|left; right|by right].
      exists r. split; [done|]. apply elem_of_seq. lia. }
  rewrite Hfold; [|done|].
  - rewrite elem_of_seq. split; (intros [?|[? ?]]; [by left|right]); lia.
  - apply Forall_forall. intros c' Hc'%elem_of_seq. lia.
Qed.

Lemma separator_apply_cell_style c s :
  separator_cell (apply_cell_style c s)
  = apply_cell_style (separator_cell c) s.
Proof.
  unfold separator_cell. cbn [apply_cell_style value].
  destruct (value c) as [|n|f|t] eqn:Hv; try done.
  - by destruct (999 <? Z.abs n).
  - destruct (compare_op _ _ _); [|done]. by destruct (is_integer f).
Qed.

Lemma separator_style_cell d c :
  style_cell d (separator_cell c) = separator_cell (style_cell d c).
Proof.
  destruct (separator_cell_keeps c) as (Hv & _).
  unfold style_cell.
  destruct (style d) as [s|], (conditional_style d) as [[[op thr] s']|];
    cbn [apply_cell_style value]; rewrite ?Hv;
    try (destruct (normalize (value c)) as [x|];
         [destruct (compare_op op x thr)|]);
    by rewrite ?separator_apply_cell_style.
Qed.

Lemma format_excel_file_exact ws matched :
  ws_cells ws ≠ ∅ →
  let ws1 := apply_styles_sheet ws matched in
  let ws' := format_excel_file ws matched in
  ws_cells ws' ≠ ∅ ∧
  max_row ws' = max_row ws ∧
  max_column ws' = max_column ws1 ∧
  freeze_panes ws' = Some FREEZING_CELL ∧
  (∀ r c, cell_of ws' r c =
     if decide ((2 ≤ r ≤ max_row ws)%nat ∧ (1 ≤ c ≤ max_column ws1)%nat)
     then separator_cell (cell_of ws1 r c) else cell_of ws1 r c) ∧
  (∀ r c, is_Some (ws_cells ws' !! (r, c)) ↔
     is_Some (ws_cells ws1 !! (r, c)) ∨
     ((1 ≤ r ≤ max_row ws)%nat ∧ (1 ≤ c ≤ max_column ws1)%nat)) ∧
  (∀ col, column_width ws' !! col =
     if decide (1 ≤ col ≤ max_column ws1)%nat
     then Some (max_len ws col + 2)%nat
     else column_width ws !! col).
Proof.
  intros Hne ws1 ws'.
  destruct (apply_styles_sheet_spec ws matched)
    as (Hrow1 & _ & _ & Hne1 & Hw1 & _ & _).
  pose proof (apply_styles_sheet_value ws matched) as Hval1.
  subst ws'. unfold format_excel_file. fold ws1 in Hrow1, Hne1, Hw1, Hval1 |- *.
  generalize dependent ws1. intros ws1 Hrow1 Hne1 Hw1 Hval1.
  specialize (Hne1 Hne).
  destruct (auto_adjust_column_widths_spec ws1 Hne1)
    as (Hne2 & Hrow2 & Hcol2 & _ & Hcell2 & Hw2).
  pose proof (auto_adjust_column_widths_keys ws1) as Hkeys2.
  generalize dependent (auto_adjust_column_widths ws1). intros ws2.
  intros Hne2 Hrow2 Hcol2 Hcell2 Hw2 Hkeys2.
  destruct (freeze_header_and_columns_cells ws2) as (Hrow3 & Hcol3 & Hcell3).
  assert (ws_cells (freeze_header_and_columns ws2) = ws_cells ws2) as Hcells3
    by reflexivity.
  assert (column_width (freeze_header_and_columns ws2) = column_width ws2)
    as Hw3 by reflexivity.
  destruct (apply_thousand_separator_spec (freeze_header_and_columns ws2))
    as (Hrow4 & Hw4 & Hf4 & _).
  destruct (apply_thousand_separator_exact (freeze_header_and_columns ws2))
    as (Hcol4 & Hcell4 & Hkeys4).
  generalize dependent (apply_thousand_separator
                          (freeze_header_and_columns ws2)). intros ws'.
  intros Hrow4 Hw4 Hf4 Hcol4 Hcell4 Hkeys4.
  rewrite Hrow3, Hcol3, Hrow2, Hcol2, Hrow1 in *.
  assert (∀ r c, is_Some (ws_cells ws' !! (r, c)) ↔
            is_Some (ws_cells ws1 !! (r, c)) ∨
            ((1 ≤ r ≤ max_row ws)%nat ∧ (1 ≤ c ≤ max_column ws1)%nat))
    as Hkeys.
  { intros r c. rewrite Hkeys4, Hcells3, Hkeys2 by done. split.
    - intros [[?|?]|[? ?]]; [by left|by right|right]. lia.
    - intros [?|?]; [by left; left|by left; right]. }
  split.
  { destruct (max_column_attained ws1 Hne1) as [r Hr].
    apply (sheet_nonempty _ r (max_column ws1)). apply Hkeys. by left. }
  split; [done|]. split; [done|]. split; [by rewrite Hf4|].
  split; [|split; [exact Hkeys|]].
  - intros r c. rewrite Hcell4, !Hcell3, !Hcell2. done.
  - intros col. rewrite Hw4, Hw3, Hw2.
    case_decide; [|by rewrite Hw1].
    do 2 f_equal. apply max_len_ext; [done|]. intros r. apply Hval1.
Qed.

Lemma format_excel_file_empty ws matched :
  ws_cells ws = ∅ →
  format_excel_file ws matched = freeze_header_and_columns ws.
Proof.
  intros He. unfold format_excel_file.
  destruct (apply_styles_sheet_spec ws matched) as (_ & _ & Hemp & _).
  rewrite (Hemp He).
  assert (auto_adjust_column_widths ws = ws) as ->.
  { unfold auto_adjust_column_widths, sheet_columns.
    by rewrite decide_True. }
  unfold apply_thousand_separator.
  assert (iter_rows (freeze_header_and_columns ws) 2 1
            (max_column (freeze_header_and_columns ws)) = []) as ->; [|done].
  unfold iter_rows. by rewrite max_row_empty.
Qed.

Lemma apply_styles_sheet_keys ws matched r c :
  is_Some (ws_cells (apply_styles_sheet ws matched) !! (r, c)) ↔
  is_Some (ws_cells ws !! (r, c)) ∨
  ((2 ≤ r ≤ max_row ws)%nat ∧ c ∈ (apply_styles matched).*1).
Proof. unfold apply_styles_sheet. apply style_columns_keys. Qed.

Section FormatTwice.

Variable targets : list (nat * ColumnSettings).
Variables ws ws1 ws' ws1' ws'' : Worksheet.

Hypothesis Htarget : ∀ c d, (c, d) ∈ targets → (1 ≤ c)%nat.

Hypothesis Hcell1 : ∀ r c,
  (∀ d, (c, d) ∈ targets → (2 ≤ r ≤ max_row ws)%nat →
        cell_of ws1 r c = style_cell d (cell_of ws r c)) ∧
  ((∀ d, (c, d) ∉ targets) ∨ ¬ (2 ≤ r ≤ max_row ws)%nat →
   cell_of ws1 r c = cell_of ws r c).
Hypothesis Hkeys1 : ∀ r c,
  is_Some (ws_cells ws1 !! (r, c)) ↔
  is_Some (ws_cells ws !! (r, c)) ∨
  ((2 ≤ r ≤ max_row ws)%nat ∧ c ∈ targets.*1).

Hypothesis Hrow : max_row ws' = max_row ws.
Hypothesis Hcol : max_column ws' = max_column ws1.
Hypothesis Hf : freeze_panes ws' = Some FREEZING_CELL.
Hypothesis Hcell : ∀ r c, cell_of ws' r c =
  if decide ((2 ≤ r ≤ max_row ws)%nat ∧ (1 ≤ c ≤ max_column ws1)%nat)
  then separator_cell (cell_of ws1 r c) else cell_of ws1 r c.
Hypothesis Hkeys : ∀ r c,
  is_Some (ws_cells ws' !! (r, c)) ↔
  is_Some (ws_cells ws1 !! (r, c)) ∨
  ((1 ≤ r ≤ max_row ws)%nat ∧ (1 ≤ c ≤ max_column ws1)%nat).
Hypothesis Hw : ∀ col, column_width ws' !! col =
  if decide (1 ≤ col ≤ max_column ws1)%nat
  then Some (max_len ws col + 2)%nat else column_width ws !! col.

Hypothesis Hcell1' : ∀ r c,
  (∀ d, (c, d) ∈ targets → (2 ≤ r ≤ max_row ws')%nat →
        cell_of ws1' r c = style_cell d (cell_of ws' r c)) ∧
  ((∀ d, (c, d) ∉ targets) ∨ ¬ (2 ≤ r ≤ max_row ws')%nat →
   cell_of ws1' r c = cell_of ws' r c).
Hypothesis Hkeys1' : ∀ r c,
  is_Some (ws_cells ws1' !! (r, c)) ↔
  is_Some (ws_cells ws' !! (r, c)) ∨
  ((2 ≤ r ≤ max_row ws')%nat ∧ c ∈ targets.*1).

Hypothesis Hf' : freeze_panes ws'' = Some FREEZING_CELL.
Hypothesis Hcell' : ∀ r c, cell_of ws'' r c =
  if decide ((2 ≤ r ≤ max_row ws')%nat ∧ (1 ≤ c ≤ max_column ws1')%nat)
  then separator_cell (cell_of ws1' r c) else cell_of ws1' r c.
Hypothesis Hkeys' : ∀ r c,
  is_Some (ws_cells ws'' !! (r, c)) ↔
  is_Some (ws_cells ws1' !! (r, c)) ∨
  ((1 ≤ r ≤ max_row ws')%nat ∧ (1 ≤ c ≤ max_column ws1')%nat).
Hypothesis Hw' : ∀ col, column_width ws'' !! col =
  if decide (1 ≤ col ≤ max_column ws1')%nat
  then Some (max_len ws' col + 2)%nat else column_width ws' !! col.

Lemma format_twice_same : ws'' = ws'.
Proof.
  rewrite Hrow in *.
  assert (∀ r c, (2 ≤ r ≤ max_row ws)%nat → c ∈ targets.*1 →
                 is_Some (ws_cells ws1 !! (r, c))) as Hcreated.
  { intros r c Hr Hc. apply Hkeys1. by right. }
  assert (∀ r c, is_Some (ws_cells ws1' !! (r, c)) ↔
                 is_Some (ws_cells ws' !! (r, c))) as Hsame.
  { intros r c. rewrite Hkeys1'. split; [|by left].
    intros [?|[Hr Hc]]; [done|]. apply Hkeys. left. by apply Hcreated. }
  assert (max_column ws1' = max_column ws1) as Hcols.
  { rewrite <- Hcol. by apply max_column_keys. }
  rewrite Hcols in *.
  assert (∀ r c, value (cell_of ws1 r c) = value (cell_of ws r c)) as Hval1.
  { intros r c.
    destruct (decide (2 ≤ r ≤ max_row ws)%nat) as [Hr|Hr];
      [|by rewrite (proj2 (Hcell1 r c)) by (by right)].
    destruct (decide (c ∈ targets.*1)) as [Hc|Hc].
    - apply list_elem_of_fmap in Hc as ([c' d] & -> & Hd). cbn [fst].
      rewrite (proj1 (Hcell1 r c') d Hd Hr).
      apply style_cell_value.
    - rewrite (proj2 (Hcell1 r c)); [done|]. left. intros d Hd. apply Hc.
      by apply (list_elem_of_fmap_2 fst) in Hd. }
  apply worksheet_eq; [| |congruence].
  - apply sheet_cells_eq.
    + intros r c. rewrite Hkeys', Hsame, Hkeys. naive_solver.
    + intros r c. rewrite Hcell'.
      destruct (decide ((2 ≤ r ≤ max_row ws)%nat ∧ c ∈ targets.*1))
        as [[Hr Hc]|Hno].
      * apply list_elem_of_fmap in Hc as ([c' d] & Hc' & Hd).
        cbn [fst] in Hc'. subst c'.
        assert (1 ≤ c ≤ max_column ws1)%nat as Hcin.
        { split; [by eapply Htarget|].
          apply (max_column_ge ws1 r). apply Hcreated; [done|].
          by apply (list_elem_of_fmap_2 fst) in Hd. }
        rewrite decide_True by done.
        rewrite (proj1 (Hcell1' r c) d Hd Hr), Hcell.
        rewrite decide_True by done.
        rewrite (proj1 (Hcell1 r c) d Hd Hr).
        by rewrite separator_style_cell, style_cell_idemp, separator_cell_idemp.
      * assert (cell_of ws1' r c = cell_of ws' r c) as ->.
        { apply (proj2 (Hcell1' r c)).
          destruct (decide (2 ≤ r ≤ max_row ws)%nat) as [Hr|Hr];
            [left|by right].
          intros d Hd. apply Hno. split; [done|].
          by apply (list_elem_of_fmap_2 fst) in Hd. }
        case_decide as Hin; [|done].
        rewrite Hcell, decide_True by done. apply separator_cell_idemp.
  - apply map_eq. intros col. rewrite Hw', Hw. case_decide; [|done].
    do 2 f_equal. apply max_len_ext; [done|]. intros r. rewrite Hcell.
    case_decide; [|apply Hval1].
    rewrite (proj1 (separator_cell_keeps _)). apply Hval1.
Qed.

End FormatTwice.

(** X16: formatting is idempotent.  [format_excel_file] run on a sheet that
    it has formatted, with the same map, returns the same sheet: the same
    cells with the same values, styles and number formats, the same column
    widths and the same frozen panes; no further cell is created. *)
Theorem format_excel_file_idempotent (ws : Worksheet)
    (matched : gmap string string) :
  format_excel_file (format_excel_file ws matched) matched
  = format_excel_file ws matched.
Proof.
  destruct (decide (ws_cells ws = ∅)) as [He|Hne].
  { rewrite (format_excel_file_empty ws) by done.
    by rewrite format_excel_file_empty. }
  destruct (format_excel_file_exact ws matched Hne)
    as (Hne' & Hrow & Hcol & Hf & Hcell & Hkeys & Hw).
  destruct (format_excel_file_exact (format_excel_file ws matched) matched Hne')
    as (_ & _ & _ & Hf' & Hcell' & Hkeys' & Hw').
  apply (format_twice_same (apply_styles matched) ws
           (apply_styles_sheet ws matched) (format_excel_file ws matched)
           (apply_styles_sheet (format_excel_file ws matched) matched)).
  - apply apply_styles_columns.
  - apply apply_styles_sheet_spec.
  - apply apply_styles_sheet_keys.
  - exact Hrow.
  - exact Hcol.
  - exact Hf.
  - exact Hcell.
  - exact Hkeys.
  - exact Hw.
  - apply apply_styles_sheet_spec.
  - apply apply_styles_sheet_keys.
  - exact Hf'.
  - exact Hcell'.
  - exact Hkeys'.
  - exact Hw'.
Qed.
